(** * Steady-state resolution of a digital-logic netlist (book/src/cv2tikz.py)

    A shallow embedding of the resolution core of [cv2tikz.py]: the
    per-component evaluators ([update_and_gate] ... [update_xor_gate]),
    the seeding of node states ([initialize_node_states]), the
    construction of the successor sets ([find_successors]), the
    depth-first topological sort ([topological_sort]) and the two
    propagation passes of [compute_node_states].

    Conventions of the embedding.
    - A node is the Python dictionary of the netlist: its ['type'], its
      optional ['state'] (absent or [None] is [None] here, since the code
      only ever reads it through [.get('state')]) and its ['connections'].
    - Node indices are natural numbers (the netlist stores non-negative
      indices); an index outside a list raises [IndexError].
    - The node list is mutated in place by the code; here every function
      takes the list and returns the mutated list.  A function that can
      raise after having mutated returns the list as it is at the raise.
    - A Python set of node indices is built as the list of its elements,
      without repetition, in insertion order.  The language does not fix
      the order in which a set is iterated: it is a parameter,
      [set_iter], which maps the elements in insertion order to the
      elements in iteration order.  The results hold for every such
      order; those on the sort hold for every list of successors.
    - The interpreter bounds the nesting of calls and raises
      [RecursionError] beyond it.  The two depth-first walks take the
      number of nested calls that they may still make and raise when it
      is exhausted; [recursion_limit] is the number available to a
      function that [compute_node_states] calls.  The other calls nest
      at most two deep (an evaluator called by [update_element]), which
      an interpreter that has parsed the netlist allows. *)

From Stdlib Require Import ZArith Lia.
From stdpp Require Import base relations list strings.

Open Scope string_scope.
Open Scope Z_scope.
Open Scope list_scope.

(** ** Exceptions and results *)

Inductive pyexn : Type :=
  | IndexError
  | KeyError
  | TypeError
  | RecursionError
  | Exception (msg : string).

(** Result of a computation that reads but does not mutate. *)
Inductive res (A : Type) : Type :=
  | Ok (a : A)
  | Err (e : pyexn).
Arguments Ok {A} a.
Arguments Err {A} e.

Definition rbind {A B : Type} (m : res A) (f : A -> res B) : res B :=
  match m with
  | Ok a => f a
  | Err e => Err e
  end.

Notation "'do' x <- m ; k" := (rbind m (fun x => k))
  (at level 10, x pattern, m at level 100, k at level 200).

(** ** The node store *)

Definition INPUT_NODE : Z := 0.
Definition OUTPUT_NODE : Z := 1.

Record node : Type := Node {
  type : Z;
  state : option Z;
  connections : list nat
}.

(** [all_nodes[i]] *)
Definition get_node (all_nodes : list node) (i : nat) : res node :=
  match all_nodes !! i with
  | Some n => Ok n
  | None => Err IndexError
  end.

(** [all_nodes[i].get('state')] *)
Definition get_state (all_nodes : list node) (i : nat) : res (option Z) :=
  do n <- get_node all_nodes i; Ok (state n).

(** [all_nodes[i]['state'] = v], for an index already known to be in range *)
Definition set_state (i : nat) (v : option Z) (all_nodes : list node) : list node :=
  alter (fun n => Node (type n) v (connections n)) i all_nodes.

(** [i != None] and [i == v] on an optional state *)
Definition defined (i : option Z) : bool :=
  match i with Some _ => true | None => false end.

Definition state_is (v : Z) (i : option Z) : bool :=
  match i with Some x => Z.eqb x v | None => false end.

(** ** Ports of a component: [element['customData']['nodes']] *)

Inductive port : Type :=
  | One (i : nat)
  | Many (l : list nat).

Definition ports : Type := list (string * port).

Fixpoint lookup_key {A : Type} (k : string) (d : list (string * A)) : option A :=
  match d with
  | [] => None
  | (k', v) :: d' => if String.eqb k k' then Some v else lookup_key k d'
  end.

(** [nodes[k]] used as an index *)
Definition port_one (nodes : ports) (k : string) : res nat :=
  match lookup_key k nodes with
  | None => Err KeyError
  | Some (One i) => Ok i
  | Some (Many _) => Err TypeError
  end.

(** [nodes[k]] used as a list *)
Definition port_many (nodes : ports) (k : string) : res (list nat) :=
  match lookup_key k nodes with
  | None => Err KeyError
  | Some (Many l) => Ok l
  | Some (One _) => Err TypeError
  end.

(** [nodes[k][j]] *)
Definition port_at (nodes : ports) (k : string) (j : nat) : res nat :=
  do l <- port_many nodes k;
  match l !! j with
  | Some i => Ok i
  | None => Err IndexError
  end.

(** [all_nodes[nodes[k][j]].get('state')] *)
Definition state_at (nodes : ports) (all_nodes : list node) (k : string) (j : nat)
  : res (option Z) :=
  do i <- port_at nodes k j; get_state all_nodes i.

(** [output = all_nodes[nodes[k]]]: the index of the fetched node *)
Definition node_of (nodes : ports) (all_nodes : list node) (k : string) : res nat :=
  do i <- port_one nodes k;
  do _ <- get_node all_nodes i;
  Ok i.

(** [len(nodes['inp']) != n] then [raise Exception(msg)] *)
Definition check_arity (nodes : ports) (n : nat) (msg : string) : res unit :=
  do l <- port_many nodes "inp";
  if Nat.eqb (length l) n then Ok tt else Err (Exception msg).

(** ** Gate evaluators

    Every evaluator performs all its reads and its arity check before
    its first assignment, so an evaluator that raises has not mutated
    the store: the evaluators return [res (list node)]. *)

Definition update_and_gate (nodes : ports) (all_nodes : list node) : res (list node) :=
  do i0 <- state_at nodes all_nodes "inp" 0;
  do i1 <- state_at nodes all_nodes "inp" 1;
  do _ <- check_arity nodes 2 "Unsupported and gate (>2 inputs)";
  do output <- node_of nodes all_nodes "output1";
  if defined i0 || defined i1
  then Ok (set_state output (Some (if state_is 1 i0 && state_is 1 i1 then 1 else 0)) all_nodes)
  else Ok all_nodes.

Definition update_demultiplexer (nodes : ports) (all_nodes : list node) : res (list node) :=
  do i <- (do ix <- port_one nodes "input"; get_state all_nodes ix);
  do c <- (do ix <- port_one nodes "controlSignalInput"; get_state all_nodes ix);
  do output0 <- (do ix <- port_at nodes "output1" 0; do _ <- get_node all_nodes ix; Ok ix);
  do output1 <- (do ix <- port_at nodes "output1" 1; do _ <- get_node all_nodes ix; Ok ix);
  if defined i && defined c
  then
    if state_is 0 c
    then Ok (set_state output1 (Some 0) (set_state output0 i all_nodes))
    else Ok (set_state output1 i (set_state output0 (Some 0) all_nodes))
  else Ok all_nodes.

Definition update_multiplexer (nodes : ports) (all_nodes : list node) : res (list node) :=
  do i0 <- state_at nodes all_nodes "inp" 0;
  do i1 <- state_at nodes all_nodes "inp" 1;
  do _ <- check_arity nodes 2 "Unsupported multiplexer (>2 inputs)";
  do c <- (do ix <- port_one nodes "controlSignalInput"; get_state all_nodes ix);
  do output <- node_of nodes all_nodes "output1";
  if defined c
  then
    if state_is 0 c && defined i0
    then Ok (set_state output i0 all_nodes)
    else if defined i1
         then Ok (set_state output i1 all_nodes)
         else Ok all_nodes
  else Ok all_nodes.

Definition update_nand_gate (nodes : ports) (all_nodes : list node) : res (list node) :=
  do i0 <- state_at nodes all_nodes "inp" 0;
  do i1 <- state_at nodes all_nodes "inp" 1;
  do _ <- check_arity nodes 2 "Unsupported nand gate (>2 inputs)";
  do output <- node_of nodes all_nodes "output1";
  if defined i0 || defined i1
  then Ok (set_state output (Some (if state_is 1 i0 && state_is 1 i1 then 0 else 1)) all_nodes)
  else Ok all_nodes.

Definition update_nor_gate (nodes : ports) (all_nodes : list node) : res (list node) :=
  do i0 <- state_at nodes all_nodes "inp" 0;
  do i1 <- state_at nodes all_nodes "inp" 1;
  do _ <- check_arity nodes 2 "Unsupported nor gate (>2 inputs)";
  do output <- node_of nodes all_nodes "output1";
  if defined i0 || defined i1
  then Ok (set_state output (Some (if state_is 1 i0 || state_is 1 i1 then 0 else 1)) all_nodes)
  else Ok all_nodes.

Definition update_not_gate (nodes : ports) (all_nodes : list node) : res (list node) :=
  do i <- (do ix <- port_one nodes "inp1"; get_state all_nodes ix);
  do output <- node_of nodes all_nodes "output1";
  if defined i
  then Ok (set_state output (Some (if state_is 0 i then 1 else 0)) all_nodes)
  else Ok all_nodes.

Definition update_or_gate (nodes : ports) (all_nodes : list node) : res (list node) :=
  do i0 <- state_at nodes all_nodes "inp" 0;
  do i1 <- state_at nodes all_nodes "inp" 1;
  do inp <- port_many nodes "inp";
  if Nat.eqb (length inp) 3
  then
    do i2 <- state_at nodes all_nodes "inp" 2;
    do output <- node_of nodes all_nodes "output1";
    if defined i0 || defined i1 || defined i2
    then Ok (set_state output (Some (if state_is 1 i0 || state_is 1 i1 || state_is 1 i2 then 1 else 0)) all_nodes)
    else Ok all_nodes
  else
    do _ <- check_arity nodes 2 "Unsupported or gate (>3 inputs)";
    do output <- node_of nodes all_nodes "output1";
    if defined i0 || defined i1
    then Ok (set_state output (Some (if state_is 1 i0 || state_is 1 i1 then 1 else 0)) all_nodes)
    else Ok all_nodes.

Definition update_sr_flip_flop (nodes : ports) (all_nodes : list node) : res (list node) :=
  do i <- (do ix <- port_one nodes "S"; get_state all_nodes ix);
  do output <- node_of nodes all_nodes "qOutput";
  Ok (set_state output (Some (if state_is 1 i then 1 else 0)) all_nodes).

Definition update_tristate (nodes : ports) (all_nodes : list node) : res (list node) :=
  do i <- (do ix <- port_one nodes "inp1"; get_state all_nodes ix);
  do c <- (do ix <- port_one nodes "state"; get_state all_nodes ix);
  do output <- node_of nodes all_nodes "output1";
  if defined i && defined c
  then Ok (set_state output (if state_is 1 c then i else None) all_nodes)
  else Ok all_nodes.

Definition update_xor_gate (nodes : ports) (all_nodes : list node) : res (list node) :=
  do i0 <- state_at nodes all_nodes "inp" 0;
  do i1 <- state_at nodes all_nodes "inp" 1;
  do _ <- check_arity nodes 2 "Unsupported xor gate (>2 inputs)";
  do output <- node_of nodes all_nodes "output1";
  if defined i0 || defined i1
  then Ok (set_state output (Some (if negb (Bool.eqb (state_is 1 i0) (state_is 1 i1)) then 1 else 0)) all_nodes)
  else Ok all_nodes.

(** ** Components

    A component instance is the Python dictionary of the netlist.  A
    sub-circuit instance has no ['objectType'] and carries ['id'],
    ['inputNodes'] and ['outputNodes']; every other component carries
    ['customData'] (its ['nodes'] and, for buttons and inputs, its
    ['values']['state']) and ['labelDirection']. *)

Record element : Type := Element {
  objectType : option string;
  id : string;
  inputNodes : list nat;
  outputNodes : list nat;
  customData_nodes : ports;
  customData_values_state : Z;
  labelDirection : string
}.

(** [sub in s] on Python strings *)
Fixpoint contains (sub s : string) : bool :=
  String.prefix sub s ||
  match s with
  | EmptyString => false
  | String _ s' => contains sub s'
  end.

(** Outcome of a computation that mutates: normal return with the
    mutated state, or an exception with the state as mutated so far. *)
Inductive outcome (A : Type) : Type :=
  | Done (a : A)
  | Raise (e : pyexn) (a : A).
Arguments Done {A} a.
Arguments Raise {A} e a.

(** A read-then-write step run on the state [s] *)
Definition run {A : Type} (s : A) (m : res A) : outcome A :=
  match m with
  | Ok s' => Done s'
  | Err e => Raise e s
  end.

(** [for x in l: body] *)
Fixpoint for_each {A S : Type} (l : list A) (body : A -> S -> outcome S) (s : S)
  : outcome S :=
  match l with
  | [] => Done s
  | x :: l' =>
    match body x s with
    | Done s' => for_each l' body s'
    | r => r
    end
  end.

(** [[f(x) for x in l]], stopping at the first exception *)
Fixpoint collect {A B : Type} (f : A -> outcome B) (l : list A) : outcome (list B) :=
  match l with
  | [] => Done []
  | x :: l' =>
    match f x with
    | Done b =>
      match collect f l' with
      | Done bs => Done (b :: bs)
      | Raise e bs => Raise e bs
      end
    | Raise e _ => Raise e []
    end
  end.

(** [successors.add(x)] on the elements in insertion order *)
Definition set_add (x : nat) (s : list nat) : list nat :=
  if bool_decide (x ∈ s) then s else s ++ [x].

Section Resolution.

(** The global table [scope_name_by_id], filled by [main] before any
    element is initialized. *)
Variable scope_name_by_id : list (string * string).

(** The order in which the interpreter iterates over a set of node
    indices: the elements in iteration order, given the elements in
    insertion order. *)
Variable set_iter : list nat -> list nat.

(** The number of nested calls that the interpreter allows to a function
    called by [compute_node_states] before it raises [RecursionError]. *)
Variable recursion_limit : nat.

Definition scope_name (e : element) : res string :=
  match lookup_key (id e) scope_name_by_id with
  | Some name => Ok name
  | None => Err KeyError
  end.

(** [all_nodes[l[j]]]: the index of the fetched node *)
Definition node_at (l : list nat) (all_nodes : list node) (j : nat) : res nat :=
  match l !! j with
  | Some i => do _ <- get_node all_nodes i; Ok i
  | None => Err IndexError
  end.

Definition update_subcircuit (e : element) (all_nodes : list node) : res (list node) :=
  do i <- (do ix <- node_at (inputNodes e) all_nodes 0; get_state all_nodes ix);
  do c <- (do ix <- node_at (inputNodes e) all_nodes 1; get_state all_nodes ix);
  do output <- node_at (outputNodes e) all_nodes 0;
  do name <- scope_name e;
  if contains "NormallyClosed" name
  then
    if defined i && negb (state_is 1 c)
    then Ok (set_state output i all_nodes)
    else Ok all_nodes
  else
    if defined i && state_is 1 c
    then Ok (set_state output i all_nodes)
    else Ok all_nodes.

Definition maybe_update_subcircuit_input (e : element) (all_nodes : list node)
  : res (list node) :=
  do input <- node_at (inputNodes e) all_nodes 0;
  do c <- (do ix <- node_at (inputNodes e) all_nodes 1; get_state all_nodes ix);
  do o <- (do ix <- node_at (outputNodes e) all_nodes 0; get_state all_nodes ix);
  do name <- scope_name e;
  if contains "NormallyClosed" name
  then
    if defined o && negb (state_is 1 c)
    then Ok (set_state input o all_nodes)
    else Ok all_nodes
  else
    if defined o && state_is 1 c
    then Ok (set_state input o all_nodes)
    else Ok all_nodes.

Definition update_element (e : element) (all_nodes : list node) : res (list node) :=
  match objectType e with
  | None => update_subcircuit e all_nodes
  | Some t =>
    let nodes := customData_nodes e in
    if String.eqb t "AndGate" then update_and_gate nodes all_nodes
    else if String.eqb t "Demultiplexer" then update_demultiplexer nodes all_nodes
    else if String.eqb t "Multiplexer" then update_multiplexer nodes all_nodes
    else if String.eqb t "NandGate" then update_nand_gate nodes all_nodes
    else if String.eqb t "NorGate" then update_nor_gate nodes all_nodes
    else if String.eqb t "NotGate" then update_not_gate nodes all_nodes
    else if String.eqb t "OrGate" then update_or_gate nodes all_nodes
    else if String.eqb t "SRflipFlop" then update_sr_flip_flop nodes all_nodes
    else if String.eqb t "TriState" then update_tristate nodes all_nodes
    else if String.eqb t "XorGate" then update_xor_gate nodes all_nodes
    else Ok all_nodes
  end.

(** ** Initialization *)

Definition element_nodes (e : element) : list nat :=
  flat_map (fun kv => match snd kv with One i => [i] | Many l => l end)
           (customData_nodes e).

(** The state of the initialization: the node store and the registry
    [element_by_node_index]. *)
Definition registry : Type := list (option element).

(** [element_by_node_index[i] = e] *)
Definition set_owner (e : element) (i : nat) (st : list node * registry)
  : outcome (list node * registry) :=
  if bool_decide (i < length (snd st))%nat
  then Done (fst st, <[i := Some e]> (snd st))
  else Raise IndexError st.

(** [all_nodes[i]['state'] = v] *)
Definition assign_state (i : nat) (v : option Z) (all_nodes : list node)
  : outcome (list node) :=
  if bool_decide (i < length all_nodes)%nat
  then Done (set_state i v all_nodes)
  else Raise IndexError all_nodes.

(** [all_nodes[nodes[k]]['state'] = v] *)
Definition seed (nodes : ports) (k : string) (v : Z) (st : list node * registry)
  : outcome (list node * registry) :=
  match port_one nodes k with
  | Err ex => Raise ex st
  | Ok i =>
    match assign_state i (Some v) (fst st) with
    | Done all_nodes => Done (all_nodes, snd st)
    | Raise ex all_nodes => Raise ex (all_nodes, snd st)
    end
  end.

Definition initialize_node_states (e : element) (st : list node * registry)
  : outcome (list node * registry) :=
  match objectType e with
  | None =>
    match scope_name e with
    | Err ex => Raise ex st
    | Ok name =>
      match for_each (inputNodes e) (set_owner e) st with
      | Done st1 =>
        for_each (outputNodes e)
          (fun output st2 =>
             match set_owner e output st2 with
             | Done st3 =>
               if negb (contains "Normally" name)
               then
                 match assign_state output (Some 0) (fst st3) with
                 | Done all_nodes => Done (all_nodes, snd st3)
                 | Raise ex all_nodes => Raise ex (all_nodes, snd st3)
                 end
               else Done st3
             | r => r
             end) st1
      | r => r
      end
    end
  | Some t =>
    match for_each (element_nodes e) (set_owner e) st with
    | Done st1 =>
      let nodes := customData_nodes e in
      if String.eqb t "Clock" || String.eqb t "Ground" then seed nodes "output1" 0 st1
      else if String.eqb t "Button" || String.eqb t "Input"
      then seed nodes "output1" (customData_values_state e) st1
      else if String.eqb t "Power" then seed nodes "output1" 1 st1
      else if String.eqb t "DflipFlop"
      then
        if String.eqb (labelDirection e) "UP"
        then seed nodes "qOutput" 1 st1
        else seed nodes "qOutput" 0 st1
      else if String.eqb t "NorGate" || String.eqb t "NotGate"
      then
        if String.eqb (labelDirection e) "UP" then seed nodes "output1" 1 st1
        else if String.eqb (labelDirection e) "DOWN" then seed nodes "output1" 0 st1
        else Done st1
      else Done st1
    | r => r
    end
  end.

(** ** Dependency graph *)

(** [find_successors(index, nodes, successors, visited)]; the state is
    the pair of the mutable arguments [successors] and [visited], and
    [limit] is the number of nested calls that the interpreter still
    allows, this one included. *)
Fixpoint find_successors (limit : nat) (nodes : list node) (index : nat)
    (st : list nat * list bool) : outcome (list nat * list bool) :=
  match limit with
  | O => Raise RecursionError st
  | S limit' =>
    if bool_decide (index < length (snd st))%nat
    then
      match nodes !! index with
      | None => Raise IndexError (fst st, <[index := true]> (snd st))
      | Some n =>
        for_each (connections n)
          (fun successor_index st1 =>
             match snd st1 !! successor_index with
             | None => Raise IndexError st1
             | Some true => Done st1
             | Some false =>
               match nodes !! successor_index with
               | None => Raise IndexError st1
               | Some m =>
                 find_successors limit' nodes successor_index
                   (if Z.eqb (type m) OUTPUT_NODE
                    then fst st1
                    else set_add successor_index (fst st1),
                    snd st1)
               end
             end)
          (fst st, <[index := true]> (snd st))
      end
    else Raise IndexError st
  end.

(** The body of the first loop of [compute_node_states]: the successor
    set of the node [index]. *)
Definition successors_of (nodes : list node) (element_by_node_index : registry)
    (index : nat) : outcome (list nat) :=
  match nodes !! index with
  | None => Raise IndexError []
  | Some node =>
    if Z.eqb (type node) INPUT_NODE
    then
      match element_by_node_index !! index with
      | None => Raise IndexError []
      | Some None => Done []
      | Some (Some e) =>
        match objectType e with
        | None =>
          match scope_name e with
          | Err ex => Raise ex []
          | Ok name =>
            for_each (outputNodes e)
              (fun output successors =>
                 if contains "Normally" name
                 then Done (set_add output successors)
                 else Done successors) []
          end
        | Some _ =>
          for_each (element_nodes e)
            (fun n successors =>
               match nodes !! n with
               | None => Raise IndexError successors
               | Some m =>
                 if Z.eqb (type m) OUTPUT_NODE && negb (defined (state m))
                 then Done (set_add n successors)
                 else Done successors
               end) []
        end
      end
    else if Z.eqb (type node) OUTPUT_NODE
    then
      match find_successors recursion_limit nodes index
              ([], replicate (length nodes) false) with
      | Done st => Done (fst st)
      | Raise ex st => Raise ex (fst st)
      end
    else Done []
  end.

(** ** Topological order *)

(** [topological_sort(index, successors_by_node_index, sorted_nodes,
    node_status)]; the state is the pair of the mutable arguments
    [sorted_nodes] and [node_status], and [limit] is the number of
    nested calls that the interpreter still allows, this one included.
    A successor set is held as the list of its elements in iteration
    order (see [build_successors]). *)
Fixpoint topological_sort (limit : nat) (successors_by_node_index : list (list nat))
    (index : nat) (st : list nat * list nat) : outcome (list nat * list nat) :=
  match limit with
  | O => Raise RecursionError st
  | S limit' =>
    match snd st !! index with
    | None => Raise IndexError st
    | Some status =>
      if Nat.eqb status 2 then Done st
      else if Nat.eqb status 1 then Raise (Exception "Cyclic graph!") st
      else
        let st1 := (fst st, <[index := 1%nat]> (snd st)) in
        match successors_by_node_index !! index with
        | None => Raise IndexError st1
        | Some successors =>
          match for_each successors
                  (topological_sort limit' successors_by_node_index) st1 with
          | Done st2 => Done (fst st2 ++ [index], <[index := 2%nat]> (snd st2))
          | r => r
          end
        end
    end
  end.

(** The second loop of [compute_node_states], over [n] nodes. *)
Definition sort_nodes (successors_by_node_index : list (list nat)) (n : nat)
  : outcome (list nat * list nat) :=
  for_each (seq 0 n)
    (fun index st =>
       match snd st !! index with
       | Some O => topological_sort recursion_limit successors_by_node_index index st
       | Some _ => Done st
       | None => Raise IndexError st
       end)
    ([], replicate n 0%nat).

(** ** Propagation *)

(** [for successor_index in successors: nodes[successor_index]['state'] = state] *)
Definition flood (successors : list nat) (v : option Z) (nodes : list node)
  : outcome (list node) :=
  for_each successors (fun successor_index => assign_state successor_index v) nodes.

(** The body of the reverse pass. *)
Definition reverse_step (element_by_node_index : registry)
    (successors_by_node_index : list (list nat)) (index : nat) (nodes : list node)
  : outcome (list node) :=
  match nodes !! index with
  | None => Raise IndexError nodes
  | Some node =>
    if negb (Z.eqb (type node) OUTPUT_NODE) then Done nodes
    else
      match element_by_node_index !! index with
      | None => Raise IndexError nodes
      | Some element =>
        let evaluated :=
          match element with
          | Some e => if defined (state node) then Ok nodes else update_element e nodes
          | None => Ok nodes
          end in
        match evaluated with
        | Err ex => Raise ex nodes
        | Ok nodes1 =>
          match get_state nodes1 index with
          | Err ex => Raise ex nodes1
          | Ok None => Done nodes1
          | Ok (Some v) =>
            match successors_by_node_index !! index with
            | None => Raise IndexError nodes1
            | Some successors => flood successors (Some v) nodes1
            end
          end
        end
      end
  end.

(** The scan of the direct connections of a node: the first defined
    state of a neighbour. *)
Fixpoint adopt (nodes : list node) (conns : list nat) : res (option Z) :=
  match conns with
  | [] => Ok None
  | connection :: conns' =>
    do st <- get_state nodes connection;
    if defined st then Ok st else adopt nodes conns'
  end.

(** The body of the forward pass. *)
Definition forward_step (element_by_node_index : registry) (index : nat)
    (nodes : list node) : outcome (list node) :=
  match nodes !! index with
  | None => Raise IndexError nodes
  | Some node =>
    if defined (state node) then Done nodes
    else
      match adopt nodes (connections node) with
      | Err ex => Raise ex nodes
      | Ok st =>
        let nodes1 :=
          match st with
          | Some v => set_state index (Some v) nodes
          | None => nodes
          end in
        if Z.eqb (type node) OUTPUT_NODE
        then
          match element_by_node_index !! index with
          | None => Raise IndexError nodes1
          | Some None => Done nodes1
          | Some (Some e) =>
            match objectType e with
            | None => run nodes1 (maybe_update_subcircuit_input e nodes1)
            | Some _ => Done nodes1
            end
          end
        else Done nodes1
      end
  end.

Definition reverse_pass (element_by_node_index : registry)
    (successors_by_node_index : list (list nat)) (sorted_nodes : list nat)
    (nodes : list node) : outcome (list node) :=
  for_each (rev sorted_nodes)
    (reverse_step element_by_node_index successors_by_node_index) nodes.

Definition forward_pass (element_by_node_index : registry) (sorted_nodes : list nat)
    (nodes : list node) : outcome (list node) :=
  for_each sorted_nodes (forward_step element_by_node_index) nodes.

(** The first loop of [compute_node_states].  The set built for a node
    is held as the list of its elements in the order in which the sort
    and the flooding loop iterate over it: a set that is not modified is
    iterated in the same order every time. *)
Definition build_successors (nodes : list node) (element_by_node_index : registry)
  : outcome (list (list nat)) :=
  collect
    (fun index =>
       match successors_of nodes element_by_node_index index with
       | Done successors => Done (set_iter successors)
       | Raise ex successors => Raise ex successors
       end)
    (seq 0 (length nodes)).

Definition compute_node_states (nodes : list node) (element_by_node_index : registry)
  : outcome (list node) :=
  match build_successors nodes element_by_node_index with
  | Raise ex _ => Raise ex nodes
  | Done successors_by_node_index =>
    match sort_nodes successors_by_node_index (length nodes) with
    | Raise ex _ => Raise ex nodes
    | Done st =>
      match reverse_pass element_by_node_index successors_by_node_index (fst st) nodes with
      | Done nodes1 => forward_pass element_by_node_index (fst st) nodes1
      | r => r
      end
    end
  end.

(** The resolution as [main] runs it: every supported element is
    initialized against an empty registry, then the states are
    computed. *)
Definition initialize_all (elements : list element) (nodes : list node)
  : outcome (list node * registry) :=
  for_each elements initialize_node_states (nodes, replicate (length nodes) None).

Definition resolve (elements : list element) (nodes : list node) : outcome (list node) :=
  match initialize_all elements nodes with
  | Done st => compute_node_states (fst st) (snd st)
  | Raise ex st => Raise ex (fst st)
  end.

End Resolution.

(** ** Vocabulary of the specification *)

(** The three signal values of the specification and their encoding in
    the ['state'] entry of a node. *)
Inductive tri : Type := Low | High | Unknown.

Definition tri_state (t : tri) : option Z :=
  match t with
  | Low => Some 0
  | High => Some 1
  | Unknown => None
  end.

Definition known (t : tri) : bool :=
  match t with Unknown => false | _ => true end.

Definition high (t : tri) : bool :=
  match t with High => true | _ => false end.

(** The node [i] exists and carries the state [v]. *)
Definition has_state (all_nodes : list node) (i : nat) (v : option Z) : Prop :=
  state <$> all_nodes !! i = Some v.

(** A gate output: assigned [High] or [Low] according to [h] when
    [assigned] holds, left as it is otherwise. *)
Definition drive (output : nat) (assigned h : bool) (all_nodes : list node)
  : list node :=
  if assigned
  then set_state output (Some (if h then 1 else 0)) all_nodes
  else all_nodes.

(** ** Example stores and gates *)

(** Four nodes: a High input, an Unknown input, a Low input and an
    output still Unknown. *)
Definition gate_store : list node :=
  [ Node INPUT_NODE (Some 1) []; Node INPUT_NODE None [];
    Node INPUT_NODE (Some 0) []; Node OUTPUT_NODE None [] ].

Definition gate2 : ports := [("inp", Many [0; 1]%nat); ("output1", One 3)].
Definition gate3 : ports := [("inp", Many [0; 1; 2]%nat); ("output1", One 3)].
Definition gate1 : ports := [("inp1", One 0); ("output1", One 3)].
Definition gate0 : ports := [("inp", Many [0%nat]); ("output1", One 3)].

(** A multiplexer whose control is Low, whose input 0 is Unknown and
    whose input 1 is High. *)
Definition mux_store : list node :=
  [ Node INPUT_NODE None []; Node INPUT_NODE (Some 1) [];
    Node INPUT_NODE (Some 0) []; Node OUTPUT_NODE None [] ].

Definition mux_ports : ports :=
  [("inp", Many [0; 1]%nat); ("controlSignalInput", One 2); ("output1", One 3)].

(** A demultiplexer: data input, control, and two outputs. *)
Definition demux_store (i c : option Z) : list node :=
  [ Node INPUT_NODE i []; Node INPUT_NODE c [];
    Node OUTPUT_NODE None []; Node OUTPUT_NODE None [] ].

Definition demux_ports : ports :=
  [("input", One 0); ("controlSignalInput", One 1); ("output1", Many [2; 3]%nat)].

(** An SR latch with S and R High. *)
Definition latch_store : list node :=
  [ Node INPUT_NODE (Some 1) []; Node INPUT_NODE (Some 1) [];
    Node OUTPUT_NODE None [] ].

(** The same latch with S Unknown, R High and the output seeded High. *)
Definition latch_idle : list node :=
  [ Node INPUT_NODE None []; Node INPUT_NODE (Some 1) [];
    Node OUTPUT_NODE (Some 1) [] ].

Definition latch_ports : ports := [("S", One 0); ("R", One 1); ("qOutput", One 2)].

(** ** Graphs *)

(** [b] is a successor of [a]. *)
Definition edge (G : list (list nat)) (a b : nat) : Prop :=
  exists successors, G !! a = Some successors /\ b ∈ successors.

(** Some node reaches itself through at least one edge. *)
Definition cyclic (G : list (list nat)) : Prop :=
  exists x, tc (edge G) x x.

(** Every successor is the index of a node. *)
Definition closed_graph (G : list (list nat)) : Prop :=
  forall a b, edge G a b -> (b < length G)%nat.

(** [a] occurs at an earlier position than [b]. *)
Definition precedes (l : list nat) (a b : nat) : Prop :=
  exists i j, l !! i = Some a /\ l !! j = Some b /\ (i < j)%nat.

(** The number of nodes of status 0 (not yet visited). *)
Fixpoint whites (node_status : list nat) : nat :=
  match node_status with
  | [] => 0
  | x :: l => (if Nat.eqb x 0 then 1 else 0) + whites l
  end.

(** The invariant of the topological sort: [sorted_nodes] lists,
    without repetition, the nodes of status 2, and every successor of a
    listed node is listed at an earlier position. *)
Record sort_inv (G : list (list nat)) (st : list nat * list nat) : Prop := {
  inv_length : length (snd st) = length G;
  inv_status : forall x v, snd st !! x = Some v -> (v <= 2)%nat;
  inv_black : forall x, snd st !! x = Some 2%nat <-> x ∈ fst st;
  inv_nodup : NoDup (fst st);
  inv_order : forall i x y, fst st !! i = Some x -> edge G x y ->
                exists j, (j < i)%nat /\ fst st !! j = Some y
}.

(** What a call of the sort on the nodes [targets] achieves from the
    state [st], with [limit] nested calls allowed: it returns with every
    target finished and the nodes in progress unchanged; or it raises
    the cycle error, and then the graph is cyclic or a target reaches a
    node in progress; or it raises [IndexError], and then a target or a
    successor is not a node; or it raises [RecursionError], and then
    the limit is not above the number of nodes not yet visited. *)
Definition sort_post (limit : nat) (G : list (list nat)) (st : list nat * list nat)
    (targets : list nat) (r : outcome (list nat * list nat)) : Prop :=
  match r with
  | Done st' =>
    sort_inv G st'
    /\ (forall x, snd st' !! x = Some 1%nat <-> snd st !! x = Some 1%nat)
    /\ (forall x, snd st !! x = Some 2%nat -> snd st' !! x = Some 2%nat)
    /\ (forall t, t ∈ targets -> snd st' !! t = Some 2%nat)
    /\ (whites (snd st') <= whites (snd st))%nat
  | Raise e _ =>
    (e = Exception "Cyclic graph!"
     /\ (cyclic G
         \/ exists t g, t ∈ targets /\ snd st !! g = Some 1%nat /\ rtc (edge G) t g))
    \/ (e = IndexError
        /\ (~ closed_graph G \/ exists t, t ∈ targets /\ (length G <= t)%nat))
    \/ (e = RecursionError /\ (limit <= whites (snd st))%nat)
  end.

(** An iteration order of the sets: the elements in iteration order
    are the elements in insertion order, permuted. *)
Definition iteration_order (set_iter : list nat -> list nat) : Prop :=
  forall s, set_iter s ≡ₚ s.

Definition chain_graph : list (list nat) := [[1%nat]; [2%nat]; []].


(** ** Frames *)

(** The immutable part of the store: the types and the wires. *)
Definition shape (s : list node) : list (Z * list nat) :=
  map (fun n => (type n, connections n)) s.

(** [s'] is [s] with new states at some of the nodes of [W]. *)
Definition modifies (W : list nat) (s s' : list node) : Prop :=
  shape s' = shape s /\ forall i, i ∉ W -> s' !! i = s !! i.

(** The node indices listed under the key [k] of a port dictionary. *)
Definition port_indices (nodes : ports) (k : string) : list nat :=
  match lookup_key k nodes with
  | Some (One i) => [i]
  | Some (Many l) => l
  | None => []
  end.

(** [b] is directly wired to [a]. *)
Definition wire (nodes : list node) (a b : nat) : Prop :=
  exists n, nodes !! a = Some n /\ b ∈ connections n.

(** The node [i] exists and is an output of a component. *)
Definition is_output (nodes : list node) (i : nat) : Prop :=
  exists n, nodes !! i = Some n /\ type n = OUTPUT_NODE.

(** The number of nodes not yet visited by [find_successors]. *)
Fixpoint unvisited (visited : list bool) : nat :=
  match visited with
  | [] => 0
  | b :: l => (if b then 0 else 1) + unvisited l
  end.

(** What a walk of [find_successors] achieves for the nesting of its
    calls: it returns with at most [bound] nodes left to visit, or
    raises an exception other than [RecursionError]. *)
Definition walk_depth_post (bound : nat) (r : outcome (list nat * list bool)) : Prop :=
  match r with
  | Done st' => (unvisited (snd st') <= bound)%nat
  | Raise e _ => e <> RecursionError
  end.

(** What a walk of [find_successors] from the state [st] to the state
    [st'] achieves for the nodes [targets]: the targets are visited;
    every node visited by the walk is reached from a target through
    wires, and all the nodes wired to it are visited; the successors
    gain exactly the newly visited nodes, outside [roots], that are not
    component outputs. *)
Record walk_post (nodes : list node) (targets roots : list nat)
    (st st' : list nat * list bool) : Prop := {
  walk_length : length (snd st') = length (snd st);
  walk_mono : forall x, snd st !! x = Some true -> snd st' !! x = Some true;
  walk_targets : forall t, t ∈ targets -> snd st' !! t = Some true;
  walk_reach : forall x, snd st' !! x = Some true -> snd st !! x <> Some true ->
                 exists t, t ∈ targets /\ rtc (wire nodes) t x;
  walk_closed : forall x, snd st' !! x = Some true -> snd st !! x <> Some true ->
                  forall y, wire nodes x y -> snd st' !! y = Some true;
  walk_successors : forall x,
      x ∈ fst st' <->
      (x ∈ fst st \/ (snd st' !! x = Some true /\ snd st !! x <> Some true
                      /\ (x ∉ roots) /\ ~ is_output nodes x))
}.

(** The largest number of inputs that the evaluator of a gate accepts. *)
Definition max_inputs (t : string) : option nat :=
  if String.eqb t "OrGate" then Some 3%nat
  else if String.eqb t "AndGate" || String.eqb t "NandGate" || String.eqb t "NorGate"
          || String.eqb t "XorGate" || String.eqb t "Multiplexer"
  then Some 2%nat
  else None.

(** ** Example netlists *)

(** A component other than a sub-circuit. *)
Definition component (t : string) (nodes : ports) (direction : string) : element :=
  Element (Some t) "" [] [] nodes 0 direction.

(** An instance of the sub-circuit of identifier [i]. *)
Definition subcircuit (i : string) (inputs outputs : list nat) : element :=
  Element None i inputs outputs [] 0 "RIGHT".

(** A NOT gate whose output (node 1) is wired back to its input (node 0). *)
Definition loop_nodes : list node :=
  [ Node INPUT_NODE None [1%nat]; Node OUTPUT_NODE None [0%nat] ].

Definition loop_not (direction : string) : element :=
  component "NotGate" [("inp1", One 0); ("output1", One 1)] direction.

(** The same loop through a junction (node 2). *)
Definition junction_loop_nodes : list node :=
  [ Node INPUT_NODE None [2%nat]; Node OUTPUT_NODE None [2%nat];
    Node 2 None [0%nat; 1%nat] ].

(** A power source (node 0) wired to the first input (node 1) of an AND
    gate with three inputs (nodes 1, 2, 3) and output node 4. *)
Definition and3_nodes : list node :=
  [ Node OUTPUT_NODE None [1%nat]; Node INPUT_NODE None [0%nat];
    Node INPUT_NODE None []; Node INPUT_NODE None []; Node OUTPUT_NODE None [] ].

Definition and3_gate : element :=
  component "AndGate" [("inp", Many [1; 2; 3]%nat); ("output1", One 4)] "RIGHT".

Definition and3_elements : list element :=
  [ component "Power" [("output1", One 0)] "RIGHT"; and3_gate ].

(** A power source (node 0) and a ground (node 1) wired to the same
    junction (node 2). *)
Definition short_nodes : list node :=
  [ Node OUTPUT_NODE None [2%nat]; Node OUTPUT_NODE None [2%nat];
    Node 2 None [0%nat; 1%nat] ].

Definition short_elements : list element :=
  [ component "Power" [("output1", One 0)] "RIGHT";
    component "Ground" [("output1", One 1)] "RIGHT" ].

(** A normally-open relay driven from its output side.  The relay has
    the signal input 2, the coil 6 and the output 1; the output is wired
    to a power source (node 0) and the coil to another (node 7).  The
    signal input is on the net of the output (node 3) of a NOT gate
    whose input (node 5) is not connected; node 4 is a junction of that
    net. *)
Definition relay_names : list (string * string) := [("7", "NormallyOpen")].

Definition relay_nodes : list node :=
  [ Node OUTPUT_NODE None [1%nat]; Node OUTPUT_NODE None [0%nat];
    Node INPUT_NODE None [3%nat]; Node OUTPUT_NODE None [2%nat; 4%nat];
    Node 2 None [3%nat]; Node INPUT_NODE None [];
    Node INPUT_NODE None [7%nat]; Node OUTPUT_NODE None [6%nat] ].

Definition relay_elements : list element :=
  [ component "Power" [("output1", One 0)] "RIGHT";
    component "Power" [("output1", One 7)] "RIGHT";
    component "NotGate" [("inp1", One 5); ("output1", One 3)] "RIGHT";
    subcircuit "7" [2%nat; 6%nat] [1%nat] ].

(** A seeded power source (node 0) wired through a junction (node 1) to
    the input (node 2) of a NOT gate, whose output (node 3) is wired to
    a junction (node 4). *)
Definition powered_nodes : list node :=
  [ Node OUTPUT_NODE (Some 1) [1%nat]; Node 2 None [0%nat; 2%nat];
    Node INPUT_NODE None [1%nat]; Node OUTPUT_NODE None [4%nat];
    Node 2 None [3%nat] ].

Definition powered_not : element :=
  component "NotGate" [("inp1", One 2); ("output1", One 3)] "RIGHT".

Definition powered_registry : registry :=
  [ Some (component "Power" [("output1", One 0)] "RIGHT"); None;
    Some powered_not; Some powered_not; None ].

(** The short circuit after the seeding. *)
Definition short_seeded : list node :=
  [ Node OUTPUT_NODE (Some 1) [2%nat]; Node OUTPUT_NODE (Some 0) [2%nat];
    Node 2 None [0%nat; 1%nat] ].

(** The short circuit after resolution, and its registry. *)
Definition short_final : list node :=
  [ Node OUTPUT_NODE (Some 1) [2%nat]; Node OUTPUT_NODE (Some 0) [2%nat];
    Node 2 (Some 1) [0%nat; 1%nat] ].

Definition short_registry : registry :=
  [ Some (component "Power" [("output1", One 0)] "RIGHT");
    Some (component "Ground" [("output1", One 1)] "RIGHT"); None ].

(** The AND gate with three inputs once its first input is flooded. *)
Definition and3_flooded : list node :=
  [ Node OUTPUT_NODE (Some 1) [1%nat]; Node INPUT_NODE (Some 1) [0%nat];
    Node INPUT_NODE None []; Node INPUT_NODE None []; Node OUTPUT_NODE None [] ].

Definition and3_registry : registry :=
  [ Some (component "Power" [("output1", One 0)] "RIGHT");
    Some and3_gate; Some and3_gate; Some and3_gate; Some and3_gate ].

(** A computation that does not raise [Exception]. *)
Definition no_exception {A : Type} (r : outcome A) : Prop :=
  forall msg a, r <> Raise (Exception msg) a.

(** The loop of the NOT gate after the seeding, with its registry and
    its successor sets. *)
Definition loop_seeded : list node :=
  [ Node INPUT_NODE None [1%nat]; Node OUTPUT_NODE (Some 1) [0%nat] ].

Definition loop_registry : registry := [ Some (loop_not "UP"); Some (loop_not "UP") ].

Definition loop_graph : list (list nat) := [ []; [0%nat] ].

(** ** Vocabulary for the relays, the registry and the walks *)

(** A relay of sub-circuit name [name] conducts under the coil state
    [c]: a normally-closed one unless the coil is at 1, any other one
    when the coil is at 1. *)
Definition conducts (name : string) (c : option Z) : bool :=
  if contains "NormallyClosed" name then negb (state_is 1 c) else state_is 1 c.

(** The nodes that the evaluator of a component can assign. *)
Definition evaluator_outputs (e : element) : list nat :=
  match objectType e with
  | None => take 1 (outputNodes e)
  | Some _ =>
    port_indices (customData_nodes e) "output1"
    ++ port_indices (customData_nodes e) "qOutput"
  end.

(** The component types that have an evaluator. *)
Definition evaluated_types : list string :=
  [ "AndGate"; "Demultiplexer"; "Multiplexer"; "NandGate"; "NorGate"; "NotGate";
    "OrGate"; "SRflipFlop"; "TriState"; "XorGate" ].

(** The nodes that the initialization registers for a component. *)
Definition ports_of (e : element) : list nat :=
  match objectType e with
  | None => inputNodes e ++ outputNodes e
  | Some _ => element_nodes e
  end.

(** The nodes that the initialization can seed. *)
Definition seeded_ports (e : element) : list nat :=
  match objectType e with
  | None => outputNodes e
  | Some _ =>
    port_indices (customData_nodes e) "output1"
    ++ port_indices (customData_nodes e) "qOutput"
  end.

(** [element_by_node_index[i] = e] for every [i] of [l], in order. *)
Definition register (e : element) (l : list nat) (r : registry) : registry :=
  foldl (fun r i => <[i := Some e]> r) r l.

(** Every connection of every node is the index of a node. *)
Definition closed_wires (nodes : list node) : Prop :=
  forall a b, wire nodes a b -> (b < length nodes)%nat.

(** A tri-state buffer: input 0, enable 1, output 2. *)
Definition buffer_ports : ports :=
  [("inp1", One 0); ("state", One 1); ("output1", One 2)].

Definition buffer_store (i c o : option Z) : list node :=
  [ Node INPUT_NODE i []; Node INPUT_NODE c []; Node OUTPUT_NODE o [] ].

(** A relay: signal input 0, coil 1, output 2. *)
Definition relay_instance : element := subcircuit "7" [0; 1]%nat [2%nat].

Definition relay_store (i c o : option Z) : list node :=
  [ Node INPUT_NODE i []; Node INPUT_NODE c []; Node OUTPUT_NODE o [] ].

(** The states of [s'] are those of [s] except at nodes of [W], which
    have been assigned defined values: nothing is erased. *)
Definition seeds_only (W : list nat) (s s' : list node) : Prop :=
  modifies W s s'
  /\ forall i v, has_state s i (Some v) -> exists w, has_state s' i (Some w).

(** A power source of output node 0, and a store and registry of two
    nodes. *)
Definition power_source : element := component "Power" [("output1", One 0)] "RIGHT".

Definition two_nodes : list node :=
  [ Node OUTPUT_NODE None [1%nat]; Node 2 None [0%nat] ].

(** A gate that lists a node outside the store. *)
Definition stray_gate : element :=
  component "AndGate" [("inp", Many [1; 5]%nat); ("output1", One 0)] "RIGHT".

(** The component types whose output the initialization can seed. *)
Definition seeded_types : list string :=
  [ "Clock"; "Ground"; "Button"; "Input"; "Power"; "DflipFlop"; "NorGate"; "NotGate" ].

(** A star: output node 0 wired to the junctions 1 and 2, which are
    wired back to it and to the output node 3. *)
Definition star_nodes : list node :=
  [ Node OUTPUT_NODE None [1; 2]%nat; Node 2 None [0; 3]%nat;
    Node INPUT_NODE None [0%nat]; Node OUTPUT_NODE None [1%nat] ].

(** An outcome whose store, returned or left at the raise, has the
    types and the wires of [s]. *)
Definition kept_shape (s : list node) (r : outcome (list node)) : Prop :=
  match r with
  | Done s' | Raise _ s' => shape s' = shape s
  end.

(** A node with three connections: an Unknown neighbour, a High one
    and a connection outside the store. *)
Definition adopt_store : list node :=
  [ Node 2 None [1; 2; 9]%nat; Node 2 None []; Node 2 (Some 1) [] ].

(** The AND gate with three inputs after the seeding of the power
    source. *)
Definition and3_seeded : list node :=
  [ Node OUTPUT_NODE (Some 1) [1%nat]; Node INPUT_NODE None [0%nat];
    Node INPUT_NODE None []; Node INPUT_NODE None []; Node OUTPUT_NODE None [] ].

(** The invariant of the initialization of a netlist: the store has
    the types and the wires of [nodes], the registry has one entry per
    node, and every owner is a component of [elements] that lists the
    node among its ports, all of which are nodes. *)
Definition registry_inv (elements : list element) (nodes : list node)
    (st : list node * registry) : Prop :=
  shape (fst st) = shape nodes
  /\ length (snd st) = length nodes
  /\ forall k e, snd st !! k = Some (Some e) ->
       e ∈ elements /\ k ∈ ports_of e
       /\ Forall (fun i => i < length nodes)%nat (ports_of e).

(** The messages of the arity checks of the evaluators. *)
Definition unsupported_messages : list string :=
  [ "Unsupported and gate (>2 inputs)"; "Unsupported multiplexer (>2 inputs)";
    "Unsupported nand gate (>2 inputs)"; "Unsupported nor gate (>2 inputs)";
    "Unsupported or gate (>3 inputs)"; "Unsupported xor gate (>2 inputs)" ].

(** The nodes that the evaluator of a component reads. *)
Definition evaluator_inputs (e : element) : list nat :=
  match objectType e with
  | None => take 2 (inputNodes e)
  | Some _ =>
    port_indices (customData_nodes e) "inp"
    ++ port_indices (customData_nodes e) "inp1"
    ++ port_indices (customData_nodes e) "input"
    ++ port_indices (customData_nodes e) "controlSignalInput"
    ++ port_indices (customData_nodes e) "S"
    ++ port_indices (customData_nodes e) "state"
  end.

(** ** Well-formed netlists and the course of the passes *)

(** The node [i] exists and is an input of a component. *)
Definition is_input (nodes : list node) (i : nat) : Prop :=
  exists n, nodes !! i = Some n /\ type n = INPUT_NODE.

(** The component has an evaluator: it is a sub-circuit, or a component
    of one of the evaluated types. *)
Definition has_evaluator (e : element) : Prop :=
  match objectType e with
  | None => True
  | Some t => t ∈ evaluated_types
  end.

(** The output [k], Unknown in [nodes], is registered for the component
    [e], which has an evaluator: the reverse pass evaluates [e] when it
    visits [k], unless an earlier evaluation of [e] has resolved [k]. *)
Definition pending (nodes : list node) (element_by_node_index : registry)
    (k : nat) (e : element) : Prop :=
  is_output nodes k /\ has_state nodes k None
  /\ element_by_node_index !! k = Some (Some e) /\ has_evaluator e.

(** The nodes among which the first loop of [compute_node_states] takes
    the successors of an input of the component. *)
Definition listed_outputs (e : element) : list nat :=
  match objectType e with
  | None => outputNodes e
  | Some _ => element_nodes e
  end.

(** A store and a registry in which the ports of every component that
    the reverse pass may evaluate are its own.  For such a component,
    every node that its evaluator assigns is an output registered for
    it and not seeded; every node that its evaluator reads is an input
    registered for it; the component lists the outputs registered for
    it; and, if it is a sub-circuit, it is a relay. *)
Record well_formed (names : list (string * string)) (nodes : list node)
    (element_by_node_index : registry) : Prop := {
  wf_outputs : forall k e o,
    pending nodes element_by_node_index k e -> o ∈ evaluator_outputs e ->
    is_output nodes o /\ has_state nodes o None
    /\ element_by_node_index !! o = Some (Some e);
  wf_inputs : forall k e p,
    pending nodes element_by_node_index k e -> p ∈ evaluator_inputs e ->
    is_input nodes p /\ element_by_node_index !! p = Some (Some e);
  wf_listed : forall k e,
    pending nodes element_by_node_index k e -> k ∈ listed_outputs e;
  wf_relay : forall k e,
    pending nodes element_by_node_index k e -> objectType e = None ->
    exists name, lookup_key (id e) names = Some name
                 /\ contains "Normally" name = true
}.

(** Only component outputs are seeded. *)
Definition seeded_outputs (nodes : list node) : Prop :=
  forall x v, has_state nodes x (Some v) -> is_output nodes x.

(** No two component outputs that reach a common node other than a
    component output through wires are resolved to different states in
    the store [s]. *)
Definition no_contention (nodes s : list node) : Prop :=
  forall D1 D2 X v1 v2,
    is_output nodes D1 -> is_output nodes D2 -> ~ is_output nodes X ->
    rtc (wire nodes) D1 X -> rtc (wire nodes) D2 X ->
    has_state s D1 (Some v1) -> has_state s D2 (Some v2) -> v1 = v2.

(** The invariant of the reverse pass, on the store [s] reached when
    the evaluation step has been done at the nodes [evaluated] and the
    flooding step at the nodes [flooded].  The types and the wires are
    those of [nodes]; the seeded outputs have kept their state; every
    component evaluated so far is stable (evaluating it again changes
    nothing); an output whose node has changed belongs to a component
    evaluated so far; every successor of a resolved output visited so
    far carries the state of such an output; and so does every other
    node that is resolved without having been seeded. *)
Record reverse_inv (names : list (string * string)) (nodes : list node)
    (element_by_node_index : registry) (G : list (list nat))
    (evaluated flooded : list nat) (s : list node) : Prop := {
  rinv_shape : shape s = shape nodes;
  rinv_seeded : forall o v,
    is_output nodes o -> has_state nodes o (Some v) -> has_state s o (Some v);
  rinv_evaluated : forall k e,
    k ∈ evaluated -> pending nodes element_by_node_index k e ->
    update_element names e s = Ok s;
  rinv_untouched : forall o,
    is_output nodes o ->
    s !! o = nodes !! o
    \/ exists k e, k ∈ evaluated /\ pending nodes element_by_node_index k e
                   /\ element_by_node_index !! o = Some (Some e);
  rinv_flooded : forall d x v,
    d ∈ flooded -> is_output nodes d -> has_state s d (Some v) -> edge G d x ->
    exists d' w, d' ∈ flooded /\ is_output nodes d' /\ edge G d' x
                 /\ has_state s d' (Some w) /\ has_state s x (Some w);
  rinv_source : forall x v,
    ~ is_output nodes x -> has_state s x (Some v) ->
    has_state nodes x (Some v)
    \/ exists d, d ∈ flooded /\ is_output nodes d /\ edge G d x
                 /\ has_state s d (Some v)
}.

(** The invariant of the forward pass, on the store [s] reached when
    the nodes [visited] have been visited: the types and the wires are
    those of [nodes]; the seeded outputs have kept their state; and
    every relay none of whose inputs has been visited is stable. *)
Record forward_inv (names : list (string * string)) (nodes : list node)
    (element_by_node_index : registry) (visited : list nat) (s : list node)
  : Prop := {
  finv_shape : shape s = shape nodes;
  finv_seeded : forall o v,
    is_output nodes o -> has_state nodes o (Some v) -> has_state s o (Some v);
  finv_relay : forall k e,
    pending nodes element_by_node_index k e -> objectType e = None ->
    (forall p, p ∈ evaluator_inputs e -> p ∉ visited) ->
    update_element names e s = Ok s
}.

(** The relay of [relay_nodes] after the seeding, with its registry. *)
Definition relay_seeded : list node :=
  [ Node OUTPUT_NODE (Some 1) [1%nat]; Node OUTPUT_NODE None [0%nat];
    Node INPUT_NODE None [3%nat]; Node OUTPUT_NODE None [2%nat; 4%nat];
    Node 2 None [3%nat]; Node INPUT_NODE None [];
    Node INPUT_NODE None [7%nat]; Node OUTPUT_NODE (Some 1) [6%nat] ].

Definition relay_registry : registry :=
  [ Some (component "Power" [("output1", One 0)] "RIGHT");
    Some (subcircuit "7" [2%nat; 6%nat] [1%nat]);
    Some (subcircuit "7" [2%nat; 6%nat] [1%nat]);
    Some (component "NotGate" [("inp1", One 5); ("output1", One 3)] "RIGHT");
    None;
    Some (component "NotGate" [("inp1", One 5); ("output1", One 3)] "RIGHT");
    Some (subcircuit "7" [2%nat; 6%nat] [1%nat]);
    Some (component "Power" [("output1", One 7)] "RIGHT") ].






(** * Properties of the gate evaluators *)

Lemma length_set_state i v (s : list node) : length (set_state i v s) = length s.
Proof. unfold set_state. apply length_alter. Qed.

Lemma has_state_set_eq (s : list node) i v :
  (i < length s)%nat -> has_state (set_state i v s) i v.
Proof.
  intros Hi. unfold has_state, set_state.
  destruct (lookup_lt_is_Some_2 s i Hi) as [n Hn].
  rewrite list_lookup_alter_eq, Hn. reflexivity.
Qed.

Lemma lookup_set_state_ne (s : list node) i j v :
  i <> j -> set_state i v s !! j = s !! j.
Proof. intros Hij. unfold set_state. by apply list_lookup_alter_ne. Qed.

Lemma has_state_set_ne (s : list node) i j v w :
  i <> j -> has_state s j w -> has_state (set_state i v s) j w.
Proof. intros Hij Hj. unfold has_state. by rewrite lookup_set_state_ne. Qed.

Lemma get_state_has_state (s : list node) i v :
  has_state s i v -> get_state s i = Ok v.
Proof.
  unfold has_state, get_state, get_node. intros H.
  destruct (s !! i) as [n|]; simpl in *; congruence.
Qed.

Lemma get_node_in_range (s : list node) i :
  (i < length s)%nat -> exists n, get_node s i = Ok n.
Proof.
  intros Hi. destruct (lookup_lt_is_Some_2 s i Hi) as [n Hn].
  exists n. unfold get_node. by rewrite Hn.
Qed.

Lemma node_of_in_range nodes (s : list node) k o :
  lookup_key k nodes = Some (One o) -> (o < length s)%nat ->
  node_of nodes s k = Ok o.
Proof.
  intros Hk Ho. unfold node_of, port_one. rewrite Hk. simpl.
  destruct (get_node_in_range s o Ho) as [n ->]. reflexivity.
Qed.

Lemma state_at_has_state nodes (s : list node) k l j i v :
  lookup_key k nodes = Some (Many l) -> l !! j = Some i -> has_state s i v ->
  state_at nodes s k j = Ok v.
Proof.
  intros Hk Hj Hv. unfold state_at, port_at, port_many. rewrite Hk. simpl.
  rewrite Hj. by apply get_state_has_state.
Qed.

Lemma state_of_port nodes (s : list node) k i v :
  lookup_key k nodes = Some (One i) -> has_state s i v ->
  (do ix <- port_one nodes k; get_state s ix) = Ok v.
Proof.
  intros Hk Hv. unfold port_one. rewrite Hk. simpl. by apply get_state_has_state.
Qed.

Lemma check_arity_ok nodes l n msg :
  lookup_key "inp" nodes = Some (Many l) -> length l = n ->
  check_arity nodes n msg = Ok tt.
Proof.
  intros Hk Hl. unfold check_arity, port_many. rewrite Hk. simpl.
  by rewrite Hl, Nat.eqb_refl.
Qed.

(** ** Truth tables of the basic gates *)

Section GateTables.

Variable all_nodes : list node.
Variables ia ib ic o : nat.
Variables a b c : tri.
Hypothesis state_a : has_state all_nodes ia (tri_state a).
Hypothesis state_b : has_state all_nodes ib (tri_state b).
Hypothesis state_c : has_state all_nodes ic (tri_state c).
Hypothesis output_in_range : (o < length all_nodes)%nat.

Section TwoInputs.

Variable nodes : ports.
Hypothesis inp : lookup_key "inp" nodes = Some (Many [ia; ib]).
Hypothesis output1 : lookup_key "output1" nodes = Some (One o).

Ltac two_inputs :=
  rewrite (state_at_has_state nodes all_nodes "inp" [ia; ib] 0 ia (tri_state a))
    by (assumption || reflexivity);
  rewrite (state_at_has_state nodes all_nodes "inp" [ia; ib] 1 ib (tri_state b))
    by (assumption || reflexivity);
  cbn [rbind];
  try (rewrite (check_arity_ok nodes [ia; ib] 2) by (assumption || reflexivity);
       cbn [rbind]);
  rewrite (node_of_in_range nodes all_nodes "output1" o) by assumption;
  cbn [rbind];
  destruct a, b; reflexivity.

Lemma and_gate_table :
  update_and_gate nodes all_nodes
  = Ok (drive o (known a || known b) (high a && high b) all_nodes).
Proof. unfold update_and_gate. two_inputs. Qed.

Lemma nand_gate_table :
  update_nand_gate nodes all_nodes
  = Ok (drive o (known a || known b) (negb (high a && high b)) all_nodes).
Proof. unfold update_nand_gate. two_inputs. Qed.

Lemma nor_gate_table :
  update_nor_gate nodes all_nodes
  = Ok (drive o (known a || known b) (negb (high a || high b)) all_nodes).
Proof. unfold update_nor_gate. two_inputs. Qed.

Lemma xor_gate_table :
  update_xor_gate nodes all_nodes
  = Ok (drive o (known a || known b) (xorb (high a) (high b)) all_nodes).
Proof. unfold update_xor_gate. two_inputs. Qed.

Lemma or_gate_table :
  update_or_gate nodes all_nodes
  = Ok (drive o (known a || known b) (high a || high b) all_nodes).
Proof.
  unfold update_or_gate.
  rewrite (state_at_has_state nodes all_nodes "inp" [ia; ib] 0 ia (tri_state a))
    by (assumption || reflexivity).
  rewrite (state_at_has_state nodes all_nodes "inp" [ia; ib] 1 ib (tri_state b))
    by (assumption || reflexivity).
  unfold port_many at 1. rewrite inp. cbn [rbind length Nat.eqb].
  rewrite (check_arity_ok nodes [ia; ib] 2) by (assumption || reflexivity).
  rewrite (node_of_in_range nodes all_nodes "output1" o) by assumption.
  cbn [rbind]. destruct a, b; reflexivity.
Qed.

End TwoInputs.

Lemma or3_gate_table nodes :
  lookup_key "inp" nodes = Some (Many [ia; ib; ic]) ->
  lookup_key "output1" nodes = Some (One o) ->
  update_or_gate nodes all_nodes
  = Ok (drive o (known a || known b || known c) (high a || high b || high c) all_nodes).
Proof.
  intros inp output1. unfold update_or_gate.
  rewrite (state_at_has_state nodes all_nodes "inp" [ia; ib; ic] 0 ia (tri_state a))
    by (assumption || reflexivity).
  rewrite (state_at_has_state nodes all_nodes "inp" [ia; ib; ic] 1 ib (tri_state b))
    by (assumption || reflexivity).
  unfold port_many at 1. rewrite inp. cbn [rbind length Nat.eqb].
  rewrite (state_at_has_state nodes all_nodes "inp" [ia; ib; ic] 2 ic (tri_state c))
    by (assumption || reflexivity).
  rewrite (node_of_in_range nodes all_nodes "output1" o) by assumption.
  cbn [rbind]. destruct a, b, c; reflexivity.
Qed.

Lemma not_gate_table nodes :
  lookup_key "inp1" nodes = Some (One ia) ->
  lookup_key "output1" nodes = Some (One o) ->
  update_not_gate nodes all_nodes = Ok (drive o (known a) (negb (high a)) all_nodes).
Proof.
  intros inp1 output1. unfold update_not_gate.
  rewrite (state_of_port nodes all_nodes "inp1" ia (tri_state a)) by assumption.
  rewrite (node_of_in_range nodes all_nodes "output1" o) by assumption.
  cbn [rbind]. destruct a; reflexivity.
Qed.

End GateTables.

(** C1. A basic gate assigns its output exactly when one of its inputs
    is defined, and the value assigned reads every Unknown input as Low:
    AND is High iff both inputs are High, NAND is its complement, OR (two
    or three inputs) is High iff some input is High, NOR is its
    complement, XOR is High iff exactly one input is High, NOT is
    assigned iff its input is defined and is the complement.  A
    two-input AND gate with one input High and the other Unknown gets
    the output Low. *)
Theorem gate_truth_tables (all_nodes : list node) (g2 g3 g1 : ports)
    (ia ib ic o : nat) (a b c : tri) :
  has_state all_nodes ia (tri_state a) ->
  has_state all_nodes ib (tri_state b) ->
  has_state all_nodes ic (tri_state c) ->
  (o < length all_nodes)%nat ->
  lookup_key "inp" g2 = Some (Many [ia; ib]) ->
  lookup_key "output1" g2 = Some (One o) ->
  lookup_key "inp" g3 = Some (Many [ia; ib; ic]) ->
  lookup_key "output1" g3 = Some (One o) ->
  lookup_key "inp1" g1 = Some (One ia) ->
  lookup_key "output1" g1 = Some (One o) ->
  update_and_gate g2 all_nodes
    = Ok (drive o (known a || known b) (high a && high b) all_nodes)
  /\ update_nand_gate g2 all_nodes
    = Ok (drive o (known a || known b) (negb (high a && high b)) all_nodes)
  /\ update_or_gate g2 all_nodes
    = Ok (drive o (known a || known b) (high a || high b) all_nodes)
  /\ update_or_gate g3 all_nodes
    = Ok (drive o (known a || known b || known c) (high a || high b || high c)
            all_nodes)
  /\ update_nor_gate g2 all_nodes
    = Ok (drive o (known a || known b) (negb (high a || high b)) all_nodes)
  /\ update_xor_gate g2 all_nodes
    = Ok (drive o (known a || known b) (xorb (high a) (high b)) all_nodes)
  /\ update_not_gate g1 all_nodes
    = Ok (drive o (known a) (negb (high a)) all_nodes)
  /\ (a = High -> b = Unknown ->
      exists all_nodes', update_and_gate g2 all_nodes = Ok all_nodes'
                         /\ has_state all_nodes' o (tri_state Low)).
Proof.
  intros Ha Hb Hc Ho Hi2 Ho2 Hi3 Ho3 Hi1 Ho1.
  repeat split.
  - by apply (and_gate_table all_nodes ia ib o a b).
  - by apply (nand_gate_table all_nodes ia ib o a b).
  - by apply (or_gate_table all_nodes ia ib o a b).
  - by apply (or3_gate_table all_nodes ia ib ic o a b c).
  - by apply (nor_gate_table all_nodes ia ib o a b).
  - by apply (xor_gate_table all_nodes ia ib o a b).
  - by apply (not_gate_table all_nodes ia o a).
  - intros -> ->. eexists. split.
    + by apply (and_gate_table all_nodes ia ib o High Unknown).
    + simpl. by apply has_state_set_eq.
Qed.

Lemma gate_truth_tables_witness :
  update_and_gate gate2 gate_store = Ok (drive 3 true false gate_store)
  /\ update_or_gate gate3 gate_store = Ok (drive 3 true true gate_store)
  /\ update_not_gate gate1 gate_store = Ok (drive 3 true false gate_store).
Proof.
  destruct (gate_truth_tables gate_store gate2 gate3 gate1 0 1 2 3 High Unknown Low)
    as (Hand & _ & _ & Hor3 & _ & _ & Hnot & _);
    try reflexivity; [simpl; lia|].
  exact (conj Hand (conj Hor3 Hnot)).
Defined.

(** ** Multiplexer *)

(** What the multiplexer does, for all states of its ports. *)
Lemma multiplexer_table nodes (all_nodes : list node) i0 i1 ic o v0 v1 vc :
  lookup_key "inp" nodes = Some (Many [i0; i1]) ->
  lookup_key "controlSignalInput" nodes = Some (One ic) ->
  lookup_key "output1" nodes = Some (One o) ->
  has_state all_nodes i0 v0 -> has_state all_nodes i1 v1 ->
  has_state all_nodes ic vc -> (o < length all_nodes)%nat ->
  update_multiplexer nodes all_nodes
  = Ok (match vc with
        | None => all_nodes
        | Some z =>
          if Z.eqb z 0 && defined v0 then set_state o v0 all_nodes
          else if defined v1 then set_state o v1 all_nodes
          else all_nodes
        end).
Proof.
  intros Hinp Hc Ho H0 H1 Hvc Hlt. unfold update_multiplexer.
  rewrite (state_at_has_state nodes all_nodes "inp" [i0; i1] 0 i0 v0)
    by (assumption || reflexivity).
  rewrite (state_at_has_state nodes all_nodes "inp" [i0; i1] 1 i1 v1)
    by (assumption || reflexivity).
  cbn [rbind].
  rewrite (check_arity_ok nodes [i0; i1] 2) by (assumption || reflexivity).
  cbn [rbind].
  rewrite (state_of_port nodes all_nodes "controlSignalInput" ic vc) by assumption.
  rewrite (node_of_in_range nodes all_nodes "output1" o) by assumption.
  cbn [rbind]. destruct vc as [z|]; [|reflexivity]. simpl.
  destruct (Z.eqb z 0 && defined v0); [reflexivity|].
  destruct (defined v1); reflexivity.
Qed.

(** C2, at the input where the code departs from it: the control is
    Low and input 0 is Unknown, yet the output is assigned the value of
    input 1 (High) instead of being left as input 0 is. *)
Theorem multiplexer_low_control_takes_input1 :
  has_state mux_store 2 (tri_state Low)
  /\ has_state mux_store 0 (tri_state Unknown)
  /\ has_state mux_store 1 (tri_state High)
  /\ update_multiplexer mux_ports mux_store = Ok (set_state 3 (Some 1) mux_store)
  /\ has_state (set_state 3 (Some 1) mux_store) 3 (tri_state High).
Proof. repeat split. Qed.

(** ** Demultiplexer *)

Lemma demultiplexer_table nodes (all_nodes : list node) ii ic o0 o1 vi vc :
  lookup_key "input" nodes = Some (One ii) ->
  lookup_key "controlSignalInput" nodes = Some (One ic) ->
  lookup_key "output1" nodes = Some (Many [o0; o1]) ->
  has_state all_nodes ii vi -> has_state all_nodes ic vc ->
  (o0 < length all_nodes)%nat -> (o1 < length all_nodes)%nat ->
  update_demultiplexer nodes all_nodes
  = Ok (if defined vi && defined vc
        then if state_is 0 vc
             then set_state o1 (Some 0) (set_state o0 vi all_nodes)
             else set_state o1 vi (set_state o0 (Some 0) all_nodes)
        else all_nodes).
Proof.
  intros Hi Hc Ho Hvi Hvc Hlt0 Hlt1. unfold update_demultiplexer.
  rewrite (state_of_port nodes all_nodes "input" ii vi) by assumption.
  rewrite (state_of_port nodes all_nodes "controlSignalInput" ic vc) by assumption.
  unfold port_at, port_many. rewrite Ho. cbn [rbind lookup list_lookup].
  destruct (get_node_in_range all_nodes o0 Hlt0) as [n0 ->].
  destruct (get_node_in_range all_nodes o1 Hlt1) as [n1 ->].
  cbn [rbind]. destruct (defined vi && defined vc); [destruct (state_is 0 vc)|];
    reflexivity.
Qed.

(** C3 as stated fails: with the control Low and the data input
    Unknown, output 1 is not forced Low, it stays Unknown. *)
Lemma demultiplexer_unknown_input_counterexample :
  has_state (demux_store None (Some 0)) 1 (tri_state Low)
  /\ exists all_nodes',
       update_demultiplexer demux_ports (demux_store None (Some 0)) = Ok all_nodes'
       /\ has_state all_nodes' 3 (tri_state Unknown)
       /\ ~ has_state all_nodes' 3 (tri_state Low).
Proof.
  split; [reflexivity|]. eexists. split; [reflexivity|]. split; [reflexivity|].
  unfold has_state. simpl. congruence.
Qed.

(** C3, amended.  When the data input is defined: a Low control copies
    it to output 0 and forces output 1 Low; a defined control that is
    not Low copies it to output 1 and forces output 0 Low.  When the
    control or the data input is Unknown, the store is left as it is,
    so both outputs stay as they were. *)
Theorem demultiplexer_routes_defined_input nodes (all_nodes : list node)
    ii ic o0 o1 (vi : option Z) (vc : option Z) :
  lookup_key "input" nodes = Some (One ii) ->
  lookup_key "controlSignalInput" nodes = Some (One ic) ->
  lookup_key "output1" nodes = Some (Many [o0; o1]) ->
  has_state all_nodes ii vi -> has_state all_nodes ic vc ->
  (o0 < length all_nodes)%nat -> (o1 < length all_nodes)%nat -> o0 <> o1 ->
  exists all_nodes',
    update_demultiplexer nodes all_nodes = Ok all_nodes'
    /\ (forall d, vi = Some d -> vc = Some 0 ->
          has_state all_nodes' o0 (Some d) /\ has_state all_nodes' o1 (tri_state Low))
    /\ (forall d z, vi = Some d -> vc = Some z -> z <> 0 ->
          has_state all_nodes' o1 (Some d) /\ has_state all_nodes' o0 (tri_state Low))
    /\ (vi = None \/ vc = None -> all_nodes' = all_nodes).
Proof.
  intros Hi Hc Ho Hvi Hvc Hlt0 Hlt1 Hne.
  eexists. split; [by eapply demultiplexer_table|].
  split; [|split].
  - intros d -> ->. simpl. split.
    + apply has_state_set_ne; [done|]. by apply has_state_set_eq.
    + apply has_state_set_eq. by rewrite length_set_state.
  - intros d z -> -> Hz. simpl.
    destruct (Z.eqb_spec z 0) as [|_]; [done|]. split.
    + apply has_state_set_eq. by rewrite length_set_state.
    + apply has_state_set_ne; [done|]. by apply has_state_set_eq.
  - intros [-> | ->]; [reflexivity|]. by rewrite andb_false_r.
Qed.

Lemma demultiplexer_routes_defined_input_witness :
  exists all_nodes',
    update_demultiplexer demux_ports (demux_store (Some 1) (Some 0)) = Ok all_nodes'
    /\ has_state all_nodes' 2 (Some 1) /\ has_state all_nodes' 3 (Some 0).
Proof.
  destruct (demultiplexer_routes_defined_input demux_ports
              (demux_store (Some 1) (Some 0)) 0 1 2 3 (Some 1) (Some 0))
    as (s & Hs & Hlow & _); try reflexivity; try (simpl; lia).
  exists s. split; [exact Hs|]. exact (Hlow 1 eq_refl eq_refl).
Defined.

(** ** SR latch *)

Lemma update_sr_flip_flop_run nodes (s : list node) iS q (vS : option Z) :
  lookup_key "S" nodes = Some (One iS) ->
  lookup_key "qOutput" nodes = Some (One q) ->
  has_state s iS vS -> (q < length s)%nat ->
  update_sr_flip_flop nodes s
  = Ok (set_state q (Some (if state_is 1 vS then 1 else 0)) s).
Proof.
  intros HS Hq HvS Hlt. unfold update_sr_flip_flop.
  rewrite (state_of_port nodes s "S" iS vS) by assumption.
  rewrite (node_of_in_range nodes s "qOutput" q) by assumption.
  reflexivity.
Qed.

Lemma has_state_inj (s : list node) i v w :
  has_state s i v -> has_state s i w -> v = w.
Proof. unfold has_state. congruence. Qed.

(** C4. An evaluation of the SR latch succeeds and leaves the output
    High when S is High, and Low in every other case, in particular when
    S is Unknown: the output ends High iff S is High.  No other node is
    changed.  Neither the R port nor the state of the R node takes part:
    the result is the same for any port dictionary with these S and
    output ports, and the output ends in the same state after any change
    of the state of a node other than S.  With S and R High the output
    is High. *)
Theorem sr_latch_follows_S nodes (all_nodes : list node) iS q (vS : option Z) :
  lookup_key "S" nodes = Some (One iS) ->
  lookup_key "qOutput" nodes = Some (One q) ->
  has_state all_nodes iS vS -> (q < length all_nodes)%nat ->
  exists all_nodes',
    update_sr_flip_flop nodes all_nodes = Ok all_nodes'
    /\ (vS = tri_state High -> has_state all_nodes' q (tri_state High))
    /\ (vS <> tri_state High -> has_state all_nodes' q (tri_state Low))
    /\ (vS = tri_state Unknown -> has_state all_nodes' q (tri_state Low))
    /\ (has_state all_nodes' q (tri_state High) <-> vS = tri_state High)
    /\ length all_nodes' = length all_nodes
    /\ (forall j, j <> q -> all_nodes' !! j = all_nodes !! j)
    /\ (forall nodes',
          lookup_key "S" nodes' = Some (One iS) ->
          lookup_key "qOutput" nodes' = Some (One q) ->
          update_sr_flip_flop nodes' all_nodes = Ok all_nodes')
    /\ (forall iR vR, iR <> iS ->
          exists r, update_sr_flip_flop nodes (set_state iR vR all_nodes) = Ok r
                    /\ forall v, has_state all_nodes' q v -> has_state r q v)
    /\ (vS = tri_state High ->
        forall iR, has_state all_nodes iR (tri_state High) ->
          has_state all_nodes' q (tri_state High)).
Proof.
  intros HS Hq HvS Hlt.
  assert (Hhigh : vS = tri_state High -> state_is 1 vS = true) by (by intros ->).
  assert (Hlow : vS <> tri_state High -> state_is 1 vS = false).
  { intros Hne. destruct vS as [z|]; [|done]. simpl.
    destruct (Z.eqb_spec z 1) as [->|]; [by destruct Hne|done]. }
  assert (Hrun : forall s : list node, has_state s iS vS -> (q < length s)%nat ->
            exists b, state_is 1 vS = b
                      /\ update_sr_flip_flop nodes s
                         = Ok (set_state q (Some (if b then 1 else 0)) s)).
  { intros s Hs Hlen. eexists. split; [reflexivity|].
    by eapply update_sr_flip_flop_run. }
  destruct (Hrun all_nodes HvS Hlt) as (b & Hb & Hall).
  pose proof (has_state_set_eq all_nodes q (Some (if b then 1 else 0)) Hlt) as Hout.
  eexists. split; [exact Hall|].
  repeat split.
  - intros Hv. rewrite (Hhigh Hv) in Hb. by subst b.
  - intros Hv. rewrite (Hlow Hv) in Hb. by subst b.
  - intros Hv. rewrite Hlow in Hb; [by subst b|by rewrite Hv].
  - intros Hq1. destruct (decide (vS = tri_state High)) as [|Hne]; [done|].
    rewrite (Hlow Hne) in Hb. subst b.
    by pose proof (has_state_inj _ _ _ _ Hout Hq1).
  - intros Hv. rewrite (Hhigh Hv) in Hb. by subst b.
  - apply length_set_state.
  - intros j Hj. by apply lookup_set_state_ne.
  - intros nodes' HS' Hq'. rewrite <- Hb.
    by apply (update_sr_flip_flop_run nodes' all_nodes iS q vS).
  - intros iR vR Hne.
    destruct (Hrun (set_state iR vR all_nodes)) as (b' & Hb' & Hrun').
    { by apply has_state_set_ne. }
    { by rewrite length_set_state. }
    eexists. split; [exact Hrun'|].
    intros v Hv. pose proof (has_state_inj _ _ _ _ Hout Hv) as <-.
    rewrite <- Hb', Hb. apply has_state_set_eq. by rewrite length_set_state.
  - intros Hv iR _. rewrite (Hhigh Hv) in Hb. by subst b.
Qed.

Lemma sr_latch_follows_S_witness :
  (exists all_nodes',
     update_sr_flip_flop latch_ports latch_store = Ok all_nodes'
     /\ has_state all_nodes' 2 (tri_state High))
  /\ (exists all_nodes',
       update_sr_flip_flop latch_ports latch_idle = Ok all_nodes'
       /\ has_state all_nodes' 2 (tri_state Low)).
Proof.
  split.
  - destruct (sr_latch_follows_S latch_ports latch_store 0 2 (tri_state High))
      as (s & Hs & Hhigh & _); try reflexivity; [simpl; lia|].
    exists s. split; [exact Hs|]. exact (Hhigh eq_refl).
  - destruct (sr_latch_follows_S latch_ports latch_idle 0 2 (tri_state Unknown))
      as (s & Hs & _ & _ & Hlow & _); try reflexivity; [simpl; lia|].
    exists s. split; [exact Hs|]. exact (Hlow eq_refl).
Defined.

(** ** Gates with fewer than two inputs *)

Lemma state_at_short nodes (all_nodes : list node) inp
    (r : option Z -> option Z -> res (list node)) :
  lookup_key "inp" nodes = Some (Many inp) -> (length inp < 2)%nat ->
  (do i0 <- state_at nodes all_nodes "inp" 0;
   do i1 <- state_at nodes all_nodes "inp" 1; r i0 i1) = Err IndexError.
Proof.
  intros Hinp Hlen. unfold state_at, port_at, port_many. rewrite Hinp.
  destruct inp as [|x [|y inp]]; simpl in *; [reflexivity| |lia].
  unfold get_state, get_node. destruct (all_nodes !! x); reflexivity.
Qed.

Lemma check_arity_raises nodes n msg :
  check_arity nodes n msg = Err (Exception msg) ->
  exists inp, lookup_key "inp" nodes = Some (Many inp) /\ length inp <> n.
Proof.
  unfold check_arity, port_many.
  destruct (lookup_key "inp" nodes) as [[i|l]|]; simpl; try discriminate.
  destruct (Nat.eqb_spec (length l) n); [discriminate|]. intros _. by exists l.
Qed.

(** The exceptions of the reads are never [Exception]. *)
Lemma get_state_not_exception (s : list node) i msg :
  get_state s i <> Err (Exception msg).
Proof. unfold get_state, get_node. destruct (s !! i); simpl; congruence. Qed.

Lemma state_at_not_exception nodes (s : list node) k j msg :
  state_at nodes s k j <> Err (Exception msg).
Proof.
  unfold state_at, port_at, port_many.
  destruct (lookup_key k nodes) as [[i|l]|]; simpl; try congruence.
  destruct (l !! j); simpl; [apply get_state_not_exception|congruence].
Qed.

Lemma node_of_not_exception nodes (s : list node) k msg :
  node_of nodes s k <> Err (Exception msg).
Proof.
  unfold node_of, port_one, get_node.
  destruct (lookup_key k nodes) as [[i|l]|]; simpl; try congruence.
  destruct (s !! i); simpl; congruence.
Qed.

(** A two-input evaluator that raises [Exception] has read both inputs
    and failed its arity check. *)
Lemma two_input_exception nodes (all_nodes : list node) text msg
    (k : option Z -> option Z -> nat -> res (list node)) :
  (forall i0 i1 o, k i0 i1 o <> Err (Exception msg)) ->
  (do i0 <- state_at nodes all_nodes "inp" 0;
   do i1 <- state_at nodes all_nodes "inp" 1;
   do _ <- check_arity nodes 2 text;
   do output <- node_of nodes all_nodes "output1";
   k i0 i1 output) = Err (Exception msg) ->
  exists inp, lookup_key "inp" nodes = Some (Many inp) /\ (2 < length inp)%nat.
Proof.
  intros Hk.
  destruct (state_at nodes all_nodes "inp" 0) as [i0|e0] eqn:H0; simpl;
    [|intros [= ->]; by apply state_at_not_exception in H0].
  destruct (state_at nodes all_nodes "inp" 1) as [i1|e1] eqn:H1; simpl;
    [|intros [= ->]; by apply state_at_not_exception in H1].
  destruct (check_arity nodes 2 text) as [[]|e2] eqn:H2; simpl.
  - destruct (node_of nodes all_nodes "output1") as [o|e3] eqn:H3; simpl;
      [|intros [= ->]; by apply node_of_not_exception in H3].
    intros Habs. by apply Hk in Habs.
  - intros [= ->]. pose proof H2 as H2'. unfold check_arity, port_many in H2'.
    destruct (lookup_key "inp" nodes) as [[i|inp]|] eqn:Hinp; simpl in H2';
      try discriminate.
    exists inp. split; [reflexivity|].
    destruct (Nat.eqb_spec (length inp) 2); [discriminate|].
    unfold state_at, port_at, port_many in H1. rewrite Hinp in H1. simpl in H1.
    destruct (inp !! 1%nat) eqn:Hl; [|discriminate].
    apply lookup_lt_Some in Hl. lia.
Qed.

(** C10. An AND, NAND, NOR or XOR gate with fewer than two inputs
    fails with [IndexError], raised by the read of input 1 (or of input
    0) before the arity check is reached; the arity check raises only
    for a gate with more than two inputs. *)
Theorem short_gate_raises_index_error nodes (all_nodes : list node) inp :
  lookup_key "inp" nodes = Some (Many inp) -> (length inp < 2)%nat ->
  update_and_gate nodes all_nodes = Err IndexError
  /\ update_nand_gate nodes all_nodes = Err IndexError
  /\ update_nor_gate nodes all_nodes = Err IndexError
  /\ update_xor_gate nodes all_nodes = Err IndexError
  /\ (forall nodes' (all_nodes' : list node) msg,
        update_and_gate nodes' all_nodes' = Err (Exception msg)
        \/ update_nand_gate nodes' all_nodes' = Err (Exception msg)
        \/ update_nor_gate nodes' all_nodes' = Err (Exception msg)
        \/ update_xor_gate nodes' all_nodes' = Err (Exception msg) ->
        exists inp', lookup_key "inp" nodes' = Some (Many inp')
                     /\ (2 < length inp')%nat).
Proof.
  intros Hinp Hlen. repeat split;
    try (by eapply state_at_short).
  intros nodes' s msg [H|[H|[H|H]]];
    (eapply two_input_exception; [|exact H]);
    intros i0 i1 o; simpl; destruct (defined i0 || defined i1); congruence.
Qed.

Lemma short_gate_raises_index_error_witness :
  update_and_gate gate0 gate_store = Err IndexError
  /\ update_xor_gate gate0 gate_store = Err IndexError.
Proof.
  destruct (short_gate_raises_index_error gate0 gate_store [0%nat])
    as (Hand & _ & _ & Hxor & _); [reflexivity|simpl; lia|].
  exact (conj Hand Hxor).
Defined.

(** * The topological sort *)

Lemma whites_le_length l : (whites l <= length l)%nat.
Proof. induction l as [|x l IH]; simpl; [lia|]. destruct (Nat.eqb x 0); lia. Qed.

Lemma whites_insert_white l i v :
  l !! i = Some 0%nat -> v <> 0%nat -> S (whites (<[i := v]> l)) = whites l.
Proof.
  revert i. induction l as [|x l IH]; intros [|i] Hi Hv; simpl in *; try discriminate.
  - injection Hi as ->. simpl. destruct (Nat.eqb_spec v 0); [done|]. lia.
  - rewrite <- (IH i Hi Hv). lia.
Qed.

Lemma whites_insert_le l i v :
  v <> 0%nat -> (whites (<[i := v]> l) <= whites l)%nat.
Proof.
  intros Hv. revert i. induction l as [|x l IH]; intros [|i]; simpl; try lia.
  - destruct (Nat.eqb_spec v 0); [done|]. destruct (Nat.eqb x 0); lia.
  - specialize (IH i). lia.
Qed.

Lemma whites_replicate n : whites (replicate n 0%nat) = n.
Proof. induction n as [|n IH]; simpl; [done|]. by rewrite IH. Qed.

Section TopologicalSort.

Variable G : list (list nat).

Local Abbreviation state := (list nat * list nat)%type.

Lemma edge_source a b : edge G a b -> (a < length G)%nat.
Proof. intros (ss & Ha & _). by eapply lookup_lt_Some. Qed.

(** The loop over the successors, given what a single call achieves. *)
Lemma sort_loop limit :
  (forall i (st : state), sort_inv G st ->
     sort_post limit G st [i] (topological_sort limit G i st)) ->
  forall successors (st : state),
    sort_inv G st ->
    sort_post limit G st successors (for_each successors (topological_sort limit G) st).
Proof.
  intros Hcall successors. induction successors as [|s ss IH]; intros st Hinv.
  - simpl. split; [done|]. split; [done|]. split; [done|]. split; [|done].
    intros t Ht. by apply elem_of_nil in Ht.
  - simpl. pose proof (Hcall s st Hinv) as Hpost.
    destruct (topological_sort limit G s st) as [st1|e st1]; simpl in Hpost.
    + destruct Hpost as (Hinv1 & Hgrey1 & Hblack1 & Hdone1 & Hw1).
      pose proof (IH st1 Hinv1) as Hpost2.
      destruct (for_each ss (topological_sort limit G) st1) as [st2|e st2];
        simpl in Hpost2 |- *.
      * destruct Hpost2 as (Hinv2 & Hgrey2 & Hblack2 & Hdone2 & Hw2).
        split; [done|]. split; [|split; [|split]].
        -- intros x. by rewrite Hgrey2, Hgrey1.
        -- auto.
        -- intros t [->|Ht]%elem_of_cons; [|by apply Hdone2].
           apply Hblack2, Hdone1. by apply list_elem_of_singleton.
        -- lia.
      * destruct Hpost2 as [[-> [Hc|(t & g & Ht & Hg & Hp)]]
                           |[[-> [Hc|(t & Ht & Hlt)]]|[-> Hdepth]]].
        -- left. split; [done|]. by left.
        -- left. split; [done|]. right. exists t, g.
           split; [by apply elem_of_cons; right|]. split; [by apply Hgrey1|done].
        -- right. left. split; [done|]. by left.
        -- right. left. split; [done|]. right. exists t.
           split; [by apply elem_of_cons; right|done].
        -- right. right. split; [done|]. lia.
    + destruct Hpost as [[-> [Hc|(t & g & Ht & Hg & Hp)]]
                        |[[-> [Hc|(t & Ht & Hlt)]]|[-> Hdepth]]].
      * left. split; [done|]. by left.
      * left. split; [done|]. right. exists t, g.
        apply list_elem_of_singleton in Ht as ->.
        split; [by apply elem_of_cons; left|done].
      * right. left. split; [done|]. by left.
      * right. left. split; [done|]. right. exists t.
        apply list_elem_of_singleton in Ht as ->.
        split; [by apply elem_of_cons; left|done].
      * right. right. done.
Qed.

Lemma sort_call limit :
  forall i (st : state), sort_inv G st ->
    sort_post limit G st [i] (topological_sort limit G i st).
Proof.
  induction limit as [|limit IH]; intros i [sorted status] Hinv.
  { simpl. right. right. split; [done|]. lia. }
  pose proof (sort_loop limit IH) as Hloop.
  destruct Hinv as [Hlen Hst Hblack Hnodup Horder]. simpl in Hlen, Hst, Hblack, Hnodup, Horder.
  cbn [topological_sort snd fst].
  destruct (status !! i) as [v|] eqn:Hv; cycle 1.
  { (* not a node *)
    simpl. right. left. split; [done|]. right. exists i.
    split; [by apply list_elem_of_singleton|].
    apply lookup_ge_None in Hv. lia. }
  assert (Hi : (i < length G)%nat) by (apply lookup_lt_Some in Hv; lia).
  destruct (Nat.eqb_spec v 2) as [->|Hv2].
  { (* already finished *)
    simpl. split; [by split|]. split; [done|]. split; [done|]. split; [|done].
    intros t ->%list_elem_of_singleton. done. }
  destruct (Nat.eqb_spec v 1) as [->|Hv1].
  { (* in progress: a back edge *)
    simpl. left. split; [done|]. right. exists i, i.
    split; [by apply list_elem_of_singleton|done]. }
  assert (v = 0%nat) as -> by (specialize (Hst i v Hv); lia).
  destruct (lookup_lt_is_Some_2 G i Hi) as [ss Hss]. rewrite Hss.
  set (st1 := (sorted, <[i := 1%nat]> status)).
  assert (Hinv1 : sort_inv G st1).
  { split; simpl.
    - by rewrite length_insert.
    - intros x w Hx. destruct (decide (i = x)) as [->|Hne].
      + rewrite list_lookup_insert_eq in Hx by lia. injection Hx as <-. lia.
      + rewrite list_lookup_insert_ne in Hx by done. eauto.
    - intros x. destruct (decide (i = x)) as [->|Hne].
      + rewrite list_lookup_insert_eq by lia. split; [done|].
        intros Hx. apply Hblack in Hx. congruence.
      + rewrite list_lookup_insert_ne by done. apply Hblack.
    - done.
    - done. }
  assert (Hwhite1 : S (whites (snd st1)) = whites status).
  { simpl. by apply whites_insert_white. }
  pose proof (Hloop ss st1 Hinv1) as Hpost.
  destruct (for_each ss (topological_sort limit G) st1) as [[sorted2 status2]|e st2];
    simpl in Hpost |- *.
  - destruct Hpost as (Hinv2 & Hgrey2 & Hblack2 & Hdone2 & Hw2).
    destruct Hinv2 as [Hlen2 Hst2 Hbl2 Hnodup2 Horder2].
    simpl in Hlen2, Hst2, Hbl2, Hnodup2, Horder2.
    assert (Hi2 : status2 !! i = Some 1%nat).
    { apply Hgrey2. rewrite list_lookup_insert_eq by lia. done. }
    assert (Hnotin : i ∉ sorted2).
    { intros Hx. apply Hbl2 in Hx. congruence. }
    split; [split; simpl|split; [|split; [|split]]]; simpl.
    + by rewrite length_insert.
    + intros x w Hx. destruct (decide (i = x)) as [->|Hne].
      * rewrite list_lookup_insert_eq in Hx by lia. injection Hx as <-. lia.
      * rewrite list_lookup_insert_ne in Hx by done. eauto.
    + intros x. rewrite elem_of_app, list_elem_of_singleton.
      destruct (decide (i = x)) as [->|Hne].
      * rewrite list_lookup_insert_eq by lia. split; auto.
      * rewrite list_lookup_insert_ne by done. rewrite Hbl2.
        split; [auto|]. intros [Hx| ->]; done.
    + apply NoDup_app. split; [done|]. split; [|apply NoDup_singleton].
      intros x Hx ->%list_elem_of_singleton. done.
    + intros p x y Hp Hxy.
      destruct (decide (p < length sorted2)%nat) as [Hlt|Hge].
      * rewrite lookup_app_l in Hp by done.
        destruct (Horder2 p x y Hp Hxy) as (j & Hj & Hjy).
        exists j. split; [done|]. rewrite lookup_app_l by lia. done.
      * rewrite lookup_app_r in Hp by lia.
        destruct (p - length sorted2)%nat as [|k] eqn:Hk; simpl in Hp; [|done].
        injection Hp as <-.
        destruct Hxy as (ss' & Hss' & Hy). rewrite Hss in Hss'. injection Hss' as <-.
        pose proof (Hdone2 y Hy) as Hyb. apply Hbl2 in Hyb.
        apply list_elem_of_lookup in Hyb as [j Hj].
        exists j. split; [apply lookup_lt_Some in Hj; lia|].
        rewrite lookup_app_l by (by eapply lookup_lt_Some). done.
    + intros x. destruct (decide (i = x)) as [->|Hne].
      * rewrite list_lookup_insert_eq by lia. split; congruence.
      * rewrite list_lookup_insert_ne by done. rewrite Hgrey2. simpl.
        by rewrite list_lookup_insert_ne.
    + intros x Hx. destruct (decide (i = x)) as [->|Hne]; [congruence|].
      rewrite list_lookup_insert_ne by done. apply Hblack2. simpl.
      by rewrite list_lookup_insert_ne.
    + intros t ->%list_elem_of_singleton. rewrite list_lookup_insert_eq by lia. done.
    + pose proof (whites_insert_le status2 i 2). simpl in Hw2, Hwhite1. lia.
  - destruct Hpost as [[-> [Hc|(t & g & Ht & Hg & Hp)]]
                      |[[-> [Hc|(t & Ht & Hlt)]]|[-> Hdepth]]].
    + left. split; [done|]. by left.
    + left. split; [done|]. simpl in Hg. destruct (decide (i = g)) as [<-|Hne].
      * left. exists i. eapply tc_rtc_r; [|exact Hp]. apply tc_once. by exists ss.
      * rewrite list_lookup_insert_ne in Hg by done. right. exists i, g.
        split; [by apply list_elem_of_singleton|]. split; [done|].
        eapply rtc_l; [|exact Hp]. by exists ss.
    + right. left. split; [done|]. by left.
    + right. left. split; [done|]. left. intros Hclosed.
      assert (t < length G)%nat; [|lia]. apply (Hclosed i). by exists ss.
    + right. right. split; [done|]. simpl in Hdepth, Hwhite1. lia.
Qed.

(** The loop of [compute_node_states] that starts a walk at every node
    not yet visited. *)
Lemma sort_outer limit k :
  forall a (st : state), (a + k = length G)%nat -> sort_inv G st ->
    (forall x, snd st !! x <> Some 1%nat) ->
    (forall x, (x < a)%nat -> snd st !! x = Some 2%nat) ->
    match for_each (seq a k)
            (fun index st =>
               match snd st !! index with
               | Some O => topological_sort limit G index st
               | Some _ => Done st
               | None => Raise IndexError st
               end) st with
    | Done st' =>
      sort_inv G st' /\ (forall x, (x < length G)%nat -> snd st' !! x = Some 2%nat)
    | Raise e _ =>
      (e = Exception "Cyclic graph!" /\ cyclic G)
      \/ (e = IndexError /\ ~ closed_graph G)
      \/ (e = RecursionError /\ (limit <= length G)%nat)
    end.
Proof.
  induction k as [|k IH]; intros a st Hak Hinv Hgrey Hblack.
  - simpl. split; [done|]. intros x Hx. apply Hblack. lia.
  - cbn [seq for_each].
    destruct (lookup_lt_is_Some_2 (snd st) a) as [v Hv];
      [rewrite (inv_length G st Hinv); lia|].
    rewrite Hv. destruct v as [|v].
    + assert (Hwhite : (whites (snd st) <= length G)%nat).
      { pose proof (whites_le_length (snd st)).
        rewrite (inv_length G st Hinv) in *. lia. }
      pose proof (sort_call limit a st Hinv) as Hpost.
      destruct (topological_sort limit G a st) as [st1|e st1]; simpl in Hpost.
      * destruct Hpost as (Hinv1 & Hgrey1 & Hblack1 & Hdone1 & _).
        apply IH; [lia|done| |].
        -- intros x Hx. apply Hgrey1 in Hx. by apply Hgrey in Hx.
        -- intros x Hx. destruct (decide (x = a)) as [->|Hne].
           ++ apply Hdone1. by apply list_elem_of_singleton.
           ++ apply Hblack1, Hblack. lia.
      * destruct Hpost as [[-> [Hc|(t & g & _ & Hg & _)]]
                          |[[-> [Hc|(t & Ht & Hlt)]]|[-> Hdepth]]].
        -- by left.
        -- by apply Hgrey in Hg.
        -- right. by left.
        -- apply list_elem_of_singleton in Ht as ->. lia.
        -- right. right. split; [done|]. lia.
    + assert (v = 1%nat) as ->.
      { pose proof (inv_status G st Hinv a _ Hv). destruct v as [|[|v]]; [|done|lia].
        by apply Hgrey in Hv. }
      apply IH; [lia|done|done|].
      intros x Hx. destruct (decide (x = a)) as [->|Hne]; [done|]. apply Hblack. lia.
Qed.

Lemma sort_inv_init : sort_inv G ([], replicate (length G) 0%nat).
Proof.
  split; simpl.
  - apply length_replicate.
  - intros x v [-> _]%lookup_replicate. lia.
  - intros x. split; [intros [? _]%lookup_replicate; done|].
    intros Hx. by apply elem_of_nil in Hx.
  - apply NoDup_nil_2.
  - intros i x y Hi. by rewrite lookup_nil in Hi.
Qed.

(** A finished sort lists every node once, successors first. *)
Lemma sort_inv_tc (st : state) :
  sort_inv G st ->
  forall x y, tc (edge G) x y ->
    forall i, fst st !! i = Some x -> exists j, (j < i)%nat /\ fst st !! j = Some y.
Proof.
  intros Hinv x y Hxy. induction Hxy as [x y Hxy|x y z Hxy _ IH]; intros i Hi.
  - by eapply (inv_order G st Hinv).
  - destruct (inv_order G st Hinv i x y Hi Hxy) as (j & Hj & Hjy).
    destruct (IH j Hjy) as (k & Hk & Hkz). exists k. split; [lia|done].
Qed.

Lemma sort_done_acyclic (st : state) :
  sort_inv G st -> (forall x, (x < length G)%nat -> snd st !! x = Some 2%nat) ->
  ~ cyclic G.
Proof.
  intros Hinv Hall [x Hx].
  assert (Hlt : (x < length G)%nat).
  { inversion Hx as [? ? He|? ? ? He _]; subst; by eapply edge_source. }
  pose proof (Hall x Hlt) as Hb. apply (inv_black G st Hinv) in Hb.
  apply list_elem_of_lookup in Hb as [i Hi].
  destruct (sort_inv_tc st Hinv x x Hx i Hi) as (j & Hj & Hjx).
  pose proof (NoDup_lookup _ _ _ _ (inv_nodup G st Hinv) Hi Hjx). lia.
Qed.

Lemma sort_done_permutation (st : state) :
  sort_inv G st -> (forall x, (x < length G)%nat -> snd st !! x = Some 2%nat) ->
  fst st ≡ₚ seq 0 (length G).
Proof.
  intros Hinv Hall. apply NoDup_Permutation.
  - apply (inv_nodup G st Hinv).
  - apply NoDup_seq.
  - intros x. rewrite elem_of_seq. split.
    + intros Hx. apply (inv_black G st Hinv) in Hx. apply lookup_lt_Some in Hx.
      rewrite (inv_length G st Hinv) in Hx. lia.
    + intros [_ Hx]. apply (inv_black G st Hinv). apply Hall. lia.
Qed.

Lemma sort_done_order (st : state) :
  sort_inv G st -> (forall x, (x < length G)%nat -> snd st !! x = Some 2%nat) ->
  forall a b, edge G a b -> precedes (rev (fst st)) a b.
Proof.
  intros Hinv Hall a b Hab.
  pose proof (Hall a (edge_source a b Hab)) as Ha.
  apply (inv_black G st Hinv) in Ha. apply list_elem_of_lookup in Ha as [i Hi].
  destruct (inv_order G st Hinv i a b Hi Hab) as (j & Hj & Hjb).
  pose proof (lookup_lt_Some _ _ _ Hi) as Hil.
  exists (length (fst st) - S i)%nat, (length (fst st) - S j)%nat.
  rewrite rev_alt. fold (reverse (fst st)).
  rewrite !reverse_lookup by lia.
  replace (length (fst st) - S (length (fst st) - S i))%nat with i by lia.
  replace (length (fst st) - S (length (fst st) - S j))%nat with j by lia.
  split; [done|]. split; [done|lia].
Qed.

End TopologicalSort.

(** The outcomes of the loop that sorts all the nodes. *)
Lemma sort_nodes_post limit G :
  match sort_nodes limit G (length G) with
  | Done st =>
    sort_inv G st /\ (forall x, (x < length G)%nat -> snd st !! x = Some 2%nat)
  | Raise e _ =>
    (e = Exception "Cyclic graph!" /\ cyclic G)
    \/ (e = IndexError /\ ~ closed_graph G)
    \/ (e = RecursionError /\ (limit <= length G)%nat)
  end.
Proof.
  assert (Hrun := sort_outer G limit (length G) 0 ([], replicate (length G) 0%nat)
                    eq_refl (sort_inv_init G)).
  cbn [snd] in Hrun.
  assert (Hgrey : forall x, replicate (length G) 0%nat !! x <> Some 1%nat)
    by (by intros x [? _]%lookup_replicate).
  exact (Hrun Hgrey ltac:(intros; lia)).
Qed.

(** Whatever the graph, a sort that returns has listed every node. *)
Lemma sort_nodes_done_covers limit G (st : list nat * list nat) :
  sort_nodes limit G (length G) = Done st -> fst st ≡ₚ seq 0 (length G).
Proof.
  intros Hdone. pose proof (sort_nodes_post limit G) as Hrun.
  rewrite Hdone in Hrun. destruct Hrun as [Hinv Hall].
  by apply sort_done_permutation.
Qed.

(** The calls of the sort nest at most one deeper than there are
    nodes. *)
Lemma sort_nodes_depth limit G st :
  (length G < limit)%nat -> sort_nodes limit G (length G) <> Raise RecursionError st.
Proof.
  intros Hlimit Hraise. pose proof (sort_nodes_post limit G) as Hrun.
  rewrite Hraise in Hrun. destruct Hrun as [[[=] _]|[[[=] _]|[_ Hle]]]. lia.
Qed.












(** * Frames of the evaluators *)

Lemma shape_set_state i v s : shape (set_state i v s) = shape s.
Proof.
  unfold shape, set_state. revert i.
  induction s as [|n s IH]; intros [|i]; simpl; try done.
  f_equal. apply IH.
Qed.

Lemma shape_length s s' : shape s' = shape s -> length s' = length s.
Proof. unfold shape. intros H. apply (f_equal length) in H. by rewrite !length_map in H. Qed.

Lemma shape_lookup s s' i n' :
  shape s' = shape s -> s' !! i = Some n' ->
  exists n, s !! i = Some n /\ type n = type n' /\ connections n = connections n'.
Proof.
  unfold shape. intros H Hi.
  assert (Hs : map (fun n => (type n, connections n)) s' !! i
               = Some (type n', connections n')).
  { change (map ?f ?l) with (f <$> l). by rewrite list_lookup_fmap, Hi. }
  rewrite H in Hs. change (map ?f ?l) with (f <$> l) in Hs.
  rewrite list_lookup_fmap in Hs. destruct (s !! i) as [n|]; [|done].
  simpl in Hs. injection Hs as Ht Hc. by exists n.
Qed.

Lemma shape_is_output s s' i : shape s' = shape s -> is_output s' i <-> is_output s i.
Proof.
  intros H. split; intros (n & Hn & Ht).
  - destruct (shape_lookup s s' i n H Hn) as (m & Hm & Htm & _).
    exists m. split; [done|congruence].
  - destruct (shape_lookup s' s i n (eq_sym H) Hn) as (m & Hm & Htm & _).
    exists m. split; [done|congruence].
Qed.

Lemma modifies_refl W s : modifies W s s.
Proof. by split. Qed.

Lemma modifies_set_state W s i v : i ∈ W -> modifies W s (set_state i v s).
Proof.
  intros Hi. split; [apply shape_set_state|].
  intros j Hj. apply lookup_set_state_ne. intros ->. done.
Qed.

Lemma modifies_trans W s1 s2 s3 :
  modifies W s1 s2 -> modifies W s2 s3 -> modifies W s1 s3.
Proof.
  intros [Hs1 Hf1] [Hs2 Hf2]. split; [congruence|].
  intros i Hi. rewrite Hf2, Hf1; done.
Qed.

Lemma modifies_weaken W W' s s' :
  (forall i, i ∈ W -> i ∈ W') -> modifies W s s' -> modifies W' s s'.
Proof. intros Hsub [Hs Hf]. split; [done|]. intros i Hi. apply Hf. auto. Qed.

Lemma modifies_has_state W s s' i v :
  modifies W s s' -> i ∉ W -> has_state s i v -> has_state s' i v.
Proof. intros [_ Hf] Hi Hv. unfold has_state. by rewrite Hf. Qed.

(** Inversion of the reads. *)
Lemma rbind_ok {A B : Type} (m : res A) (f : A -> res B) r :
  rbind m f = Ok r -> exists a, m = Ok a /\ f a = Ok r.
Proof. destruct m as [a|e]; simpl; [|done]. intros H. by exists a. Qed.

Lemma node_of_written nodes (s : list node) k o :
  node_of nodes s k = Ok o -> o ∈ port_indices nodes k.
Proof.
  unfold node_of, port_one, port_indices.
  destruct (lookup_key k nodes) as [[i|l]|]; simpl; try done.
  destruct (get_node s i); simpl; [|done]. intros [= ->].
  by apply list_elem_of_singleton.
Qed.

Lemma port_at_written nodes k j o :
  port_at nodes k j = Ok o -> o ∈ port_indices nodes k.
Proof.
  unfold port_at, port_many, port_indices.
  destruct (lookup_key k nodes) as [[i|l]|]; simpl; try done.
  destruct (l !! j) as [i|] eqn:Hj; simpl; [|done]. intros [= ->].
  by eapply list_elem_of_lookup_2.
Qed.

Ltac invert_reads :=
  repeat match goal with
         | H : rbind _ _ = Ok _ |- _ =>
           let a := fresh "a" in
           let Ha := fresh "Hread" in
           apply rbind_ok in H as (a & Ha & H)
         end.

Ltac frame_cases :=
  repeat match goal with
         | H : (if ?b then _ else _) = Ok _ |- _ => destruct b
         | H : Ok _ = Ok _ |- _ => injection H as <-
         end.

(** Every gate evaluator assigns only nodes listed under ['output1']
    or ['qOutput']. *)
Lemma update_gate_modifies (f : ports -> list node -> res (list node)) nodes s s' :
  f ∈ [update_and_gate; update_demultiplexer; update_multiplexer; update_nand_gate;
       update_nor_gate; update_not_gate; update_or_gate; update_sr_flip_flop;
       update_tristate; update_xor_gate] ->
  f nodes s = Ok s' ->
  modifies (port_indices nodes "output1" ++ port_indices nodes "qOutput") s s'.
Proof.
  intros Hf Hrun.
  repeat (apply elem_of_cons in Hf as [->|Hf]); [..|by apply elem_of_nil in Hf].
  all: unfold update_and_gate, update_demultiplexer, update_multiplexer,
         update_nand_gate, update_nor_gate, update_not_gate, update_or_gate,
         update_sr_flip_flop, update_tristate, update_xor_gate in Hrun.
  all: invert_reads; frame_cases; invert_reads; frame_cases.
  all: try apply modifies_refl.
  all: repeat match goal with
              | H : node_of _ _ _ = Ok _ |- _ => apply node_of_written in H
              | H : port_at _ _ _ = Ok _ |- _ => apply port_at_written in H
              end.
  all: try (apply modifies_set_state; apply elem_of_app; auto).
  all: eapply modifies_trans;
    (apply modifies_set_state; apply elem_of_app; auto).
Qed.

(** * The successor sets *)

Lemma elem_of_set_add x c s : x ∈ set_add c s <-> x = c \/ x ∈ s.
Proof.
  unfold set_add. case_bool_decide as Hc.
  - split; [auto|]. intros [->|H]; done.
  - rewrite elem_of_app, list_elem_of_singleton. tauto.
Qed.

Section FindSuccessors.

Variable nodes : list node.

Local Abbreviation state := (list nat * list bool)%type.

(** The loop over the connections of a node, given what a call achieves. *)
Lemma walk_loop limit :
  (forall index (st st' : state),
     find_successors limit nodes index st = Done st' ->
     walk_post nodes [index] [index] st st') ->
  forall conns (st st' : state),
    for_each conns
      (fun successor_index st1 =>
         match snd st1 !! successor_index with
         | None => Raise IndexError st1
         | Some true => Done st1
         | Some false =>
           match nodes !! successor_index with
           | None => Raise IndexError st1
           | Some m =>
             find_successors limit nodes successor_index
               (if Z.eqb (type m) OUTPUT_NODE
                then fst st1
                else set_add successor_index (fst st1),
                snd st1)
           end
         end) st = Done st' ->
    walk_post nodes conns [] st st'.
Proof.
  intros Hcall conns. induction conns as [|c conns IH]; intros st st' Hrun.
  - simpl in Hrun. injection Hrun as <-. split; try done.
    + intros t Ht. by apply elem_of_nil in Ht.
    + intros x. split; [auto|]. intros [H|(H1 & H2 & _)]; done.
  - cbn [for_each] in Hrun.
    destruct (snd st !! c) as [[|]|] eqn:Hc; [| |done].
    + (* already visited *)
      specialize (IH st st' Hrun). destruct IH as [Hlen Hmono Htg Hreach Hclosed Hsucc].
      split; try done.
      * intros t [->|Ht]%elem_of_cons; auto.
      * intros x Hx Hnx. destruct (Hreach x Hx Hnx) as (t & Ht & Hp).
        exists t. split; [by apply elem_of_cons; right|done].
    + (* a new node: walk from it *)
      destruct (nodes !! c) as [m|] eqn:Hm; [|done].
      match type of Hrun with
      | match find_successors limit nodes c ?s with _ => _ end = _ =>
        set (st0 := s) in *;
        destruct (find_successors limit nodes c st0) as [st1|e st1] eqn:Hwalk;
        [|done]
      end.
      apply Hcall in Hwalk. specialize (IH st1 st' Hrun).
      destruct Hwalk as [Hlen1 Hmono1 Htg1 Hreach1 Hclosed1 Hsucc1].
      destruct IH as [Hlen2 Hmono2 Htg2 Hreach2 Hclosed2 Hsucc2].
      subst st0. simpl in Hlen1, Hmono1, Htg1, Hreach1, Hclosed1, Hsucc1.
      assert (Hc1 : snd st1 !! c = Some true)
        by (apply Htg1; by apply list_elem_of_singleton).
      split.
      * congruence.
      * auto.
      * intros t [->|Ht]%elem_of_cons; auto.
      * intros x Hx Hnx.
        destruct (decide (snd st1 !! x = Some true)) as [Hx1|Hx1].
        -- destruct (Hreach1 x Hx1 Hnx) as (t & ->%list_elem_of_singleton & Hp).
           exists c. split; [by apply elem_of_cons; left|done].
        -- destruct (Hreach2 x Hx Hx1) as (t & Ht & Hp).
           exists t. split; [by apply elem_of_cons; right|done].
      * intros x Hx Hnx y Hxy.
        destruct (decide (snd st1 !! x = Some true)) as [Hx1|Hx1].
        -- apply Hmono2. by apply (Hclosed1 x Hx1 Hnx).
        -- by apply (Hclosed2 x Hx Hx1).
      * intros x. rewrite Hsucc2, Hsucc1.
        assert (Hout : x ∈ (if Z.eqb (type m) OUTPUT_NODE
                             then fst st else set_add c (fst st))
                       <-> x ∈ fst st \/ (x = c /\ ~ is_output nodes c)).
        { destruct (Z.eqb_spec (type m) OUTPUT_NODE) as [Ht|Ht].
          - split; [auto|]. intros [H|[-> H]]; [done|].
            destruct H. by exists m.
          - rewrite elem_of_set_add. split.
            + intros [->|H]; [|auto]. right. split; [done|].
              intros (m' & Hm' & Ht'). congruence.
            + intros [H|[-> _]]; auto. }
        rewrite Hout, list_elem_of_singleton.
        split.
        -- intros [[[H|[-> Hno]]|(Hx1 & Hnx & Hne & Hno)]|(Hx & Hx1 & _ & Hno)].
           ++ by left.
           ++ right. split; [auto|]. split; [congruence|]. split; [|done].
              intros H. by apply elem_of_nil in H.
           ++ right. split; [auto|]. split; [done|]. split; [|done].
              intros H. by apply elem_of_nil in H.
           ++ right. split; [done|]. split; [|split; [|done]].
              ** intros H. apply Hx1. auto.
              ** intros H. by apply elem_of_nil in H.
        -- intros [H|(Hx & Hnx & _ & Hno)]; [do 3 left; done|].
           destruct (decide (snd st1 !! x = Some true)) as [Hx1|Hx1].
           ++ left. destruct (decide (x = c)) as [->|Hne]; [left; right; done|].
              right. done.
           ++ right. split; [done|]. split; [done|]. split; [|done].
              intros H. by apply elem_of_nil in H.
Qed.

Lemma walk_call limit :
  forall index (st st' : state),
    find_successors limit nodes index st = Done st' ->
    walk_post nodes [index] [index] st st'.
Proof.
  induction limit as [|limit IH]; intros index st st' Hrun; [done|].
  pose proof (walk_loop limit IH) as Hloop.
  cbn [find_successors] in Hrun.
  case_bool_decide as Hlt; [|done].
  destruct (nodes !! index) as [n|] eqn:Hn; [|done].
  apply Hloop in Hrun.
  destruct Hrun as [Hlen Hmono Htg Hreach Hclosed Hsucc].
  simpl in Hlen, Hmono, Htg, Hreach, Hclosed, Hsucc.
  assert (Hnew : forall x, snd st' !! x = Some true -> snd st !! x <> Some true ->
                   x = index \/ <[index := true]> (snd st) !! x <> Some true).
  { intros x Hx Hnx. destruct (decide (x = index)) as [->|Hne]; [by left|].
    right. by rewrite list_lookup_insert_ne. }
  assert (Hidx : snd st' !! index = Some true).
  { apply Hmono. by rewrite list_lookup_insert_eq. }
  split.
  - by rewrite Hlen, length_insert.
  - intros x Hx. apply Hmono. destruct (decide (index = x)) as [->|Hne].
    + by rewrite list_lookup_insert_eq.
    + by rewrite list_lookup_insert_ne.
  - intros t ->%list_elem_of_singleton. done.
  - intros x Hx Hnx. exists index. split; [by apply list_elem_of_singleton|].
    destruct (Hnew x Hx Hnx) as [->|Hnx1]; [done|].
    destruct (Hreach x Hx Hnx1) as (t & Ht & Hp).
    eapply rtc_l; [|exact Hp]. by exists n.
  - intros x Hx Hnx y Hxy. destruct (Hnew x Hx Hnx) as [->|Hnx1].
    + destruct Hxy as (n' & Hn' & Hy). rewrite Hn in Hn'. injection Hn' as <-.
      by apply Htg.
    + by apply (Hclosed x Hx Hnx1).
  - intros x. rewrite Hsucc, list_elem_of_singleton. split.
    + intros [H|(Hx & Hnx1 & _ & Hno)]; [by left|]. right.
      split; [done|]. destruct (decide (x = index)) as [->|Hne].
      * by rewrite list_lookup_insert_eq in Hnx1.
      * by rewrite list_lookup_insert_ne in Hnx1.
    + intros [H|(Hx & Hnx & Hne & Hno)]; [by left|]. right.
      split; [done|]. split; [by rewrite list_lookup_insert_ne|].
      split; [|done]. intros H. by apply elem_of_nil in H.
Qed.

(** The successors of an output node: the nodes of its net, itself
    apart, that are not component outputs. *)
Lemma find_successors_net limit index (st' : state) :
  find_successors limit nodes index ([], replicate (length nodes) false)
    = Done st' ->
  forall x, x ∈ fst st' <->
            rtc (wire nodes) index x /\ x <> index /\ ~ is_output nodes x.
Proof.
  intros Hrun. apply walk_call in Hrun.
  destruct Hrun as [Hlen Hmono Htg Hreach Hclosed Hsucc].
  simpl in Hlen, Hmono, Htg, Hreach, Hclosed, Hsucc.
  assert (Hfresh : forall x, replicate (length nodes) false !! x <> Some true).
  { by intros x [? _]%lookup_replicate. }
  assert (Hall : forall x, rtc (wire nodes) index x -> snd st' !! x = Some true).
  { intros x Hp. revert x Hp. apply rtc_ind_r.
    - apply Htg. by apply list_elem_of_singleton.
    - intros y z _ Hyz IH. by apply (Hclosed y IH (Hfresh y)). }
  intros x. rewrite Hsucc, list_elem_of_singleton. split.
  - intros [H|(Hx & _ & Hne & Hno)]; [by apply elem_of_nil in H|].
    destruct (Hreach x Hx (Hfresh x)) as (t & ->%list_elem_of_singleton & Hp).
    done.
  - intros (Hp & Hne & Hno). right. split; [by apply Hall|]. done.
Qed.

End FindSuccessors.

(** * The propagation passes *)

Lemma collect_done {A B : Type} (f : A -> outcome B) l bs :
  collect f l = Done bs ->
  length bs = length l
  /\ forall i x, l !! i = Some x -> exists b, bs !! i = Some b /\ f x = Done b.
Proof.
  revert bs. induction l as [|x l IH]; intros bs Hrun; simpl in Hrun.
  - injection Hrun as <-. split; [done|]. intros i y Hi. by rewrite lookup_nil in Hi.
  - destruct (f x) as [b|e b] eqn:Hfx; [|done].
    destruct (collect f l) as [bs'|e bs']; [|done].
    injection Hrun as <-. destruct (IH bs' eq_refl) as [Hlen Hall].
    split; [simpl; by rewrite Hlen|].
    intros [|i] y Hi; simpl in Hi.
    + injection Hi as <-. by exists b.
    + by apply Hall.
Qed.

Lemma elem_of_rev {A : Type} (l : list A) x : x ∈ rev l <-> x ∈ l.
Proof. rewrite rev_alt. apply (elem_of_reverse x l). Qed.

Lemma assign_state_done i v (s s' : list node) :
  assign_state i v s = Done s' -> (i < length s)%nat /\ s' = set_state i v s.
Proof. unfold assign_state. case_bool_decide; [|done]. by intros [= <-]. Qed.

(** Flooding assigns the state to every successor and to nothing else. *)
Lemma flood_done successors v (s s' : list node) :
  flood successors v s = Done s' ->
  modifies successors s s'
  /\ forall x, x ∈ successors \/ has_state s x v -> has_state s' x v.
Proof.
  unfold flood. revert s. induction successors as [|y ss IH]; intros s Hrun.
  - simpl in Hrun. injection Hrun as <-. split; [apply modifies_refl|].
    intros x [Hx|Hx]; [by apply elem_of_nil in Hx|done].
  - cbn [for_each] in Hrun.
    destruct (assign_state y v s) as [s1|e s1] eqn:Hy; [|done].
    apply assign_state_done in Hy as [Hlt ->].
    destruct (IH _ Hrun) as [Hmod Hall]. split.
    + eapply modifies_trans.
      * apply modifies_set_state. by apply elem_of_cons; left.
      * eapply modifies_weaken; [|exact Hmod]. intros i Hi. by apply elem_of_cons; right.
    + intros x Hx. apply Hall.
      destruct (decide (x = y)) as [->|Hne].
      * right. by apply has_state_set_eq.
      * destruct Hx as [[->|Hx]%elem_of_cons|Hx]; [done|by left|].
        right. by apply has_state_set_ne.
Qed.

Section Passes.

Variable names : list (string * string).

Lemma node_at_lookup l (s : list node) j o :
  node_at l s j = Ok o -> l !! j = Some o.
Proof.
  unfold node_at. destruct (l !! j) as [i|]; [|done].
  destruct (get_node s i); simpl; [|done]. by intros [= ->].
Qed.

Lemma elem_of_take_1 (l : list nat) o : l !! 0%nat = Some o -> o ∈ take 1 l.
Proof. destruct l as [|x l]; simpl; [done|]. intros [= ->]. by apply list_elem_of_singleton. Qed.

Lemma update_subcircuit_modifies e s s' :
  update_subcircuit names e s = Ok s' -> modifies (take 1 (outputNodes e)) s s'.
Proof.
  intros Hrun. unfold update_subcircuit in Hrun.
  invert_reads; frame_cases; try apply modifies_refl.
  all: apply modifies_set_state, elem_of_take_1; by eapply node_at_lookup.
Qed.

Lemma maybe_update_subcircuit_input_modifies e s s' :
  maybe_update_subcircuit_input names e s = Ok s' ->
  modifies (take 1 (inputNodes e)) s s'.
Proof.
  intros Hrun. unfold maybe_update_subcircuit_input in Hrun.
  invert_reads; frame_cases; try apply modifies_refl.
  all: apply modifies_set_state, elem_of_take_1; by eapply node_at_lookup.
Qed.

(** An evaluator assigns only the output ports of the component. *)
Lemma update_element_modifies e s s' :
  update_element names e s = Ok s' -> modifies (evaluator_outputs e) s s'.
Proof.
  unfold update_element, evaluator_outputs. destruct (objectType e) as [t|].
  - intros Hrun.
    repeat match type of Hrun with
           | (if ?b then _ else _) = _ =>
             destruct b;
             [eapply update_gate_modifies; [|exact Hrun];
              by repeat constructor|]
           end.
    injection Hrun as <-. apply modifies_refl.
  - apply update_subcircuit_modifies.
Qed.

Variable element_by_node_index : registry.
Variable successors_by_node_index : list (list nat).

(** The cases of a step of the reverse pass that returns. *)
Lemma reverse_step_done k s s' :
  reverse_step names element_by_node_index successors_by_node_index k s = Done s' ->
  (~ is_output s k /\ s' = s)
  \/ (is_output s k
      /\ exists s1,
          (s1 = s
           \/ (has_state s k None
               /\ exists e, element_by_node_index !! k = Some (Some e)
                            /\ update_element names e s = Ok s1))
          /\ ((has_state s1 k None /\ s' = s1)
              \/ exists v successors,
                  has_state s1 k (Some v)
                  /\ successors_by_node_index !! k = Some successors
                  /\ flood successors (Some v) s1 = Done s')).
Proof.
  unfold reverse_step. destruct (s !! k) as [n|] eqn:Hn; [|done].
  destruct (Z.eqb_spec (type n) OUTPUT_NODE) as [Ht|Ht]; simpl.
  2: { intros [= <-]. left. split; [|done]. intros (n' & Hn' & Ht'). congruence. }
  destruct (element_by_node_index !! k) as [el|] eqn:Hel; [|done].
  intros Hrun. right. split; [by exists n|].
  set (evaluated := match el with
                    | Some e => if defined (state n) then Ok s else update_element names e s
                    | None => Ok s
                    end) in *.
  destruct evaluated as [s1|ex] eqn:Hev; [|done].
  exists s1. split.
  - subst evaluated. destruct el as [e|]; [|left; congruence].
    destruct (state n) as [v|] eqn:Hv; simpl in Hev; [left; congruence|].
    right. split; [unfold has_state; by rewrite Hn; simpl; rewrite Hv|].
    by exists e.
  - unfold get_state, get_node in Hrun.
    destruct (s1 !! k) as [n1|] eqn:Hn1; simpl in Hrun; [|done].
    destruct (state n1) as [v|] eqn:Hv1.
    + right. destruct (successors_by_node_index !! k) as [ss|]; [|done].
      exists v, ss. split; [unfold has_state; by rewrite Hn1; simpl; rewrite Hv1|done].
    + left. injection Hrun as <-.
      split; [unfold has_state; by rewrite Hn1; simpl; rewrite Hv1|done].
Qed.

(** The cases of a step of the forward pass that returns. *)
Lemma forward_step_done k s s' :
  forward_step names element_by_node_index k s = Done s' ->
  (s' = s /\ exists v, has_state s k (Some v))
  \/ (has_state s k None
      /\ exists s1,
          (s1 = s \/ exists v, s1 = set_state k (Some v) s)
          /\ (s' = s1
              \/ (is_output s k
                  /\ exists e, element_by_node_index !! k = Some (Some e)
                               /\ objectType e = None
                               /\ maybe_update_subcircuit_input names e s1 = Ok s'))).
Proof.
  unfold forward_step. destruct (s !! k) as [n|] eqn:Hn; [|done].
  destruct (state n) as [v|] eqn:Hv; simpl.
  { intros [= <-]. left. split; [done|]. exists v.
    unfold has_state. by rewrite Hn; simpl; rewrite Hv. }
  destruct (adopt s (connections n)) as [st|ex]; [|done].
  intros Hrun. right. split; [unfold has_state; by rewrite Hn; simpl; rewrite Hv|].
  exists (match st with Some v => set_state k (Some v) s | None => s end).
  split; [destruct st as [v|]; [right; by exists v|by left]|].
  destruct (Z.eqb_spec (type n) OUTPUT_NODE) as [Ht|Ht]; [|left; congruence].
  destruct (element_by_node_index !! k) as [[e|]|] eqn:He; [| left; congruence|done].
  destruct (objectType e) eqn:Hobj; [left; congruence|].
  right. split; [by exists n|]. exists e. split; [done|]. split; [done|].
  unfold run in Hrun.
  destruct (maybe_update_subcircuit_input names e _); congruence.
Qed.

(** A step of the forward pass changes only states. *)
Lemma forward_step_shape k s s' :
  forward_step names element_by_node_index k s = Done s' -> shape s' = shape s.
Proof.
  intros Hrun.
  apply forward_step_done in Hrun as [[-> _]|(_ & s1 & Hadopt & Hback)]; [done|].
  assert (H1 : shape s1 = shape s).
  { destruct Hadopt as [->|[v ->]]; [done|apply shape_set_state]. }
  destruct Hback as [->|(_ & e & _ & _ & Hrun)]; [done|].
  apply maybe_update_subcircuit_input_modifies in Hrun as [Hshape _]. congruence.
Qed.

(** A step of the reverse pass changes only states. *)
Lemma reverse_step_shape k s s' :
  reverse_step names element_by_node_index successors_by_node_index k s = Done s' ->
  shape s' = shape s.
Proof.
  intros Hrun.
  apply reverse_step_done in Hrun as [[_ ->]|(_ & s1 & Hev & Hflood)]; [done|].
  assert (H1 : shape s1 = shape s).
  { destruct Hev as [->|(_ & e & _ & Hrun)]; [done|].
    by apply update_element_modifies in Hrun as [Hs _]. }
  destruct Hflood as [[_ ->]|(v & ss & _ & _ & Hrun)]; [done|].
  apply flood_done in Hrun as [[Hs _] _]. congruence.
Qed.

(** A step of the reverse pass at a node already resolved does not run
    the evaluator: it only floods. *)
Lemma reverse_step_resolved k s s' v :
  reverse_step names element_by_node_index successors_by_node_index k s = Done s' ->
  has_state s k (Some v) ->
  (~ is_output s k /\ s' = s)
  \/ (is_output s k
      /\ exists successors, successors_by_node_index !! k = Some successors
                            /\ flood successors (Some v) s = Done s').
Proof.
  intros Hrun Hv.
  apply reverse_step_done in Hrun as [[Hno ->]|(Hk & s1 & Hev & Hflood)]; [by left|].
  right. split; [done|].
  assert (s1 = s) as ->.
  { destruct Hev as [->|(Hnone & _)]; [done|]. unfold has_state in *. congruence. }
  destruct Hflood as [[Hnone _]|(w & ss & Hw & Hss & Hrun)].
  - unfold has_state in *. congruence.
  - assert (w = v) as -> by (unfold has_state in *; congruence). by exists ss.
Qed.

End Passes.

Lemma successors_of_output names limit nodes element_by_node_index k successors :
  is_output nodes k ->
  successors_of names limit nodes element_by_node_index k = Done successors ->
  forall x, x ∈ successors <->
            rtc (wire nodes) k x /\ x <> k /\ ~ is_output nodes x.
Proof.
  intros (n & Hn & Ht) Hrun. unfold successors_of in Hrun. rewrite Hn, Ht in Hrun.
  simpl in Hrun.
  destruct (find_successors limit nodes k ([], replicate (length nodes) false))
    as [st|e st] eqn:Hwalk; [|done].
  injection Hrun as <-. by eapply find_successors_net.
Qed.

(** The successor lists hold, for every node, the set that the first
    loop has built for it, in iteration order. *)
Lemma build_successors_done names set_iter limit nodes element_by_node_index G :
  build_successors names set_iter limit nodes element_by_node_index = Done G ->
  length G = length nodes
  /\ forall k successors, G !! k = Some successors ->
       exists set, successors_of names limit nodes element_by_node_index k = Done set
                   /\ successors = set_iter set.
Proof.
  intros Hrun. apply collect_done in Hrun as [Hlen Hall].
  rewrite length_seq in Hlen. split; [done|].
  intros k ss Hk. pose proof (lookup_lt_Some _ _ _ Hk) as Hlt.
  destruct (Hall k k) as (b & Hb & Hrun); [apply lookup_seq_lt; lia|].
  destruct (successors_of names limit nodes element_by_node_index k) as [set|e set];
    [|done].
  exists set. split; [done|]. congruence.
Qed.

Lemma elem_of_set_iter set_iter (s : list nat) x :
  iteration_order set_iter -> x ∈ set_iter s <-> x ∈ s.
Proof. intros Horder. by rewrite (Horder s). Qed.

(** * The nesting of the recursive calls *)

Lemma unvisited_insert_le visited i :
  (unvisited (<[i := true]> visited) <= unvisited visited)%nat.
Proof.
  revert i. induction visited as [|b l IH]; intros [|i]; simpl; try lia.
  specialize (IH i). lia.
Qed.

Lemma unvisited_insert_new visited i :
  visited !! i = Some false ->
  S (unvisited (<[i := true]> visited)) = unvisited visited.
Proof.
  revert i. induction visited as [|b l IH]; intros [|i] Hi; simpl in *; try done.
  - by injection Hi as ->.
  - rewrite <- (IH i Hi). lia.
Qed.

Lemma unvisited_le_length visited : (unvisited visited <= length visited)%nat.
Proof. induction visited as [|[] l IH]; simpl; lia. Qed.

(** An exception of a loop is the exception of one of its steps. *)
Lemma for_each_raise {A S : Type} (body : A -> S -> outcome S) l s e s' :
  for_each l body s = Raise e s' ->
  exists x s0, x ∈ l /\ body x s0 = Raise e s'.
Proof.
  revert s. induction l as [|x l IH]; intros s Hrun; cbn [for_each] in Hrun; [done|].
  destruct (body x s) as [s1|e1 s1] eqn:Hx; [|injection Hrun as -> ->].
  - destruct (IH s1 Hrun) as (y & s0 & Hy & Hrun'). exists y, s0.
    split; [by apply elem_of_cons; right|done].
  - exists x, s. split; [by apply elem_of_cons; left|done].
Qed.

Lemma collect_raise {A B : Type} (f : A -> outcome B) l e bs :
  collect f l = Raise e bs -> exists x b, x ∈ l /\ f x = Raise e b.
Proof.
  revert bs. induction l as [|x l IH]; intros bs Hrun; cbn [collect] in Hrun; [done|].
  destruct (f x) as [b|e1 b] eqn:Hx; [|injection Hrun as -> _].
  - destruct (collect f l) as [bs'|e1 bs']; [done| ].
    injection Hrun as -> _. destruct (IH bs' eq_refl) as (y & b' & Hy & Hrun').
    exists y, b'. split; [by apply elem_of_cons; right|done].
  - exists x, b. split; [by apply elem_of_cons; left|done].
Qed.

Section WalkDepth.

Variable nodes : list node.

Local Abbreviation state := (list nat * list bool)%type.

(** A walk that may nest more calls than there are nodes left to visit
    does not raise [RecursionError], and does not add to the nodes
    left. *)
Lemma walk_depth limit :
  forall index (st : state),
    (unvisited (<[index := true]> (snd st)) < limit)%nat ->
    walk_depth_post (unvisited (<[index := true]> (snd st)))
      (find_successors limit nodes index st).
Proof.
  induction limit as [|limit IH]; intros index st Hlimit; [lia|].
  cbn [find_successors]. case_bool_decide as Hlt; [|done].
  destruct (nodes !! index) as [n|]; [|done].
  set (st1 := (fst st, <[index := true]> (snd st))).
  assert (Hloop : forall conns (st2 : state),
            (unvisited (snd st2) <= limit)%nat ->
            walk_depth_post (unvisited (snd st2))
              (for_each conns
                 (fun successor_index st1 =>
                    match snd st1 !! successor_index with
                    | None => Raise IndexError st1
                    | Some true => Done st1
                    | Some false =>
                      match nodes !! successor_index with
                      | None => Raise IndexError st1
                      | Some m =>
                        find_successors limit nodes successor_index
                          (if Z.eqb (type m) OUTPUT_NODE
                           then fst st1
                           else set_add successor_index (fst st1),
                           snd st1)
                      end
                    end) st2)).
  { induction conns as [|c conns IHc]; intros st2 Hle; [simpl; lia|].
    cbn [for_each]. destruct (snd st2 !! c) as [[|]|] eqn:Hc; [| |done].
    - by apply IHc.
    - destruct (nodes !! c) as [m|]; [|done].
      pose proof (unvisited_insert_new (snd st2) c Hc) as Hnew.
      match goal with
      | |- context [find_successors limit nodes c ?s] =>
        pose proof (IH c s) as Hcall;
        destruct (find_successors limit nodes c s) as [st3|e st3]
      end; simpl in Hcall.
      + specialize (Hcall ltac:(lia)).
        specialize (IHc st3 ltac:(lia)).
        destruct (for_each conns _ st3); simpl in *; [lia|done].
      + apply Hcall. lia. }
  apply (Hloop (connections n) st1). simpl. lia.
Qed.

End WalkDepth.

Section ComputeDepth.

Variable names : list (string * string).
Variable set_iter : list nat -> list nat.
Variable limit : nat.

(** The walk from a node of the store nests at most as many calls as
    there are nodes. *)
Lemma successors_of_depth nodes element_by_node_index index l :
  (length nodes <= limit)%nat ->
  successors_of names limit nodes element_by_node_index index
  <> Raise RecursionError l.
Proof.
  intros Hlimit. unfold successors_of.
  destruct (nodes !! index) as [n|] eqn:Hn; [|done].
  destruct (Z.eqb (type n) INPUT_NODE).
  - destruct (element_by_node_index !! index) as [[e|]|]; [|done|done].
    destruct (objectType e).
    + intros (x & acc & _ & Hx)%for_each_raise. destruct (nodes !! x); [|done].
      by destruct (_ && _).
    + destruct (scope_name names e) as [name|ex] eqn:Hname.
      * intros (x & acc & _ & Hx)%for_each_raise. by destruct (contains _ _).
      * unfold scope_name in Hname. destruct (lookup_key (id e) names); [done|].
        by injection Hname as <-.
  - destruct (Z.eqb (type n) OUTPUT_NODE); [|done].
    pose proof (walk_depth nodes limit index
                  ([], replicate (length nodes) false)) as Hwalk.
    destruct (find_successors _ _ _ _) as [st|ex st]; [done|].
    intros [= -> _]. apply Hwalk; [|done]. simpl.
    pose proof (lookup_lt_Some _ _ _ Hn) as Hlt.
    pose proof (unvisited_insert_new (replicate (length nodes) false) index
                  (lookup_replicate_2 _ _ _ Hlt)) as Hnew.
    pose proof (unvisited_le_length (replicate (length nodes) false)) as Hle.
    rewrite length_replicate in Hle. lia.
Qed.

Lemma assign_state_raise i v (s s' : list node) e :
  assign_state i v s = Raise e s' -> e = IndexError.
Proof. unfold assign_state. case_bool_decide; [done|]. by intros [= <- _]. Qed.

Lemma update_element_not_recursion e (s : list node) :
  update_element names e s <> Err RecursionError.
Proof.
  unfold update_element, update_subcircuit, scope_name, node_at, update_and_gate,
    update_demultiplexer, update_multiplexer, update_nand_gate, update_nor_gate,
    update_not_gate, update_or_gate, update_sr_flip_flop, update_tristate,
    update_xor_gate, check_arity, state_at, node_of, port_at, port_one, port_many,
    get_state, get_node.
  repeat match goal with
         | |- context [match ?x with _ => _ end] =>
           lazymatch x with
           | context [match _ with _ => _ end] => fail
           | _ => destruct x; cbn [rbind]; try discriminate
           end
         end.
Qed.

Lemma reverse_step_not_recursion element_by_node_index G k s s' :
  reverse_step names element_by_node_index G k s <> Raise RecursionError s'.
Proof.
  unfold reverse_step. destruct (s !! k) as [n|]; [|done].
  destruct (negb _); [done|].
  destruct (element_by_node_index !! k) as [el|]; [|done].
  destruct (match el with Some _ => _ | None => _ end) as [s1|ex] eqn:Hev.
  - unfold get_state, get_node. destruct (s1 !! k) as [n1|]; [|done]. simpl.
    destruct (state n1) as [v|]; [|done].
    destruct (G !! k); [|done].
    intros (x & s2 & _ & Hx)%for_each_raise. by apply assign_state_raise in Hx.
  - intros [= -> _]. destruct el as [e|]; [|done].
    destruct (defined (state n)); [done|]. by apply update_element_not_recursion in Hev.
Qed.

Lemma forward_step_not_recursion element_by_node_index k s s' :
  forward_step names element_by_node_index k s <> Raise RecursionError s'.
Proof.
  unfold forward_step. destruct (s !! k) as [n|]; [|done].
  destruct (defined _); [done|].
  destruct (adopt s (connections n)) as [st|ex] eqn:Hadopt.
  - destruct (Z.eqb _ _); [|done].
    destruct (element_by_node_index !! k) as [[e|]|]; [|done|done].
    destruct (objectType e); [done|].
    unfold run. destruct (maybe_update_subcircuit_input _ _ _) as [s1|ex] eqn:Hup; [done|].
    intros [= -> _]. revert Hup.
    unfold maybe_update_subcircuit_input, scope_name, node_at, get_state, get_node.
    repeat match goal with
           | |- context [match ?x with _ => _ end] =>
             lazymatch x with
             | context [match _ with _ => _ end] => fail
             | _ => destruct x; cbn [rbind]; try discriminate
             end
           end.
  - intros [= -> _]. revert Hadopt. clear.
    induction (connections n) as [|c l IH]; [done|]. cbn [adopt].
    unfold get_state, get_node. destruct (s !! c) as [m|]; [|done]. simpl.
    destruct (defined (state m)); [done|exact IH].
Qed.

(** The computation of the states nests the calls of its walks at most
    one deeper than there are nodes: with a larger limit it does not
    raise [RecursionError]. *)
Lemma compute_node_states_depth nodes element_by_node_index s' :
  (length nodes < limit)%nat ->
  compute_node_states names set_iter limit nodes element_by_node_index
  <> Raise RecursionError s'.
Proof.
  intros Hlimit. unfold compute_node_states.
  destruct (build_successors names set_iter limit nodes element_by_node_index)
    as [G|e G] eqn:Hbuild.
  - apply build_successors_done in Hbuild as [Hlen _]. rewrite <- Hlen.
    destruct (sort_nodes limit G (length G)) as [st|e st] eqn:Hsort.
    + unfold reverse_pass, forward_pass.
      destruct (for_each (rev (fst st)) _ nodes) as [s1|e s1] eqn:Hrev.
      * intros (x & s2 & _ & Hx)%for_each_raise.
        by apply forward_step_not_recursion in Hx.
      * intros [= -> _]. apply for_each_raise in Hrev as (x & s2 & _ & Hx).
        by apply reverse_step_not_recursion in Hx.
    + intros [= -> _]. revert Hsort. apply sort_nodes_depth. lia.
  - intros [= -> _]. unfold build_successors in Hbuild.
    apply collect_raise in Hbuild as (x & b & _ & Hx).
    destruct (successors_of names limit nodes element_by_node_index x) as [set|ex set] eqn:Hs;
      [done|].
    injection Hx as -> _. revert Hs. apply successors_of_depth. lia.
Qed.

End ComputeDepth.

(** * Running the resolution on a netlist *)

Lemma iteration_order_id : iteration_order (fun s => s).
Proof. by intros s. Qed.

Lemma iteration_order_nil set_iter : iteration_order set_iter -> set_iter [] = [].
Proof. intros Horder. apply Permutation_nil_r. by rewrite (Horder []). Qed.

Lemma iteration_order_singleton set_iter a :
  iteration_order set_iter -> set_iter [a] = [a].
Proof. intros Horder. apply Permutation_singleton_r. by rewrite (Horder [a]). Qed.

Lemma iteration_order_pair set_iter a b :
  iteration_order set_iter -> set_iter [a; b] = [a; b] \/ set_iter [a; b] = [b; a].
Proof.
  intros Horder. apply Permutation_length_2_inv. symmetry. apply (Horder [a; b]).
Qed.

Section Runs.

Variable names : list (string * string).
Variable set_iter : list nat -> list nat.
Variable limit : nat.

(** The successor lists, from the sets built for the nodes. *)
Lemma build_successors_sets nodes element_by_node_index sets :
  collect (successors_of names limit nodes element_by_node_index) (seq 0 (length nodes))
    = Done sets ->
  build_successors names set_iter limit nodes element_by_node_index
    = Done (map set_iter sets).
Proof.
  unfold build_successors. generalize (seq 0 (length nodes)). intros l. revert sets.
  induction l as [|x l IH]; intros sets Hrun; cbn [collect] in Hrun |- *.
  - by injection Hrun as <-.
  - destruct (successors_of names limit nodes element_by_node_index x) as [set|e set];
      [|done].
    destruct (collect _ l) as [sets'|e sets'] eqn:Hl; [|done].
    injection Hrun as <-. by rewrite (IH sets' eq_refl).
Qed.

(** The computation of the states, once the sets are built. *)
Lemma compute_node_states_sets nodes element_by_node_index sets :
  collect (successors_of names limit nodes element_by_node_index) (seq 0 (length nodes))
    = Done sets ->
  compute_node_states names set_iter limit nodes element_by_node_index
  = match sort_nodes limit (map set_iter sets) (length nodes) with
    | Raise ex _ => Raise ex nodes
    | Done st =>
      match reverse_pass names element_by_node_index (map set_iter sets) (fst st) nodes with
      | Done nodes1 => forward_pass names element_by_node_index (fst st) nodes1
      | r => r
      end
    end.
Proof.
  intros Hsets. unfold compute_node_states.
  by rewrite (build_successors_sets _ _ _ Hsets).
Qed.

(** The resolution, once the initialization has returned. *)
Lemma resolve_initialized elements nodes s0 element_by_node_index :
  initialize_all names elements nodes = Done (s0, element_by_node_index) ->
  resolve names set_iter limit elements nodes
  = compute_node_states names set_iter limit s0 element_by_node_index.
Proof. intros Hinit. unfold resolve. by rewrite Hinit. Qed.

End Runs.

(** The evaluation of a resolution on a netlist: the initialization and
    the sets are computed; the order of each set is left to the caller. *)
Ltac run_initialize :=
  erewrite resolve_initialized; [|vm_compute; reflexivity].

Ltac run_sets :=
  erewrite compute_node_states_sets; [|vm_compute; reflexivity]; cbn [map].

(** A recursion limit of at least [n], written [n + m]. *)
Ltac limit_from n limit H :=
  let m := fresh "m" in
  destruct (Nat.le_exists_sub n limit H) as (m & -> & _);
  rewrite (Nat.add_comm m n).

(** The sets of at most two elements have their order decided by cases. *)
Ltac fix_orders Horder :=
  rewrite ?(iteration_order_nil _ Horder), ?(iteration_order_singleton _ _ Horder);
  repeat match type of Horder with
         | iteration_order ?f =>
           match goal with
           | |- context [f [?a; ?b]] =>
             let Hp := fresh "Hp" in
             destruct (iteration_order_pair f a b Horder) as [Hp|Hp];
             rewrite Hp; clear Hp
           end
         end.

(** * Resolution of whole netlists *)

(** Case analysis of a membership in a literal list. *)
Ltac members H :=
  simpl in H;
  repeat (let E := fresh "E" in
          apply elem_of_cons in H as [E|H]; [try discriminate E; try subst|]);
  try (by apply elem_of_nil in H).


(** ** Gates with too many inputs *)

Lemma for_each_no_exception {A S : Type} (body : A -> S -> outcome S) l s :
  (forall x s, no_exception (body x s)) -> no_exception (for_each l body s).
Proof.
  intros Hbody. revert s. induction l as [|x l IH]; intros s msg a; simpl; [done|].
  specialize (Hbody x s). destruct (body x s) as [s1|e s1]; [apply IH| ].
  intros [= -> ->]. by eapply Hbody.
Qed.

Lemma set_owner_no_exception e i st : no_exception (set_owner e i st).
Proof. intros msg a. unfold set_owner. case_bool_decide; congruence. Qed.

Lemma assign_state_no_exception i v (s : list node) : no_exception (assign_state i v s).
Proof. intros msg a. unfold assign_state. case_bool_decide; congruence. Qed.

Lemma seed_no_exception nodes k v st : no_exception (seed nodes k v st).
Proof.
  intros msg a. unfold seed, port_one.
  destruct (lookup_key k nodes) as [[i|l]|]; try congruence.
  pose proof (assign_state_no_exception i (Some v) (fst st)) as Hs.
  destruct (assign_state i (Some v) (fst st)) as [s1|e s1]; try congruence.
  intros [= -> <-]. by eapply Hs.
Qed.

(** The initialization performs no arity check: it never raises
    [Exception]. *)
Lemma initialize_no_exception names e st :
  no_exception (initialize_node_states names e st).
Proof.
  unfold initialize_node_states. destruct (objectType e) as [t|].
  - pose proof (for_each_no_exception (set_owner e) (element_nodes e) st
                  (set_owner_no_exception e)) as Hreg.
    destruct (for_each (element_nodes e) (set_owner e) st) as [st1|ex st1];
      [|exact Hreg].
    repeat match goal with
           | |- no_exception (if ?b then _ else _) => destruct b
           end;
      first [apply seed_no_exception | done].
  - unfold scope_name. destruct (lookup_key (id e) names) as [name|]; [|done].
    pose proof (for_each_no_exception (set_owner e) (inputNodes e) st
                  (set_owner_no_exception e)) as Hreg.
    destruct (for_each (inputNodes e) (set_owner e) st) as [st1|ex st1];
      [|exact Hreg].
    apply for_each_no_exception. intros output st2 msg a.
    pose proof (set_owner_no_exception e output st2) as Hown.
    destruct (set_owner e output st2) as [st3|ex st3].
    + destruct (negb (contains "Normally" name)); [|done].
      pose proof (assign_state_no_exception output (Some 0) (fst st3)) as Hs.
      destruct (assign_state output (Some 0) (fst st3)) as [s1|ex s1]; try congruence.
      intros [= -> <-]. by eapply Hs.
    + apply Hown.
Qed.

Lemma state_at_in_range nodes (s : list node) inp j i :
  lookup_key "inp" nodes = Some (Many inp) -> inp !! j = Some i ->
  (i < length s)%nat -> exists v, state_at nodes s "inp" j = Ok v.
Proof.
  intros Hinp Hj Hi. unfold state_at, port_at, port_many, get_state.
  rewrite Hinp. cbn [rbind]. rewrite Hj. cbn [rbind].
  destruct (get_node_in_range s i Hi) as [n ->]. by eexists.
Qed.

Lemma check_arity_fails nodes inp n msg :
  lookup_key "inp" nodes = Some (Many inp) -> length inp <> n ->
  check_arity nodes n msg = Err (Exception msg).
Proof.
  intros Hinp Hlen. unfold check_arity, port_many. rewrite Hinp. simpl.
  by destruct (Nat.eqb_spec (length inp) n).
Qed.

(** The evaluator of a gate with too many inputs raises [Exception]. *)
Lemma oversized_gate_raises names e t m inp (s : list node) :
  objectType e = Some t -> max_inputs t = Some m ->
  lookup_key "inp" (customData_nodes e) = Some (Many inp) ->
  (m < length inp)%nat -> Forall (fun i => i < length s)%nat inp ->
  exists msg, update_element names e s = Err (Exception msg).
Proof.
  intros Hobj Hmax Hinp Hlen Hrange. unfold update_element. rewrite Hobj.
  assert (Hm : (2 <= m)%nat).
  { unfold max_inputs in Hmax.
    repeat match type of Hmax with (if ?b then _ else _) = _ => destruct b end;
      injection Hmax as <- || discriminate; lia. }
  destruct inp as [|i0 [|i1 inp]]; simpl in Hlen; try lia.
  apply Forall_cons in Hrange as [H0 [H1 _]%Forall_cons].
  destruct (state_at_in_range (customData_nodes e) s (i0 :: i1 :: inp) 0 i0 Hinp eq_refl H0)
    as [v0 Hv0].
  destruct (state_at_in_range (customData_nodes e) s (i0 :: i1 :: inp) 1 i1 Hinp eq_refl H1)
    as [v1 Hv1].
  unfold max_inputs in Hmax.
  destruct (String.eqb_spec t "OrGate") as [->|Hor].
  { injection Hmax as <-. simpl. unfold update_or_gate.
    rewrite Hv0, Hv1. unfold port_many at 1. rewrite Hinp. cbn [rbind].
    destruct (Nat.eqb_spec (length (i0 :: i1 :: inp)) 3) as [E|_]; [simpl in E; lia|].
    rewrite (check_arity_fails _ (i0 :: i1 :: inp) 2) by (done || (simpl; lia)).
    by eexists. }
  destruct (String.eqb_spec t "AndGate") as [->|Hand].
  { injection Hmax as <-. simpl. unfold update_and_gate. rewrite Hv0, Hv1. cbn [rbind].
    rewrite (check_arity_fails _ (i0 :: i1 :: inp) 2) by (done || (simpl; lia)).
    by eexists. }
  destruct (String.eqb_spec t "NandGate") as [->|Hnand].
  { injection Hmax as <-. simpl. unfold update_nand_gate. rewrite Hv0, Hv1. cbn [rbind].
    rewrite (check_arity_fails _ (i0 :: i1 :: inp) 2) by (done || (simpl; lia)).
    by eexists. }
  destruct (String.eqb_spec t "NorGate") as [->|Hnor].
  { injection Hmax as <-. simpl. unfold update_nor_gate. rewrite Hv0, Hv1. cbn [rbind].
    rewrite (check_arity_fails _ (i0 :: i1 :: inp) 2) by (done || (simpl; lia)).
    by eexists. }
  destruct (String.eqb_spec t "XorGate") as [->|Hxor].
  { injection Hmax as <-. simpl. unfold update_xor_gate. rewrite Hv0, Hv1. cbn [rbind].
    rewrite (check_arity_fails _ (i0 :: i1 :: inp) 2) by (done || (simpl; lia)).
    by eexists. }
  destruct (String.eqb_spec t "Multiplexer") as [->|Hmux]; [|discriminate].
  injection Hmax as <-. simpl. unfold update_multiplexer. rewrite Hv0, Hv1. cbn [rbind].
  rewrite (check_arity_fails _ (i0 :: i1 :: inp) 2) by (done || (simpl; lia)).
  by eexists.
Qed.

Lemma reverse_step_raises names (element_by_node_index : registry) G k e
    (s : list node) ex :
  is_output s k -> has_state s k None ->
  element_by_node_index !! k = Some (Some e) ->
  update_element names e s = Err ex ->
  reverse_step names element_by_node_index G k s = Raise ex s.
Proof.
  intros (n & Hn & Ht) Hnone He Hrun. unfold reverse_step.
  rewrite Hn, Ht, He. simpl. unfold has_state in Hnone. rewrite Hn in Hnone.
  injection Hnone as ->. simpl. by rewrite Hrun.
Qed.

(** C6 as stated fails.  On [and3_nodes], whose AND gate has three
    inputs, the initialization returns normally and has seeded the power
    source; the error is raised later, by the evaluator, in the reverse
    pass, after the first input of the gate has been flooded, whatever
    the iteration order of the sets and the recursion limit above the
    number of nodes. *)
Lemma oversized_gate_counterexample :
  exists s0 element_by_node_index s',
    initialize_all [] and3_elements and3_nodes = Done (s0, element_by_node_index)
    /\ has_state and3_nodes 0 None /\ has_state s0 0 (Some 1)
    /\ (forall set_iter limit, iteration_order set_iter -> (5 < limit)%nat ->
          resolve [] set_iter limit and3_elements and3_nodes
          = Raise (Exception "Unsupported and gate (>2 inputs)") s')
    /\ has_state and3_nodes 1 None /\ has_state s' 1 (Some 1).
Proof.
  do 2 eexists. exists and3_flooded.
  split; [vm_compute; reflexivity|].
  split; [reflexivity|]. split; [reflexivity|].
  split; [|split; reflexivity].
  intros set_iter limit Horder Hlimit. limit_from 6%nat limit Hlimit.
  run_initialize. run_sets. fix_orders Horder; vm_compute; reflexivity.
Qed.

(** C6, amended.  For a gate with more inputs than its evaluator
    accepts (all of them nodes): the initialization of the gate never
    raises [Exception]; the evaluator does, and the step of the reverse
    pass that visits an output of the gate that is still Unknown raises
    it, with the store as the earlier steps have left it. *)
Theorem oversized_gate_raises_in_reverse_pass names
    (element_by_node_index : registry) (G : list (list nat)) (k : nat)
    (s : list node) (e : element) (t : string) (m : nat) (inp : list nat) :
  objectType e = Some t -> max_inputs t = Some m ->
  lookup_key "inp" (customData_nodes e) = Some (Many inp) ->
  (m < length inp)%nat -> Forall (fun i => i < length s)%nat inp ->
  element_by_node_index !! k = Some (Some e) ->
  is_output s k -> has_state s k None ->
  (forall st, no_exception (initialize_node_states names e st))
  /\ exists msg,
       update_element names e s = Err (Exception msg)
       /\ reverse_step names element_by_node_index G k s = Raise (Exception msg) s.
Proof.
  intros Hobj Hmax Hinp Hlen Hrange He Hk Hnone.
  split; [intros st; apply initialize_no_exception|].
  destruct (oversized_gate_raises names e t m inp s Hobj Hmax Hinp Hlen Hrange)
    as [msg Hmsg].
  exists msg. split; [done|]. by eapply reverse_step_raises.
Qed.

Lemma oversized_gate_raises_in_reverse_pass_witness :
  exists msg,
    update_element [] and3_gate and3_flooded = Err (Exception msg)
    /\ reverse_step [] and3_registry [] 4 and3_flooded
       = Raise (Exception msg) and3_flooded.
Proof.
  refine (proj2 (oversized_gate_raises_in_reverse_pass [] and3_registry [] 4
                   and3_flooded and3_gate "AndGate" 2 [1; 2; 3]%nat
                   _ _ _ _ _ _ _ _)); try reflexivity.
  - simpl. lia.
  - repeat constructor; simpl; lia.
  - eexists. split; reflexivity.
Defined.

(** ** The loop-breaker *)

(** C9. A single NOT gate flagged "UP" whose output is wired back to its
    input, directly or through a junction: for every iteration order of
    the sets and every recursion limit above the number of nodes, the
    resolution returns, and the output, the input and the junction end
    High.  The seeding has set the output High before the states are
    computed, and the step of the reverse pass at the output, already
    resolved, floods without running the evaluator.  Without the flag
    the same netlist raises the cycle error. *)
Theorem not_gate_loop_breaker names set_iter limit :
  iteration_order set_iter -> (3 < limit)%nat ->
  resolve names set_iter limit [loop_not "UP"] loop_nodes
    = Done [ Node INPUT_NODE (Some 1) [1%nat]; Node OUTPUT_NODE (Some 1) [0%nat] ]
  /\ resolve names set_iter limit [loop_not "UP"] junction_loop_nodes
    = Done [ Node INPUT_NODE (Some 1) [2%nat]; Node OUTPUT_NODE (Some 1) [2%nat];
             Node 2 (Some 1) [0%nat; 1%nat] ]
  /\ (exists s0 element_by_node_index G node_status,
        initialize_all names [loop_not "UP"] loop_nodes = Done (s0, element_by_node_index)
        /\ has_state s0 1 (tri_state High)
        /\ build_successors names set_iter limit s0 element_by_node_index = Done G
        /\ sort_nodes limit G 2 = Done ([0; 1]%nat, node_status)
        /\ reverse_step names element_by_node_index G 1 s0 = flood [0%nat] (Some 1) s0)
  /\ (forall (element_by_node_index : registry) G k (s s' : list node) v,
        reverse_step names element_by_node_index G k s = Done s' ->
        has_state s k (Some v) ->
        (~ is_output s k /\ s' = s)
        \/ (is_output s k
            /\ exists successors,
                G !! k = Some successors /\ flood successors (Some v) s = Done s'))
  /\ resolve names set_iter limit [loop_not "RIGHT"] loop_nodes
    = Raise (Exception "Cyclic graph!") loop_nodes.
Proof.
  intros Horder Hlimit. limit_from 4%nat limit Hlimit.
  split; [run_initialize; run_sets; fix_orders Horder; vm_compute; reflexivity|].
  split; [run_initialize; run_sets; fix_orders Horder; vm_compute; reflexivity|].
  split.
  { do 2 eexists. exists [[]; [0%nat]]. eexists.
    split; [vm_compute; reflexivity|]. split; [reflexivity|].
    split; [|split; vm_compute; reflexivity].
    erewrite build_successors_sets; [|vm_compute; reflexivity]. cbn [map].
    by fix_orders Horder. }
  split; [|run_initialize; run_sets; fix_orders Horder; vm_compute; reflexivity].
  intros ebi G k s s' v. apply reverse_step_resolved.
Qed.

Lemma not_gate_loop_breaker_witness :
  is_output loop_seeded 1
  /\ exists successors,
       loop_graph !! 1%nat = Some successors
       /\ flood successors (Some 1) loop_seeded
          = Done [ Node INPUT_NODE (Some 1) [1%nat]; Node OUTPUT_NODE (Some 1) [0%nat] ].
Proof.
  destruct (not_gate_loop_breaker [] (fun s => s) 1000 iteration_order_id)
    as (_ & _ & _ & Hguard & _); [lia|].
  destruct (Hguard loop_registry loop_graph 1%nat loop_seeded
              [ Node INPUT_NODE (Some 1) [1%nat]; Node OUTPUT_NODE (Some 1) [0%nat] ] 1)
    as [[Hno _]|Hyes]; [reflexivity|reflexivity| |exact Hyes].
  destruct Hno. eexists. split; reflexivity.
Defined.

(** * Further properties of the evaluators *)

Lemma set_state_same (s : list node) i v : has_state s i v -> set_state i v s = s.
Proof.
  unfold has_state, set_state. revert i.
  induction s as [|n s IH]; intros [|i] H; simpl in *; try done.
  - injection H as <-. by destruct n.
  - f_equal. by apply IH.
Qed.

Lemma has_state_in_range (s : list node) i v : has_state s i v -> (i < length s)%nat.
Proof.
  unfold has_state. intros H. destruct (s !! i) eqn:Hi; [|done].
  by eapply lookup_lt_Some.
Qed.

(** ** Tri-state buffer *)

(** X1: with the input and the enable defined, the buffer copies the input
    to the output when the enable is 1 and otherwise erases the state of
    the output, also a defined one; with the input or the enable
    Unknown it leaves the store as it is. *)
Theorem tristate_buffer_copies_or_erases nodes (all_nodes : list node)
    ii ic o (vi vc : option Z) :
  lookup_key "inp1" nodes = Some (One ii) ->
  lookup_key "state" nodes = Some (One ic) ->
  lookup_key "output1" nodes = Some (One o) ->
  has_state all_nodes ii vi -> has_state all_nodes ic vc ->
  (o < length all_nodes)%nat ->
  exists all_nodes',
    update_tristate nodes all_nodes = Ok all_nodes'
    /\ (forall d, vi = Some d -> vc = Some 1 -> has_state all_nodes' o (Some d))
    /\ (forall d c, vi = Some d -> vc = Some c -> c <> 1 -> has_state all_nodes' o None)
    /\ (vi = None \/ vc = None -> all_nodes' = all_nodes)
    /\ modifies [o] all_nodes all_nodes'.
Proof.
  intros Hi Hc Ho Hvi Hvc Hlt. unfold update_tristate.
  rewrite (state_of_port nodes all_nodes "inp1" ii vi) by assumption.
  rewrite (state_of_port nodes all_nodes "state" ic vc) by assumption.
  rewrite (node_of_in_range nodes all_nodes "output1" o) by assumption.
  cbn [rbind].
  exists (if defined vi && defined vc
          then set_state o (if state_is 1 vc then vi else None) all_nodes
          else all_nodes).
  split; [by destruct (defined vi && defined vc)|].
  split; [|split; [|split]].
  - intros d -> ->. simpl. by apply has_state_set_eq.
  - intros d c -> -> Hne. simpl. destruct (Z.eqb_spec c 1); [done|].
    by apply has_state_set_eq.
  - intros [-> | ->]; [reflexivity|]. by rewrite andb_false_r.
  - destruct (defined vi && defined vc); [|apply modifies_refl].
    apply modifies_set_state. by apply list_elem_of_singleton.
Qed.

Lemma tristate_buffer_copies_or_erases_witness :
  exists all_nodes',
    update_tristate buffer_ports (buffer_store (Some 1) (Some 0) (Some 1)) = Ok all_nodes'
    /\ has_state all_nodes' 2 None.
Proof.
  destruct (tristate_buffer_copies_or_erases buffer_ports
              (buffer_store (Some 1) (Some 0) (Some 1)) 0 1 2 (Some 1) (Some 0))
    as (s & Hs & _ & Herase & _); try reflexivity; [simpl; lia|].
  exists s. split; [exact Hs|]. by apply (Herase 1 0).
Defined.

(** ** Relays *)

Section Relay.

Variable names : list (string * string).
Variable e : element.
Variable name : string.
Variables ii ic o : nat.
Hypothesis signal : inputNodes e !! 0%nat = Some ii.
Hypothesis coil : inputNodes e !! 1%nat = Some ic.
Hypothesis output : outputNodes e !! 0%nat = Some o.
Hypothesis named : lookup_key (id e) names = Some name.

Lemma node_at_in_range l (s : list node) j i :
  l !! j = Some i -> (i < length s)%nat -> node_at l s j = Ok i.
Proof.
  intros Hj Hi. unfold node_at. rewrite Hj.
  destruct (get_node_in_range s i Hi) as [n ->]. reflexivity.
Qed.

Lemma update_subcircuit_table (s : list node) vi vc :
  has_state s ii vi -> has_state s ic vc -> (o < length s)%nat ->
  update_subcircuit names e s
  = Ok (if defined vi && conducts name vc then set_state o vi s else s).
Proof.
  intros Hvi Hvc Ho. unfold update_subcircuit, scope_name, conducts.
  rewrite (node_at_in_range _ s 0 ii signal (has_state_in_range _ _ _ Hvi)).
  rewrite (node_at_in_range _ s 1 ic coil (has_state_in_range _ _ _ Hvc)).
  rewrite (node_at_in_range _ s 0 o output Ho).
  cbn [rbind]. rewrite (get_state_has_state s ii vi Hvi).
  rewrite (get_state_has_state s ic vc Hvc). rewrite named. cbn [rbind].
  destruct (contains "NormallyClosed" name);
    by destruct (defined vi), (state_is 1 vc).
Qed.

Lemma maybe_update_subcircuit_input_table (s : list node) vc vo :
  (ii < length s)%nat -> has_state s ic vc -> has_state s o vo ->
  maybe_update_subcircuit_input names e s
  = Ok (if defined vo && conducts name vc then set_state ii vo s else s).
Proof.
  intros Hi Hvc Hvo. unfold maybe_update_subcircuit_input, scope_name, conducts.
  rewrite (node_at_in_range _ s 0 ii signal Hi).
  rewrite (node_at_in_range _ s 1 ic coil (has_state_in_range _ _ _ Hvc)).
  rewrite (node_at_in_range _ s 0 o output (has_state_in_range _ _ _ Hvo)).
  cbn [rbind]. rewrite (get_state_has_state s ic vc Hvc).
  rewrite (get_state_has_state s o vo Hvo). rewrite named. cbn [rbind].
  destruct (contains "NormallyClosed" name);
    by destruct (defined vo), (state_is 1 vc).
Qed.

End Relay.

(** X2: the forward and the backward rule of a relay use the same
    condition, and agree.  When the relay conducts and its signal input
    is defined, the forward rule copies the input to the output and the
    backward rule then changes nothing; when it conducts and its output
    is defined, the backward rule copies the output to the input and the
    forward rule then changes nothing; when it does not conduct, neither
    rule assigns anything.  With the coil Unknown, a normally-closed
    relay conducts and any other does not. *)
Theorem relay_rules_agree names (e : element) (name : string) (ii ic o : nat)
    (s : list node) (vi vc vo : option Z) :
  inputNodes e !! 0%nat = Some ii ->
  inputNodes e !! 1%nat = Some ic ->
  outputNodes e !! 0%nat = Some o ->
  lookup_key (id e) names = Some name ->
  has_state s ii vi -> has_state s ic vc -> has_state s o vo ->
  ii <> o -> ic <> o -> ic <> ii ->
  (conducts name vc = true -> defined vi = true ->
   exists s1, update_subcircuit names e s = Ok s1
              /\ has_state s1 o vi
              /\ maybe_update_subcircuit_input names e s1 = Ok s1)
  /\ (conducts name vc = true -> defined vo = true ->
      exists s1, maybe_update_subcircuit_input names e s = Ok s1
                 /\ has_state s1 ii vo
                 /\ update_subcircuit names e s1 = Ok s1)
  /\ (conducts name vc = false ->
      update_subcircuit names e s = Ok s
      /\ maybe_update_subcircuit_input names e s = Ok s)
  /\ conducts name None = contains "NormallyClosed" name.
Proof.
  intros Hii Hic Ho Hname Hvi Hvc Hvo Hio Hco Hci.
  pose proof (has_state_in_range _ _ _ Hvi) as Hilt.
  pose proof (has_state_in_range _ _ _ Hvo) as Holt.
  split; [|split; [|split]].
  - intros Hcond Hdef. exists (set_state o vi s).
    assert (H1 : has_state (set_state o vi s) o vi) by by apply has_state_set_eq.
    split; [|split; [done|]].
    + rewrite (update_subcircuit_table names e name ii ic o Hii Hic Ho Hname s vi vc)
        by assumption.
      by rewrite Hcond, Hdef.
    + rewrite (maybe_update_subcircuit_input_table names e name ii ic o
                 Hii Hic Ho Hname (set_state o vi s) vc vi).
      * rewrite Hcond, Hdef. simpl. f_equal. apply set_state_same.
        apply has_state_set_ne; [congruence|done].
      * by rewrite length_set_state.
      * apply has_state_set_ne; [congruence|done].
      * done.
  - intros Hcond Hdef. exists (set_state ii vo s).
    assert (H1 : has_state (set_state ii vo s) ii vo) by by apply has_state_set_eq.
    split; [|split; [done|]].
    + rewrite (maybe_update_subcircuit_input_table names e name ii ic o
                 Hii Hic Ho Hname s vc vo) by assumption.
      by rewrite Hcond, Hdef.
    + rewrite (update_subcircuit_table names e name ii ic o Hii Hic Ho Hname
                 (set_state ii vo s) vo vc).
      * rewrite Hcond, Hdef. simpl. f_equal. apply set_state_same.
        apply has_state_set_ne; [congruence|done].
      * done.
      * apply has_state_set_ne; [congruence|done].
      * by rewrite length_set_state.
  - intros Hcond. split.
    + rewrite (update_subcircuit_table names e name ii ic o Hii Hic Ho Hname s vi vc)
        by assumption.
      by rewrite Hcond, andb_false_r.
    + rewrite (maybe_update_subcircuit_input_table names e name ii ic o
                 Hii Hic Ho Hname s vc vo) by assumption.
      by rewrite Hcond, andb_false_r.
  - unfold conducts. by destruct (contains "NormallyClosed" name).
Qed.

Lemma relay_rules_agree_witness :
  exists s1,
    update_subcircuit relay_names relay_instance (relay_store (Some 0) (Some 1) None)
      = Ok s1
    /\ has_state s1 2 (Some 0)
    /\ maybe_update_subcircuit_input relay_names relay_instance s1 = Ok s1.
Proof.
  refine (proj1 (relay_rules_agree relay_names relay_instance "NormallyOpen" 0 1 2
                   (relay_store (Some 0) (Some 1) None) (Some 0) (Some 1) None
                   _ _ _ _ _ _ _ _ _ _) _ _);
    try reflexivity; lia.
Defined.

(** ** Frame of the evaluators *)

(** X3: an evaluator that returns has kept the number of nodes, their
    types and their wires, and has changed states only at the output
    ports of the component: the nodes listed under ['output1'] and
    ['qOutput'], or the first output of a sub-circuit.  A component
    whose type has no evaluator is left alone. *)
Theorem update_element_changes_outputs_only names (e : element) (s s' : list node) :
  update_element names e s = Ok s' ->
  length s' = length s
  /\ shape s' = shape s
  /\ (forall i, i ∉ evaluator_outputs e -> s' !! i = s !! i)
  /\ (forall t, objectType e = Some t -> t ∉ evaluated_types -> s' = s).
Proof.
  intros Hrun.
  assert (Hmod : modifies (evaluator_outputs e) s s').
  { unfold evaluator_outputs, update_element in *. destruct (objectType e) as [t|].
    - repeat match type of Hrun with
             | (if ?b then _ else _) = _ =>
               destruct b;
               [eapply update_gate_modifies; [|exact Hrun]; by repeat constructor|]
             end.
      injection Hrun as <-. apply modifies_refl.
    - by apply update_subcircuit_modifies in Hrun. }
  destruct Hmod as [Hshape Hframe].
  split; [by apply shape_length|]. split; [done|]. split; [done|].
  intros t Hobj Ht. unfold update_element in Hrun. rewrite Hobj in Hrun.
  cbv zeta in Hrun. unfold evaluated_types in Ht.
  repeat match type of Hrun with
         | (if String.eqb t ?k then _ else _) = _ =>
           destruct (String.eqb_spec t k) as [Heq|_];
           [exfalso; apply Ht; rewrite Heq; by repeat constructor|cbv iota in Hrun]
         end.
  by injection Hrun as <-.
Qed.

Lemma update_element_changes_outputs_only_witness :
  length (set_state 3 (Some 0) gate_store) = length gate_store
  /\ set_state 3 (Some 0) gate_store !! 0%nat = gate_store !! 0%nat.
Proof.
  destruct (update_element_changes_outputs_only []
              (component "AndGate" gate2 "RIGHT") gate_store
              (set_state 3 (Some 0) gate_store)) as (Hlen & _ & Hframe & _);
    [reflexivity|].
  split; [exact Hlen|]. apply Hframe.
  unfold evaluator_outputs, port_indices. simpl. intros H.
  apply elem_of_cons in H as [H|H]; [discriminate|by apply elem_of_nil in H].
Defined.

(** * Initialization *)

Lemma length_registry_insert (r : registry) i x : length (<[i := x]> r) = length r.
Proof. apply length_insert. Qed.

Lemma length_register e l (r : registry) : length (register e l r) = length r.
Proof.
  unfold register. revert r. induction l as [|i l IH]; intros r; cbn [foldl]; [done|].
  rewrite IH. apply length_registry_insert.
Qed.

Lemma register_app e l1 l2 (r : registry) :
  register e (l1 ++ l2) r = register e l2 (register e l1 r).
Proof. unfold register. apply foldl_app. Qed.

Lemma register_cons e i l (r : registry) :
  register e (i :: l) r = register e l (<[i := Some e]> r).
Proof. reflexivity. Qed.

Lemma lookup_register_ne e l (r : registry) i :
  i ∉ l -> register e l r !! i = r !! i.
Proof.
  revert r. induction l as [|j l IH]; intros r Hi; [done|].
  apply not_elem_of_cons in Hi as [Hne Hi]. rewrite register_cons, IH by done.
  by apply list_lookup_insert_ne.
Qed.

Lemma lookup_register e l (r : registry) i :
  i ∈ l -> (i < length r)%nat -> register e l r !! i = Some (Some e).
Proof.
  revert r. induction l as [|j l IH]; intros r Hi Hlt.
  - by apply elem_of_nil in Hi.
  - rewrite register_cons. destruct (decide (i ∈ l)) as [Hin|Hout].
    + apply IH; [done|]. by rewrite length_registry_insert.
    + apply elem_of_cons in Hi as [->|Hi]; [|done].
      rewrite (lookup_register_ne e l _ j Hout). by apply list_lookup_insert_eq.
Qed.

Lemma set_owner_done e i (st st' : list node * registry) :
  set_owner e i st = Done st' ->
  (i < length (snd st))%nat /\ st' = (fst st, <[i := Some e]> (snd st)).
Proof. unfold set_owner. case_bool_decide; [|done]. by intros [= <-]. Qed.

Lemma set_owner_in_range e i (st : list node * registry) :
  (i < length (snd st))%nat ->
  set_owner e i st = Done (fst st, <[i := Some e]> (snd st)).
Proof. intros Hi. unfold set_owner. by rewrite bool_decide_eq_true_2. Qed.

Lemma set_owner_loop_done e l (st st' : list node * registry) :
  for_each l (set_owner e) st = Done st' ->
  Forall (fun i => i < length (snd st))%nat l
  /\ st' = (fst st, register e l (snd st)).
Proof.
  revert st. induction l as [|i l IH]; intros st Hrun; cbn [for_each] in Hrun.
  - injection Hrun as <-. split; [constructor|by destruct st].
  - destruct (set_owner e i st) as [st1|ex st1] eqn:Hown; [|done].
    apply set_owner_done in Hown as [Hi ->].
    apply IH in Hrun as [Hall ->]. cbn [fst snd] in *. rewrite length_registry_insert in Hall.
    split; [by constructor|done].
Qed.

Lemma set_owner_loop_in_range e l (st : list node * registry) :
  Forall (fun i => i < length (snd st))%nat l ->
  for_each l (set_owner e) st = Done (fst st, register e l (snd st)).
Proof.
  revert st. induction l as [|i l IH]; intros st Hall; cbn [for_each].
  - by destruct st.
  - apply Forall_cons in Hall as [Hi Hall]. rewrite set_owner_in_range by done.
    rewrite IH; [done|]. cbn [fst snd]. by rewrite length_registry_insert.
Qed.

Lemma set_owner_loop_stops e l1 bad l2 (st : list node * registry) :
  Forall (fun i => i < length (snd st))%nat l1 -> (length (snd st) <= bad)%nat ->
  for_each (l1 ++ bad :: l2) (set_owner e) st
  = Raise IndexError (fst st, register e l1 (snd st)).
Proof.
  revert st. induction l1 as [|i l1 IH]; intros st Hall Hbad.
  - cbn [app for_each]. unfold set_owner. rewrite bool_decide_eq_false_2 by lia.
    by destruct st.
  - apply Forall_cons in Hall as [Hi Hall]. cbn [app for_each].
    rewrite set_owner_in_range by done.
    rewrite IH; [done| |]; cbn [fst snd]; by rewrite length_registry_insert.
Qed.

Lemma seeds_only_refl W s : seeds_only W s s.
Proof. split; [apply modifies_refl|]. intros i v H. by exists v. Qed.

Lemma seeds_only_set_state W (s : list node) i v :
  i ∈ W -> (i < length s)%nat -> seeds_only W s (set_state i (Some v) s).
Proof.
  intros Hi Hlt. split; [by apply modifies_set_state|].
  intros j w Hj. destruct (decide (i = j)) as [->|Hne].
  - exists v. by apply has_state_set_eq.
  - exists w. by apply has_state_set_ne.
Qed.

Lemma seeds_only_trans W s1 s2 s3 :
  seeds_only W s1 s2 -> seeds_only W s2 s3 -> seeds_only W s1 s3.
Proof.
  intros [Hm1 Hd1] [Hm2 Hd2]. split; [by eapply modifies_trans|].
  intros i v Hi. destruct (Hd1 i v Hi) as [w Hw]. by apply (Hd2 i w).
Qed.

Lemma seed_done nodes k v (st st' : list node * registry) :
  seed nodes k v st = Done st' ->
  snd st' = snd st /\ seeds_only (port_indices nodes k) (fst st) (fst st').
Proof.
  unfold seed, port_one, port_indices.
  destruct (lookup_key k nodes) as [[i|l]|]; try done.
  destruct (assign_state i (Some v) (fst st)) as [s1|ex s1] eqn:Hs; try done.
  intros [= <-]. apply assign_state_done in Hs as [Hlt ->]. split; [done|].
  simpl. apply seeds_only_set_state; [by apply list_elem_of_singleton|done].
Qed.

Lemma seeds_only_weaken W W' s s' :
  (forall i, i ∈ W -> i ∈ W') -> seeds_only W s s' -> seeds_only W' s s'.
Proof. intros Hsub [Hm Hd]. split; [by eapply modifies_weaken|done]. Qed.

(** The loop over the outputs of a sub-circuit. *)
Lemma subcircuit_outputs_done e (relay : bool) l (st st' : list node * registry) :
  for_each l
    (fun output st2 =>
       match set_owner e output st2 with
       | Done st3 =>
         if negb relay
         then
           match assign_state output (Some 0) (fst st3) with
           | Done all_nodes => Done (all_nodes, snd st3)
           | Raise ex all_nodes => Raise ex (all_nodes, snd st3)
           end
         else Done st3
       | r => r
       end) st = Done st' ->
  Forall (fun i => i < length (snd st))%nat l
  /\ snd st' = register e l (snd st)
  /\ seeds_only l (fst st) (fst st')
  /\ (relay = true -> fst st' = fst st)
  /\ (relay = false -> forall o, o ∈ l -> has_state (fst st') o (Some 0)).
Proof.
  revert st. induction l as [|i l IH]; intros st Hrun; cbn [for_each] in Hrun.
  - injection Hrun as <-. split; [constructor|]. split; [done|].
    split; [apply seeds_only_refl|]. split; [done|].
    intros _ o Ho. by apply elem_of_nil in Ho.
  - destruct (set_owner e i st) as [st1|ex st1] eqn:Hown; [|done].
    apply set_owner_done in Hown as [Hi ->]. cbn [fst snd] in Hrun.
    destruct relay; cbn [negb] in Hrun.
    + apply IH in Hrun as (Hall & Hreg & Hseed & Hsame & _).
      cbn [fst snd] in *. rewrite length_registry_insert in Hall.
      split; [by constructor|]. split; [done|]. split; [|split; [|done]].
      * eapply seeds_only_weaken; [|exact Hseed]. intros j Hj. by apply elem_of_cons; right.
      * intros _. by apply Hsame.
    + destruct (assign_state i (Some 0) (fst st)) as [s1|ex s1] eqn:Hs; try done.
      apply assign_state_done in Hs as [Hlt ->].
      apply IH in Hrun as (Hall & Hreg & Hseed & _ & Hzero).
      cbn [fst snd] in *. rewrite length_registry_insert in Hall.
      split; [by constructor|]. split; [done|]. split; [|split; [done|]].
      * eapply seeds_only_trans.
        -- apply seeds_only_set_state; [by apply elem_of_cons; left|done].
        -- eapply seeds_only_weaken; [|exact Hseed].
           intros j Hj. by apply elem_of_cons; right.
      * intros _ o Ho. destruct (decide (o ∈ l)) as [Hin|Hout]; [by apply Hzero|].
        apply elem_of_cons in Ho as [->|Ho]; [|done].
        destruct Hseed as [Hm _].
        eapply modifies_has_state; [exact Hm|done|].
        by apply has_state_set_eq.
Qed.

Lemma initialize_done names e (s : list node) (r : registry) s' r' :
  initialize_node_states names e (s, r) = Done (s', r') ->
  Forall (fun i => i < length r)%nat (ports_of e)
  /\ r' = register e (ports_of e) r
  /\ seeds_only (seeded_ports e) s s'.
Proof.
  unfold initialize_node_states, ports_of, seeded_ports.
  destruct (objectType e) as [t|].
  - destruct (for_each (element_nodes e) (set_owner e) (s, r)) as [st1|ex st1] eqn:Hreg;
      [|done].
    apply set_owner_loop_done in Hreg as [Hall ->]. cbn [fst snd] in *.
    intros Hrun. split; [done|].
    assert (Hseed : forall k v,
              seed (customData_nodes e) k v (s, register e (element_nodes e) r)
              = Done (s', r') ->
              k = "output1" \/ k = "qOutput" ->
              r' = register e (element_nodes e) r
              /\ seeds_only (port_indices (customData_nodes e) "output1"
                             ++ port_indices (customData_nodes e) "qOutput") s s').
    { intros k v Hs Hk. apply seed_done in Hs as [Hr Hs]. simpl in Hr, Hs.
      split; [done|]. eapply seeds_only_weaken; [|exact Hs].
      intros i Hi. apply elem_of_app. destruct Hk as [-> | ->]; auto. }
    repeat match type of Hrun with
           | (if ?b then _ else _) = _ => destruct b
           end;
      try (eapply Hseed; [exact Hrun|auto]).
    all: injection Hrun as <- <-; split; [done|apply seeds_only_refl].
  - unfold scope_name. destruct (lookup_key (id e) names) as [name|]; [|done].
    destruct (for_each (inputNodes e) (set_owner e) (s, r)) as [st1|ex st1] eqn:Hreg;
      [|done].
    apply set_owner_loop_done in Hreg as [Hall ->]. cbn [fst snd] in *.
    intros Hrun.
    apply (subcircuit_outputs_done e (contains "Normally" name)) in Hrun
      as (Hall2 & Hreg & Hseed & _).
    cbn [fst snd] in *. rewrite length_register in Hall2.
    split; [by apply Forall_app|]. split; [by rewrite register_app|done].
Qed.

(** X4: an initialization that returns has registered the component as the
    owner of all its ports, which are all inside the registry, and has
    left the other entries of the registry as they were.  In the store
    it has changed states only, only at ports that it can seed, and has
    erased none: a node resolved before is resolved after. *)
Theorem initialize_registers_ports names e (s : list node) (r : registry) s' r' :
  initialize_node_states names e (s, r) = Done (s', r') ->
  length r' = length r
  /\ (forall i, i ∈ ports_of e -> (i < length r)%nat /\ r' !! i = Some (Some e))
  /\ (forall i, i ∉ ports_of e -> r' !! i = r !! i)
  /\ shape s' = shape s
  /\ (forall i, i ∉ seeded_ports e -> s' !! i = s !! i)
  /\ (forall i v, has_state s i (Some v) -> exists w, has_state s' i (Some w)).
Proof.
  intros Hrun. apply initialize_done in Hrun as (Hall & -> & [[Hshape Hframe] Hkeep]).
  split; [apply length_register|]. split; [|split; [|done]].
  - intros i Hi. rewrite Forall_forall in Hall. specialize (Hall i Hi).
    split; [done|]. by apply lookup_register.
  - intros i Hi. by apply lookup_register_ne.
Qed.

Lemma initialize_registers_ports_witness :
  exists s' r',
    initialize_node_states [] power_source (two_nodes, [None; None]) = Done (s', r')
    /\ r' !! 0%nat = Some (Some power_source) /\ r' !! 1%nat = Some None.
Proof.
  do 2 eexists. split; [reflexivity|].
  destruct (initialize_registers_ports [] power_source two_nodes [None; None] _ _ eq_refl)
    as (_ & Hown & Hother & _).
  split.
  - apply Hown. by repeat constructor.
  - rewrite Hother; [reflexivity|]. intros H. cbv in H.
    apply elem_of_cons in H as [H|H]; [discriminate|by apply elem_of_nil in H].
Defined.

(** X5: what the initialization does not seed: a relay sub-circuit (its
    name contains "Normally"), a component of a type outside
    [seeded_types], and a NOT or NOR gate whose label direction is
    neither "UP" nor "DOWN" keep the store as it is.  Every output of a
    sub-circuit that is not a relay is set to 0. *)
Theorem initialize_unseeded names e (s : list node) (r : registry) s' r' :
  initialize_node_states names e (s, r) = Done (s', r') ->
  (forall name, objectType e = None -> lookup_key (id e) names = Some name ->
     if contains "Normally" name
     then s' = s
     else forall o, o ∈ outputNodes e -> has_state s' o (Some 0))
  /\ (forall t, objectType e = Some t -> t ∉ seeded_types -> s' = s)
  /\ (forall t, objectType e = Some t -> t = "NorGate" \/ t = "NotGate" ->
        labelDirection e <> "UP" -> labelDirection e <> "DOWN" -> s' = s).
Proof.
  intros Hrun. split; [|split].
  - intros name Hobj Hname. unfold initialize_node_states, scope_name in Hrun.
    rewrite Hobj, Hname in Hrun.
    destruct (for_each (inputNodes e) (set_owner e) (s, r)) as [st1|ex st1] eqn:Hreg;
      [|done].
    apply set_owner_loop_done in Hreg as [_ ->]. cbn [fst snd] in *.
    apply (subcircuit_outputs_done e (contains "Normally" name)) in Hrun
      as (_ & _ & _ & Hsame & Hzero).
    cbn [fst snd] in *. destruct (contains "Normally" name); auto.
  - intros t Hobj Ht. unfold initialize_node_states in Hrun. rewrite Hobj in Hrun.
    destruct (for_each (element_nodes e) (set_owner e) (s, r)) as [st1|ex st1] eqn:Hreg;
      [|done].
    apply set_owner_loop_done in Hreg as [_ ->]. cbv zeta in Hrun.
    unfold seeded_types in Ht.
    repeat match type of Hrun with
           | context [String.eqb t ?k] =>
             destruct (String.eqb_spec t k) as [Heq|_];
             [exfalso; apply Ht; rewrite Heq; by repeat constructor|]
           end.
    cbn [orb] in Hrun. cbv iota in Hrun. by injection Hrun as <- _.
  - intros t Hobj Ht Hup Hdown. unfold initialize_node_states in Hrun.
    rewrite Hobj in Hrun.
    destruct (for_each (element_nodes e) (set_owner e) (s, r)) as [st1|ex st1] eqn:Hreg;
      [|done].
    apply set_owner_loop_done in Hreg as [_ ->]. cbv zeta in Hrun.
    destruct (String.eqb_spec (labelDirection e) "UP") as [|_]; [done|].
    destruct (String.eqb_spec (labelDirection e) "DOWN") as [|_]; [done|].
    destruct Ht as [-> | ->]; simpl in Hrun; by injection Hrun as <- _.
Qed.

Lemma initialize_unseeded_witness :
  exists s' r',
    initialize_node_states [] (loop_not "LEFT") (loop_nodes, [None; None]) = Done (s', r')
    /\ s' = loop_nodes.
Proof.
  do 2 eexists. split; [reflexivity|].
  destruct (initialize_unseeded [] (loop_not "LEFT") loop_nodes [None; None] _ _ eq_refl)
    as (_ & _ & Hgate).
  apply (Hgate "NotGate"); [reflexivity|by right|discriminate|discriminate].
Defined.

(** X6: the initialization does not roll back.  When a port of a component
    is outside the registry, it raises [IndexError] with the ports
    listed before it already registered and the store not yet seeded;
    the identifier of a sub-circuit that is not in the table of names
    raises [KeyError] before anything is changed. *)
Theorem initialize_stops_at_stray_port names e (s : list node) (r : registry)
    (t : string) (l1 l2 : list nat) (bad : nat) :
  objectType e = Some t ->
  element_nodes e = l1 ++ bad :: l2 ->
  Forall (fun i => i < length r)%nat l1 -> (length r <= bad)%nat ->
  initialize_node_states names e (s, r) = Raise IndexError (s, register e l1 r)
  /\ (forall i, i ∈ l1 -> register e l1 r !! i = Some (Some e))
  /\ (forall e', objectType e' = None -> lookup_key (id e') names = None ->
        initialize_node_states names e' (s, r) = Raise KeyError (s, r)).
Proof.
  intros Hobj Hports Hall Hbad. split; [|split].
  - unfold initialize_node_states. rewrite Hobj, Hports.
    by rewrite (set_owner_loop_stops e l1 bad l2 (s, r)).
  - intros i Hi. apply lookup_register; [done|].
    rewrite Forall_forall in Hall. by apply Hall.
  - intros e' Hobj' Hname. unfold initialize_node_states, scope_name.
    by rewrite Hobj', Hname.
Qed.

Lemma initialize_stops_at_stray_port_witness :
  initialize_node_states [] stray_gate (two_nodes, [None; None])
  = Raise IndexError (two_nodes, [None; Some stray_gate]).
Proof.
  refine (proj1 (initialize_stops_at_stray_port [] stray_gate two_nodes [None; None]
                   "AndGate" [1%nat] [0%nat] 5 _ _ _ _)); try reflexivity.
  - repeat constructor.
  - simpl. lia.
Defined.

(** * Further properties of the successor sets *)

Lemma NoDup_set_add x s : NoDup s -> NoDup (set_add x s).
Proof.
  intros Hs. unfold set_add. case_bool_decide as Hx; [done|].
  apply NoDup_app. split; [done|]. split; [|apply NoDup_singleton].
  intros y Hy ->%list_elem_of_singleton. done.
Qed.

Section WalkMore.

Variable nodes : list node.

(** The successors stay free of repetitions. *)
Lemma walk_nodup fuel :
  forall index (st st' : list nat * list bool),
    NoDup (fst st) -> find_successors fuel nodes index st = Done st' ->
    NoDup (fst st').
Proof.
  induction fuel as [|fuel IH]; intros index st st' Hnd Hrun; [done|].
  cbn [find_successors] in Hrun. case_bool_decide as Hlt; [|done].
  destruct (nodes !! index) as [n|]; [|done].
  assert (Hnd1 : NoDup (fst (fst st, <[index := true]> (snd st)))) by done.
  revert Hnd1 Hrun. generalize (fst st, <[index := true]> (snd st)).
  clear st Hnd Hlt.
  induction (connections n) as [|c conns IHc]; intros st1 Hnd1 Hrun;
    cbn [for_each] in Hrun.
  - by injection Hrun as <-.
  - destruct (snd st1 !! c) as [[|]|]; [by apply (IHc st1)| |done].
    destruct (nodes !! c) as [m|]; [|done].
    match type of Hrun with
    | match find_successors fuel nodes c ?s0 with _ => _ end = _ =>
      destruct (find_successors fuel nodes c s0) as [st2|ex st2] eqn:Hcall;
      [|done]
    end.
    apply IH in Hcall; [by apply (IHc st2)|]. cbn [fst].
    destruct (Z.eqb (type m) OUTPUT_NODE); [done|by apply NoDup_set_add].
Qed.

(** With every connection inside the store, the only exception of a
    walk is [RecursionError]. *)
Lemma walk_no_raise fuel :
  closed_wires nodes ->
  forall index (st : list nat * list bool),
    length (snd st) = length nodes -> (index < length nodes)%nat ->
    match find_successors fuel nodes index st with
    | Done st' => length (snd st') = length nodes
    | Raise e _ => e = RecursionError
    end.
Proof.
  intros Hclosed.
  induction fuel as [|fuel IH]; intros index st Hlen Hlt; [done|].
  cbn [find_successors]. rewrite bool_decide_eq_true_2 by lia.
  destruct (lookup_lt_is_Some_2 nodes index Hlt) as [n Hn]. rewrite Hn.
  assert (Hin : forall c, c ∈ connections n -> (c < length nodes)%nat).
  { intros c Hc. apply (Hclosed index). by exists n. }
  assert (Hlen1 : length (snd (fst st, <[index := true]> (snd st))) = length nodes).
  { cbn [snd]. by rewrite length_insert. }
  revert Hin Hlen1. generalize (fst st, <[index := true]> (snd st)).
  clear st Hlen Hn.
  induction (connections n) as [|c conns IHc]; intros st1 Hin Hlen1; cbn [for_each].
  - done.
  - assert (Hc : (c < length nodes)%nat) by (apply Hin; by apply elem_of_cons; left).
    assert (Hin' : forall c', c' ∈ conns -> (c' < length nodes)%nat).
    { intros c' Hc'. apply Hin. by apply elem_of_cons; right. }
    destruct (lookup_lt_is_Some_2 (snd st1) c) as [b Hb]; [lia|]. rewrite Hb.
    destruct b; [by apply IHc|].
    destruct (lookup_lt_is_Some_2 nodes c Hc) as [m Hm]. rewrite Hm.
    match goal with
    | |- match match find_successors fuel nodes c ?s0 with _ => _ end with _ => _ end =>
      pose proof (IH c s0 Hlen1 Hc) as Hcall;
      destruct (find_successors fuel nodes c s0) as [st2|ex st2]
    end; [|done].
    by apply IHc.
Qed.

End WalkMore.

(** X7: the walk from an output node, when it returns, has collected in
    [successors], without repetition, exactly the nodes that the output
    reaches through wires, itself and the component outputs apart; it
    has visited exactly the nodes reached, and all the connections of
    these nodes are inside the store.  This holds whatever the recursion
    limit. *)
Theorem find_successors_collects_net (limit : nat) (nodes : list node) (index : nat)
    (successors : list nat) (visited : list bool) :
  find_successors limit nodes index ([], replicate (length nodes) false)
    = Done (successors, visited) ->
  NoDup successors
  /\ (forall x, x ∈ successors <->
                rtc (wire nodes) index x /\ x <> index /\ ~ is_output nodes x)
  /\ (forall x, visited !! x = Some true <-> rtc (wire nodes) index x)
  /\ (forall x y, rtc (wire nodes) index x -> wire nodes x y ->
                  (y < length nodes)%nat).
Proof.
  intros Hrun.
  pose proof (walk_nodup nodes _ _ _ _ (NoDup_nil_2 : NoDup (fst ([], _))) Hrun) as Hnd.
  pose proof (find_successors_net nodes limit index _ Hrun) as Hnet.
  apply walk_call in Hrun.
  destruct Hrun as [Hlen Hmono Htg Hreach Hclosed Hsucc].
  cbn [fst snd] in *. rewrite length_replicate in Hlen.
  assert (Hfresh : forall x, replicate (length nodes) false !! x <> Some true).
  { by intros x [? _]%lookup_replicate. }
  assert (Hall : forall x, rtc (wire nodes) index x -> visited !! x = Some true).
  { apply rtc_ind_r.
    - apply Htg. by apply list_elem_of_singleton.
    - intros y z _ Hyz IH. by apply (Hclosed y IH (Hfresh y)). }
  split; [done|]. split; [done|]. split.
  - intros x. split; [|by apply Hall]. intros Hx.
    destruct (Hreach x Hx (Hfresh x)) as (t & ->%list_elem_of_singleton & Hp). done.
  - intros x y Hx Hxy.
    pose proof (Hclosed x (Hall x Hx) (Hfresh x) y Hxy) as Hy.
    apply lookup_lt_Some in Hy. lia.
Qed.

Lemma find_successors_collects_net_witness :
  rtc (wire star_nodes) 0%nat 2%nat /\ 2%nat <> 0%nat /\ ~ is_output star_nodes 2.
Proof.
  refine (proj1 (proj1 (proj2 (find_successors_collects_net 1000 star_nodes 0
                                 [1; 2]%nat [true; true; true; true] _)) 2%nat) _).
  - vm_compute. reflexivity.
  - by repeat constructor.
Defined.

(** X8: when every connection of the store is the index of a node, the
    walk from a node of the store raises no exception but
    [RecursionError], and this one only when the recursion limit is
    below the number of nodes.  With a limit of at least the number of
    nodes the walk returns. *)
Theorem find_successors_returns (limit : nat) (nodes : list node) (index : nat) :
  closed_wires nodes -> (index < length nodes)%nat ->
  (forall e st,
     find_successors limit nodes index ([], replicate (length nodes) false)
       = Raise e st ->
     e = RecursionError /\ (limit < length nodes)%nat)
  /\ ((length nodes <= limit)%nat ->
      exists successors visited,
        find_successors limit nodes index ([], replicate (length nodes) false)
          = Done (successors, visited)
        /\ length visited = length nodes).
Proof.
  intros Hclosed Hlt.
  pose proof (walk_no_raise nodes limit Hclosed index
                ([], replicate (length nodes) false)) as Hraise.
  pose proof (walk_depth nodes limit index
                ([], replicate (length nodes) false)) as Hdepth.
  cbn [snd] in *. rewrite length_replicate in Hraise.
  specialize (Hraise eq_refl Hlt).
  assert (Hbound : (S (unvisited (<[index := true]> (replicate (length nodes) false)))
                    <= length nodes)%nat).
  { pose proof (unvisited_insert_new (replicate (length nodes) false) index
                  (lookup_replicate_2 _ _ _ Hlt)) as Hnew.
    pose proof (unvisited_le_length (replicate (length nodes) false)) as Hle.
    rewrite length_replicate in Hle. lia. }
  destruct (find_successors limit nodes index _) as [[ss V]|ex st].
  - split; [done|]. intros _. by exists ss, V.
  - subst ex. split.
    + intros e st' [= <- _]. split; [done|].
      destruct (decide (limit < length nodes)%nat) as [|Hge]; [done|].
      exfalso. apply Hdepth; [lia|done].
    + intros Hlimit. exfalso. apply Hdepth; [lia|done].
Qed.

Lemma closed_wires_check (nodes : list node) :
  forallb (fun n => forallb (fun b => Nat.ltb b (length nodes)) (connections n)) nodes
  = true ->
  closed_wires nodes.
Proof.
  intros H a b (n & Hn & Hb).
  rewrite forallb_forall in H. apply list_elem_of_lookup_2 in Hn.
  apply list_elem_of_In in Hn. specialize (H n Hn).
  rewrite forallb_forall in H. apply list_elem_of_In in Hb.
  specialize (H b Hb). by apply Nat.ltb_lt in H.
Qed.

Lemma find_successors_returns_witness :
  exists successors visited,
    find_successors 4 star_nodes 0 ([], replicate 4 false) = Done (successors, visited)
    /\ length visited = 4%nat.
Proof.
  apply (find_successors_returns 4 star_nodes 0).
  - by apply closed_wires_check.
  - simpl. lia.
  - simpl. lia.
Defined.

Section InputSuccessors.

Variable names : list (string * string).
Variable nodes : list node.
Variable element_by_node_index : registry.

(** The loop over the nodes of a component. *)
Lemma unknown_outputs_done l (acc successors : list nat) :
  for_each l
    (fun n successors =>
       match nodes !! n with
       | None => Raise IndexError successors
       | Some m =>
         if Z.eqb (type m) OUTPUT_NODE && negb (defined (state m))
         then Done (set_add n successors)
         else Done successors
       end) acc = Done successors ->
  Forall (fun i => i < length nodes)%nat l
  /\ forall x, x ∈ successors <->
               (x ∈ acc \/ (x ∈ l /\ is_output nodes x /\ has_state nodes x None)).
Proof.
  revert acc. induction l as [|i l IH]; intros acc Hrun; cbn [for_each] in Hrun.
  - injection Hrun as <-. split; [constructor|]. intros x. split; [auto|].
    intros [H|[H _]]; [done|by apply elem_of_nil in H].
  - destruct (nodes !! i) as [m|] eqn:Hm; [|done].
    assert (Hcond : Z.eqb (type m) OUTPUT_NODE && negb (defined (state m)) = true
                    <-> is_output nodes i /\ has_state nodes i None).
    { unfold is_output, has_state. rewrite Hm. simpl. split.
      - intros [Ht Hs]%andb_true_iff. apply Z.eqb_eq in Ht.
        split; [by exists m|]. by destruct (state m).
      - intros [(m' & [= <-] & Ht) [= Hs]]. rewrite Ht, Hs. done. }
    destruct (Z.eqb (type m) OUTPUT_NODE && negb (defined (state m)));
      apply IH in Hrun as [Hall Hchar].
    + split; [constructor; [by eapply lookup_lt_Some|done]|].
      intros x. rewrite Hchar, elem_of_set_add, elem_of_cons.
      destruct Hcond as [Hcond _]. specialize (Hcond eq_refl).
      split; [intros [[->|H]|[H1 H2]]; auto|].
      intros [H|[[->|H1] H2]]; auto.
    + split; [constructor; [by eapply lookup_lt_Some|done]|].
      intros x. rewrite Hchar, elem_of_cons.
      split; [intros [H|[H1 H2]]; auto|].
      intros [H|[[->|H1] H2]]; auto.
      destruct Hcond as [_ Hcond]. specialize (Hcond H2). done.
Qed.

(** The loop over the outputs of a sub-circuit. *)
Lemma relay_outputs_done (relay : bool) l (acc : list nat) :
  exists successors,
    for_each l
      (fun output successors =>
         if relay then Done (set_add output successors) else Done successors) acc
    = Done successors
    /\ forall x, x ∈ successors <-> (x ∈ acc \/ (relay = true /\ x ∈ l)).
Proof.
  revert acc. induction l as [|i l IH]; intros acc; cbn [for_each].
  - exists acc. split; [done|]. intros x. split; [auto|].
    intros [H|[_ H]]; [done|by apply elem_of_nil in H].
  - destruct relay.
    + destruct (IH (set_add i acc)) as (ss & -> & Hchar). exists ss. split; [done|].
      intros x. rewrite Hchar, elem_of_set_add, elem_of_cons. intuition.
    + destruct (IH acc) as (ss & -> & Hchar). exists ss. split; [done|].
      intros x. rewrite Hchar. intuition discriminate.
Qed.

End InputSuccessors.

(** X9: the successors of a node that is not a component output.  A node
    that is neither an input nor an output (a junction), or an input
    that no component owns, has none.  The successors of an input of a
    component are the nodes of that component that are outputs still
    Unknown: a seeded output depends on nothing.  The successors of an
    input of a sub-circuit are all its outputs if it is a relay, and
    none otherwise. *)
Theorem successors_of_input names limit (nodes : list node)
    (element_by_node_index : registry) (k : nat) (n : node) :
  nodes !! k = Some n ->
  type n <> OUTPUT_NODE ->
  (type n <> INPUT_NODE \/ element_by_node_index !! k = Some None ->
   successors_of names limit nodes element_by_node_index k = Done [])
  /\ (forall e t successors,
        type n = INPUT_NODE ->
        element_by_node_index !! k = Some (Some e) -> objectType e = Some t ->
        successors_of names limit nodes element_by_node_index k = Done successors ->
        forall x, x ∈ successors <->
                  x ∈ element_nodes e /\ is_output nodes x /\ has_state nodes x None)
  /\ (forall e name,
        type n = INPUT_NODE ->
        element_by_node_index !! k = Some (Some e) -> objectType e = None ->
        lookup_key (id e) names = Some name ->
        exists successors,
          successors_of names limit nodes element_by_node_index k = Done successors
          /\ forall x, x ∈ successors <->
                       contains "Normally" name = true /\ x ∈ outputNodes e).
Proof.
  intros Hn Hout. unfold successors_of. rewrite Hn.
  split; [|split].
  - intros [Hin|Hnone].
    + destruct (Z.eqb_spec (type n) INPUT_NODE); [done|].
      by destruct (Z.eqb_spec (type n) OUTPUT_NODE).
    + destruct (Z.eqb (type n) INPUT_NODE); [by rewrite Hnone|].
      by destruct (Z.eqb_spec (type n) OUTPUT_NODE).
  - intros e t ss Hin He Hobj. rewrite Hin, He, Hobj. simpl.
    intros Hrun. apply unknown_outputs_done in Hrun as [_ Hchar].
    intros x. rewrite Hchar. split; [|auto].
    intros [H|H]; [by apply elem_of_nil in H|done].
  - intros e name Hin He Hobj Hname. rewrite Hin, He, Hobj. simpl.
    unfold scope_name. rewrite Hname.
    destruct (relay_outputs_done (contains "Normally" name) (outputNodes e) [])
      as (ss & Hrun & Hchar).
    exists ss. split; [exact Hrun|].
    intros x. rewrite Hchar. split; [|auto].
    intros [H|H]; [by apply elem_of_nil in H|done].
Qed.

Lemma successors_of_input_witness :
  1%nat ∈ element_nodes (loop_not "UP") /\ is_output loop_nodes 1
  /\ has_state loop_nodes 1 None.
Proof.
  refine (proj1 (proj1 (proj2 (successors_of_input [] 1000 loop_nodes loop_registry 0 _
                                 eq_refl _))
                   (loop_not "UP") "NotGate" [1%nat] eq_refl eq_refl eq_refl _ 1%nat) _).
  - discriminate.
  - vm_compute. reflexivity.
  - by repeat constructor.
Defined.

Lemma find_successors_in_range limit (nodes : list node) index
    (st' : list nat * list bool) :
  find_successors limit nodes index ([], replicate (length nodes) false)
    = Done st' ->
  forall x, x ∈ fst st' -> (x < length nodes)%nat.
Proof.
  intros Hrun x Hx. apply walk_call in Hrun.
  destruct Hrun as [Hlen _ _ _ _ Hsucc]. cbn [fst snd] in *.
  rewrite length_replicate in Hlen.
  apply Hsucc in Hx as [Hx|(Hx & _)]; [by apply elem_of_nil in Hx|].
  apply lookup_lt_Some in Hx. lia.
Qed.

Lemma build_successors_closed_graph names set_iter limit (nodes : list node)
    (element_by_node_index : registry) (G : list (list nat)) :
  iteration_order set_iter ->
  build_successors names set_iter limit nodes element_by_node_index = Done G ->
  (forall k e, element_by_node_index !! k = Some (Some e) -> objectType e = None ->
     Forall (fun o => o < length nodes)%nat (outputNodes e)) ->
  closed_graph G.
Proof.
  intros Horder Hbuild Hrelay. apply build_successors_done in Hbuild as [Hlen Hsucc].
  intros a b (ss & Ha & Hb). rewrite Hlen.
  destruct (Hsucc a ss Ha) as (set & Hset & ->). clear Hsucc.
  apply (proj1 (elem_of_set_iter _ _ _ Horder)) in Hb.
  unfold successors_of in Hset.
  destruct (nodes !! a) as [n|] eqn:Hn; [|done].
  destruct (Z.eqb (type n) INPUT_NODE).
  - destruct (element_by_node_index !! a) as [[e|]|] eqn:He; [|injection Hset as <-|done].
    2: by apply elem_of_nil in Hb.
    destruct (objectType e) as [t|] eqn:Hobj.
    + apply unknown_outputs_done in Hset as [_ Hchar].
      apply Hchar in Hb as [Hb|(_ & (m & Hm & _) & _)]; [by apply elem_of_nil in Hb|].
      by eapply lookup_lt_Some.
    + unfold scope_name in Hset.
      destruct (lookup_key (id e) names) as [name|]; [|done].
      destruct (relay_outputs_done (contains "Normally" name) (outputNodes e) [])
        as (ss' & Hrun & Hchar).
      rewrite Hrun in Hset. injection Hset as ->.
      apply Hchar in Hb as [Hb|[_ Hb]]; [by apply elem_of_nil in Hb|].
      specialize (Hrelay a e He Hobj). rewrite Forall_forall in Hrelay. by apply Hrelay.
  - destruct (Z.eqb (type n) OUTPUT_NODE); [|injection Hset as <-].
    2: by apply elem_of_nil in Hb.
    destruct (find_successors limit nodes a _) as [st|ex st] eqn:Hwalk;
      [|done].
    injection Hset as <-. by eapply find_successors_in_range.
Qed.

(** X10: the successor sets that the first loop of [compute_node_states]
    builds, whatever their iteration order: one per node; only inputs
    and outputs have successors; the successors of an output are not
    outputs; and, when the outputs of every registered sub-circuit are
    nodes of the store, every successor is a node of the store, so that
    the topological sort does not index outside its lists. *)
Theorem build_successors_closed names set_iter limit (nodes : list node)
    (element_by_node_index : registry) (G : list (list nat)) :
  iteration_order set_iter ->
  build_successors names set_iter limit nodes element_by_node_index = Done G ->
  (forall k e, element_by_node_index !! k = Some (Some e) -> objectType e = None ->
     Forall (fun o => o < length nodes)%nat (outputNodes e)) ->
  length G = length nodes
  /\ closed_graph G
  /\ (forall a b n, edge G a b -> nodes !! a = Some n ->
        type n = INPUT_NODE \/ type n = OUTPUT_NODE)
  /\ (forall a b, edge G a b -> is_output nodes a -> ~ is_output nodes b).
Proof.
  intros Horder Hbuild Hrelay.
  pose proof (build_successors_closed_graph _ _ _ _ _ _ Horder Hbuild Hrelay) as Hclosed.
  apply build_successors_done in Hbuild as [Hlen Hsucc].
  split; [done|]. split; [done|]. split.
  - intros a b n (ss & Ha & Hb) Hn. destruct (Hsucc a ss Ha) as (set & Hset & ->).
    apply (proj1 (elem_of_set_iter _ _ _ Horder)) in Hb.
    unfold successors_of in Hset. rewrite Hn in Hset.
    destruct (Z.eqb_spec (type n) INPUT_NODE); [by left|].
    destruct (Z.eqb_spec (type n) OUTPUT_NODE); [by right|].
    injection Hset as <-. by apply elem_of_nil in Hb.
  - intros a b (ss & Ha & Hb) Hout. destruct (Hsucc a ss Ha) as (set & Hset & ->).
    apply (proj1 (elem_of_set_iter _ _ _ Horder)) in Hb.
    apply (successors_of_output names limit nodes element_by_node_index a set Hout Hset)
      in Hb.
    by destruct Hb as (_ & _ & Hb).
Qed.

Lemma build_successors_closed_witness :
  exists G,
    build_successors [] (fun s => s) 1000 powered_nodes powered_registry = Done G
    /\ length G = 5%nat /\ closed_graph G.
Proof.
  eexists. split; [vm_compute; reflexivity|].
  destruct (build_successors_closed [] (fun s => s) 1000 powered_nodes powered_registry
              [[1; 2]%nat; []; [3%nat]; [4%nat]; []] iteration_order_id)
    as (Hlen & Hclosed & _).
  - vm_compute. reflexivity.
  - intros k e He Hobj. destruct k as [|[|[|[|[|k]]]]]; try discriminate He;
      injection He as <-; discriminate Hobj.
  - split; [exact Hlen|exact Hclosed].
Defined.

(** * Further properties of the topological sort *)

Lemma sort_done_closed G (st : list nat * list nat) :
  sort_inv G st -> (forall x, (x < length G)%nat -> snd st !! x = Some 2%nat) ->
  closed_graph G.
Proof.
  intros Hinv Hall a b Hab.
  pose proof (Hall a (edge_source G a b Hab)) as Ha.
  apply (inv_black G st Hinv) in Ha. apply list_elem_of_lookup in Ha as [i Hi].
  destruct (inv_order G st Hinv i a b Hi Hab) as (j & _ & Hj).
  assert (Hb : b ∈ fst st) by (by eapply list_elem_of_lookup_2).
  apply (inv_black G st Hinv) in Hb. apply lookup_lt_Some in Hb.
  by rewrite (inv_length G st Hinv) in Hb.
Qed.

(** X11: the outcomes of the sort, for any lists of successors and any
    recursion limit.  If it returns, every successor is a node and
    there is no cycle, and it has marked every node finished; with a
    limit above the number of nodes it returns on every such graph.
    Its only exceptions are the cycle error, raised only on a cyclic
    graph, [IndexError], raised only when some successor is not a node,
    and [RecursionError], raised only when the limit is not above the
    number of nodes. *)
Theorem sort_nodes_outcomes (limit : nat) (G : list (list nat)) :
  ((exists st, sort_nodes limit G (length G) = Done st) ->
   closed_graph G /\ ~ cyclic G)
  /\ ((length G < limit)%nat -> closed_graph G -> ~ cyclic G ->
      exists st, sort_nodes limit G (length G) = Done st)
  /\ (forall sorted_nodes node_status,
        sort_nodes limit G (length G) = Done (sorted_nodes, node_status) ->
        node_status = replicate (length G) 2%nat /\ NoDup sorted_nodes)
  /\ (forall e st, sort_nodes limit G (length G) = Raise e st ->
        (e = Exception "Cyclic graph!" /\ cyclic G)
        \/ (e = IndexError /\ ~ closed_graph G)
        \/ (e = RecursionError /\ (limit <= length G)%nat)).
Proof.
  pose proof (sort_nodes_post limit G) as Hrun.
  destruct (sort_nodes limit G (length G)) as [st|e st].
  - destruct Hrun as [Hinv Hall]. split; [|split; [|split; [|done]]].
    + intros _. split; [by eapply sort_done_closed|by eapply sort_done_acyclic].
    + intros _ _ _. by exists st.
    + intros sorted_nodes node_status [= ->]. split; [|apply (inv_nodup G _ Hinv)].
      pose proof (inv_length G _ Hinv) as Hlen.
      cbn [snd] in *. apply list_eq. intros x.
      destruct (decide (x < length G)%nat) as [Hlt|Hge].
      * rewrite (Hall x Hlt). symmetry. by apply lookup_replicate_2.
      * rewrite !(proj2 (lookup_ge_None _ _)); [done| |].
        -- rewrite length_replicate. lia.
        -- rewrite Hlen. lia.
  - split; [|split; [|split; [done|]]].
    + intros [st' Hst']. done.
    + intros Hlimit Hclosed Hacyclic.
      destruct Hrun as [[_ Hc]|[[_ Hc]|[_ Hc]]]; [done|done|lia].
    + intros e' st' [= <- <-]. done.
Qed.

Lemma sort_nodes_outcomes_witness :
  closed_graph chain_graph /\ ~ cyclic chain_graph.
Proof.
  apply (proj1 (sort_nodes_outcomes 1000 chain_graph)). eexists. vm_compute.
  reflexivity.
Defined.

(** * Further properties of the propagation *)

Lemma kept_shape_trans s s1 r :
  shape s1 = shape s -> kept_shape s1 r -> kept_shape s r.
Proof. intros H. destruct r; simpl; congruence. Qed.

Lemma for_each_kept_shape {A : Type} (body : A -> list node -> outcome (list node)) l s :
  (forall x s, kept_shape s (body x s)) -> kept_shape s (for_each l body s).
Proof.
  intros Hbody. revert s. induction l as [|x l IH]; intros s; cbn [for_each]; [done|].
  specialize (Hbody x s). destruct (body x s) as [s1|e s1]; [|done].
  by eapply kept_shape_trans.
Qed.

Lemma assign_state_kept_shape i v s : kept_shape s (assign_state i v s).
Proof.
  unfold assign_state. case_bool_decide; simpl; [apply shape_set_state|done].
Qed.

Section Shapes.

Variable names : list (string * string).
Variable element_by_node_index : registry.

Lemma reverse_step_kept_shape G k s :
  kept_shape s (reverse_step names element_by_node_index G k s).
Proof.
  unfold reverse_step. destruct (s !! k) as [n|]; [|done].
  destruct (negb _); [done|].
  destruct (element_by_node_index !! k) as [el|]; [|done].
  set (evaluated := match el with
                    | Some e => if defined (state n) then Ok s else update_element names e s
                    | None => Ok s
                    end).
  assert (Hev : forall s1, evaluated = Ok s1 -> shape s1 = shape s).
  { intros s1. subst evaluated. destruct el as [e|]; [|by intros [= <-]].
    destruct (defined (state n)); [by intros [= <-]|].
    intros Hrun. by apply update_element_modifies in Hrun as [Hs _]. }
  destruct evaluated as [s1|ex]; [|done]. specialize (Hev s1 eq_refl).
  destruct (get_state s1 k) as [[v|]|]; [|done|done].
  destruct (G !! k) as [ss|]; [|done].
  eapply kept_shape_trans; [exact Hev|].
  apply for_each_kept_shape. intros x s2. apply assign_state_kept_shape.
Qed.

Lemma forward_step_kept_shape k s :
  kept_shape s (forward_step names element_by_node_index k s).
Proof.
  unfold forward_step. destruct (s !! k) as [n|]; [|done].
  destruct (defined _); [done|].
  destruct (adopt s (connections n)) as [st|]; [|done].
  set (s1 := match st with Some v => set_state k (Some v) s | None => s end).
  assert (H1 : shape s1 = shape s).
  { subst s1. destruct st; [apply shape_set_state|done]. }
  destruct (Z.eqb _ _); [|done].
  destruct (element_by_node_index !! k) as [[e|]|]; [|done|done].
  destruct (objectType e); [done|].
  unfold run.
  destruct (maybe_update_subcircuit_input names e s1) as [s2|ex] eqn:Hrun; [|done].
  apply maybe_update_subcircuit_input_modifies in Hrun as [Hs _]. simpl. congruence.
Qed.

Lemma compute_node_states_kept_shape set_iter limit nodes :
  kept_shape nodes
    (compute_node_states names set_iter limit nodes element_by_node_index).
Proof.
  unfold compute_node_states.
  destruct (build_successors names set_iter limit nodes element_by_node_index)
    as [G|e G]; [|done].
  destruct (sort_nodes limit G (length nodes)) as [st|e st]; [|done].
  unfold reverse_pass, forward_pass.
  pose proof (for_each_kept_shape (reverse_step names element_by_node_index G)
                (rev (fst st)) nodes (reverse_step_kept_shape G)) as Hrev.
  destruct (for_each (rev (fst st)) _ nodes) as [s1|e s1]; [|done].
  eapply kept_shape_trans; [exact Hrev|].
  apply for_each_kept_shape. apply forward_step_kept_shape.
Qed.

End Shapes.

(** X12: the computation of the states changes states only: whether it
    returns or raises, the store it leaves has as many nodes as the one
    it was given, with the same types and the same connections,
    whatever the iteration order of the sets and the recursion limit. *)
Theorem compute_node_states_changes_states_only names set_iter limit
    (nodes : list node) (element_by_node_index : registry) (s' : list node) :
  compute_node_states names set_iter limit nodes element_by_node_index = Done s'
  \/ (exists e, compute_node_states names set_iter limit nodes element_by_node_index
                = Raise e s') ->
  length s' = length nodes
  /\ forall i n', s' !! i = Some n' ->
       exists n, nodes !! i = Some n
                 /\ type n = type n' /\ connections n = connections n'.
Proof.
  intros Hrun.
  pose proof (compute_node_states_kept_shape names element_by_node_index set_iter limit
                nodes) as Hk.
  assert (Hshape : shape s' = shape nodes).
  { destruct Hrun as [Hrun|[e Hrun]]; by rewrite Hrun in Hk. }
  split; [by apply shape_length|].
  intros i n' Hi. by apply (shape_lookup nodes s' i n' Hshape).
Qed.

Lemma compute_node_states_changes_states_only_witness :
  length and3_flooded = length and3_seeded.
Proof.
  apply (compute_node_states_changes_states_only [] (fun s => s) 1000 and3_seeded
           and3_registry and3_flooded).
  right. eexists. vm_compute. reflexivity.
Defined.

(** ** The forward pass *)

Lemma maybe_update_subcircuit_input_keeps_resolved names e (s s' : list node) :
  maybe_update_subcircuit_input names e s = Ok s' ->
  forall i v, has_state s i (Some v) -> exists w, has_state s' i (Some w).
Proof.
  intros Hrun i v Hi. unfold maybe_update_subcircuit_input in Hrun.
  apply rbind_ok in Hrun as (input & _ & Hrun).
  apply rbind_ok in Hrun as (c & _ & Hrun).
  apply rbind_ok in Hrun as (o & _ & Hrun).
  apply rbind_ok in Hrun as (name & _ & Hrun).
  assert (Hset : forall z, exists w, has_state (set_state input (Some z) s) i (Some w)).
  { intros z. destruct (decide (input = i)) as [->|Hne].
    - exists z. apply has_state_set_eq. by eapply has_state_in_range.
    - exists v. by apply has_state_set_ne. }
  destruct o as [z|]; simpl in Hrun.
  - destruct (contains "NormallyClosed" name), (state_is 1 c); simpl in Hrun;
      injection Hrun as <-; eauto.
  - destruct (contains "NormallyClosed" name); injection Hrun as <-; eauto.
Qed.

Lemma forward_step_keeps_resolved names (element_by_node_index : registry) k s s' :
  forward_step names element_by_node_index k s = Done s' ->
  forall i v, has_state s i (Some v) -> exists w, has_state s' i (Some w).
Proof.
  intros Hrun i v Hi.
  apply forward_step_done in Hrun as [[-> _]|(Hnone & s1 & Hadopt & Hback)]; [eauto|].
  assert (H1 : has_state s1 i (Some v)).
  { destruct Hadopt as [->|[w ->]]; [done|]. apply has_state_set_ne; [|done].
    intros ->. unfold has_state in *. congruence. }
  destruct Hback as [->|(_ & e & _ & _ & Hrun)]; [eauto|].
  by eapply maybe_update_subcircuit_input_keeps_resolved.
Qed.

(** X13: the forward pass never makes a resolved node Unknown: a node that
    is resolved when the pass starts is resolved when it returns. *)
Theorem forward_pass_keeps_resolved names (element_by_node_index : registry)
    (sorted_nodes : list nat) (s s' : list node) (i : nat) (v : Z) :
  forward_pass names element_by_node_index sorted_nodes s = Done s' ->
  has_state s i (Some v) ->
  exists w, has_state s' i (Some w).
Proof.
  unfold forward_pass. revert s v.
  induction sorted_nodes as [|k l IH]; intros s v Hrun Hi; cbn [for_each] in Hrun.
  - injection Hrun as <-. eauto.
  - destruct (forward_step names element_by_node_index k s) as [s1|e s1] eqn:Hk;
      [|done].
    destruct (forward_step_keeps_resolved _ _ _ _ _ Hk i v Hi) as [w Hw].
    by apply (IH s1 w).
Qed.

Lemma forward_pass_keeps_resolved_witness :
  exists w, has_state short_final 2 (Some w).
Proof.
  apply (forward_pass_keeps_resolved [] short_registry [2; 0; 1]%nat short_final
           short_final 2 1).
  - vm_compute. reflexivity.
  - reflexivity.
Defined.

Lemma adopt_skips_unknown (s : list node) l1 rest :
  Forall (fun x => has_state s x None) l1 -> adopt s (l1 ++ rest) = adopt s rest.
Proof.
  induction l1 as [|x l1 IH]; intros Hall; [done|].
  apply Forall_cons in Hall as [Hx Hall]. cbn [app adopt].
  rewrite (get_state_has_state s x None Hx). cbn [rbind defined]. by apply IH.
Qed.

(** X14: the scan of the connections of a node stops at the first resolved
    neighbour and yields its state, without reading the connections
    after it, be they outside the store.  With only Unknown neighbours it
    yields nothing; a connection outside the store that comes before any
    resolved neighbour raises [IndexError].  A node that is not a
    component output and is still Unknown takes, in its forward step,
    the state of its first resolved neighbour. *)
Theorem adopt_first_resolved (s : list node) (l1 l2 : list nat) (c : nat) :
  Forall (fun x => has_state s x None) l1 ->
  (forall v, has_state s c (Some v) -> adopt s (l1 ++ c :: l2) = Ok (Some v))
  /\ ((length s <= c)%nat -> adopt s (l1 ++ c :: l2) = Err IndexError)
  /\ adopt s l1 = Ok None
  /\ (forall names (element_by_node_index : registry) k n v,
        s !! k = Some n -> state n = None -> type n <> OUTPUT_NODE ->
        connections n = l1 ++ c :: l2 -> has_state s c (Some v) ->
        forward_step names element_by_node_index k s = Done (set_state k (Some v) s)).
Proof.
  intros Hall.
  assert (Hfound : forall v, has_state s c (Some v) ->
            adopt s (l1 ++ c :: l2) = Ok (Some v)).
  { intros v Hc. rewrite adopt_skips_unknown by done. cbn [adopt].
    by rewrite (get_state_has_state s c (Some v) Hc). }
  split; [done|]. split; [|split].
  - intros Hc. rewrite adopt_skips_unknown by done. cbn [adopt].
    unfold get_state, get_node. by rewrite (proj2 (lookup_ge_None s c)).
  - rewrite <- (app_nil_r l1) at 1. by rewrite adopt_skips_unknown.
  - intros names ebi k n v Hk Hs Ht Hconn Hc. unfold forward_step.
    rewrite Hk, Hs, Hconn, (Hfound v Hc). cbn [defined].
    by destruct (Z.eqb_spec (type n) OUTPUT_NODE).
Qed.

Lemma adopt_first_resolved_witness :
  adopt adopt_store [1; 2; 9]%nat = Ok (Some 1)
  /\ forward_step [] [] 0 adopt_store = Done (set_state 0 (Some 1) adopt_store).
Proof.
  destruct (adopt_first_resolved adopt_store [1%nat] [9%nat] 2) as (Hfound & _ & _ & Hstep).
  - repeat constructor.
  - split; [by apply Hfound|].
    eapply (Hstep [] [] 0%nat); try reflexivity. discriminate.
Defined.

(** * The resolution of a netlist *)

Lemma initialize_keeps_registry_inv names elements nodes e st st' :
  e ∈ elements -> registry_inv elements nodes st ->
  initialize_node_states names e st = Done st' ->
  registry_inv elements nodes st'
  /\ Forall (fun i => i < length nodes)%nat (ports_of e).
Proof.
  intros He (Hshape & Hlen & Hown) Hrun. destruct st as [s r], st' as [s' r'].
  apply initialize_done in Hrun as (Hall & -> & [[Hshape' _] _]).
  cbn [fst snd] in *. rewrite Hlen in Hall. split; [|done].
  unfold registry_inv. cbn [fst snd].
  split; [congruence|]. split; [by rewrite length_register|].
  intros k e' Hk. destruct (decide (k ∈ ports_of e)) as [Hin|Hout].
  - rewrite lookup_register in Hk; [by injection Hk as <-|done|].
    rewrite Forall_forall in Hall. rewrite Hlen. by apply Hall.
  - rewrite lookup_register_ne in Hk by done. by apply Hown.
Qed.

Lemma initialize_loop_registry_inv names elements nodes l st st' :
  (forall e, e ∈ l -> e ∈ elements) -> registry_inv elements nodes st ->
  for_each l (initialize_node_states names) st = Done st' ->
  registry_inv elements nodes st'
  /\ (forall e, e ∈ l -> Forall (fun i => i < length nodes)%nat (ports_of e))
  /\ (forall k, (forall e, e ∈ l -> k ∉ ports_of e) -> snd st' !! k = snd st !! k).
Proof.
  revert st. induction l as [|e l IH]; intros st Hsub Hinv Hrun; cbn [for_each] in Hrun.
  - injection Hrun as <-. split; [done|]. split; [|done].
    intros e He. by apply elem_of_nil in He.
  - destruct (initialize_node_states names e st) as [st1|ex st1] eqn:He; [|done].
    assert (Hin : e ∈ elements) by (apply Hsub; by apply elem_of_cons; left).
    destruct (initialize_keeps_registry_inv names elements nodes e st st1 Hin Hinv He)
      as [Hinv1 Hports].
    destruct (IH st1) as (Hinv' & Hall & Hother); [|done|done|].
    { intros e' He'. apply Hsub. by apply elem_of_cons; right. }
    split; [done|]. split.
    + intros e' [->|He']%elem_of_cons; [done|by apply Hall].
    + intros k Hk. rewrite Hother.
      * destruct st as [s r], st1 as [s1 r1].
        apply initialize_done in He as (_ & -> & _). cbn [snd].
        apply lookup_register_ne. apply Hk. by apply elem_of_cons; left.
      * intros e' He'. apply Hk. by apply elem_of_cons; right.
Qed.

(** X15: the initialization of a netlist, when it returns, gives a store
    with the types and wires of the netlist and a registry with one
    entry per node; every owner is a component of the netlist that lists
    the node among its ports; all the ports of all the components are
    nodes; a node that no component lists has no owner.  The successor
    sets built from it then only contain nodes, whatever their iteration
    order, so that the topological sort, with a recursion limit above
    the number of nodes, either returns or raises the cycle error, the
    latter only on a cyclic graph. *)
Theorem initialize_all_registry names (elements : list element) (nodes : list node)
    (s0 : list node) (r : registry) :
  initialize_all names elements nodes = Done (s0, r) ->
  shape s0 = shape nodes
  /\ length r = length nodes
  /\ (forall k e, r !! k = Some (Some e) -> e ∈ elements /\ k ∈ ports_of e)
  /\ (forall e, e ∈ elements -> Forall (fun i => i < length nodes)%nat (ports_of e))
  /\ (forall k, (k < length nodes)%nat -> (forall e, e ∈ elements -> k ∉ ports_of e) ->
        r !! k = Some None)
  /\ (forall set_iter limit G,
        iteration_order set_iter ->
        build_successors names set_iter limit s0 r = Done G ->
        closed_graph G
        /\ ((length nodes < limit)%nat ->
            (exists st, sort_nodes limit G (length s0) = Done st /\ ~ cyclic G)
            \/ (exists st, sort_nodes limit G (length s0)
                           = Raise (Exception "Cyclic graph!") st
                           /\ cyclic G))).
Proof.
  intros Hrun. unfold initialize_all in Hrun.
  destruct (initialize_loop_registry_inv names elements nodes elements
              (nodes, replicate (length nodes) None) (s0, r)) as (Hinv & Hall & Hother);
    [done| |done|].
  { split; [done|]. split; [apply length_replicate|].
    intros k e [? _]%lookup_replicate. done. }
  destruct Hinv as (Hshape & Hlen & Hown). cbn [fst snd] in *.
  split; [done|]. split; [done|]. split; [|split; [done|split]].
  - intros k e Hk. destruct (Hown k e Hk) as (H1 & H2 & _). done.
  - intros k Hk Hno. rewrite (Hother k Hno). by apply lookup_replicate_2.
  - intros set_iter limit G Horder Hbuild.
    assert (Hclosed : closed_graph G).
    { eapply build_successors_closed_graph; [exact Horder|exact Hbuild|].
      intros k e Hk Hobj. destruct (Hown k e Hk) as (_ & _ & Hports).
      unfold ports_of in Hports. rewrite Hobj in Hports.
      apply Forall_app in Hports as [_ Hports].
      by rewrite (shape_length _ _ Hshape). }
    split; [done|]. intros Hlimit.
    apply build_successors_done in Hbuild as [HlenG _]. rewrite <- HlenG.
    pose proof (sort_nodes_post limit G) as Hsort.
    destruct (sort_nodes limit G (length G)) as [st|e st].
    + left. exists st. destruct Hsort as [Hinv Hblack].
      split; [done|]. by eapply sort_done_acyclic.
    + destruct Hsort as [[-> Hc]|[[_ Hc]|[_ Hc]]]; [|done|].
      * right. by exists st.
      * rewrite HlenG, (shape_length _ _ Hshape) in Hc. lia.
Qed.

Lemma initialize_all_registry_witness :
  exists s0 r,
    initialize_all relay_names relay_elements relay_nodes = Done (s0, r)
    /\ length r = 8%nat /\ r !! 4%nat = Some None.
Proof.
  do 2 eexists. split; [vm_compute; reflexivity|].
  destruct (initialize_all_registry relay_names relay_elements relay_nodes _ _ eq_refl)
    as (_ & Hlen & _ & _ & Hfree & _).
  split; [exact Hlen|]. apply Hfree; [simpl; lia|].
  intros e He. cbv in He.
  repeat (apply elem_of_cons in He as [->|He]); [..|by apply elem_of_nil in He];
    intros H; cbv in H;
    repeat (apply elem_of_cons in H as [H|H]; [discriminate|]);
    by apply elem_of_nil in H.
Defined.

Lemma set_owner_raise e i (st st' : list node * registry) ex :
  set_owner e i st = Raise ex st' -> ex = IndexError.
Proof. unfold set_owner. case_bool_decide; [done|]. by intros [= <- _]. Qed.

(** The initialization of an element makes no recursive call. *)
Lemma initialize_not_recursion names e st st' :
  initialize_node_states names e st <> Raise RecursionError st'.
Proof.
  unfold initialize_node_states. destruct (objectType e) as [t|].
  - destruct (for_each (element_nodes e) (set_owner e) st) as [st1|ex st1] eqn:Hreg.
    2: { intros [= -> _]. apply for_each_raise in Hreg as (x & s & _ & Hx).
         by apply set_owner_raise in Hx. }
    assert (Hseed : forall k v, seed (customData_nodes e) k v st1
                                <> Raise RecursionError st').
    { intros k v. unfold seed, port_one.
      destruct (lookup_key k (customData_nodes e)) as [[i|l]|]; [|done|done].
      unfold assign_state. by case_bool_decide. }
    repeat match goal with
           | |- (if ?b then _ else _) <> _ => destruct b
           end; done.
  - unfold scope_name. destruct (lookup_key (id e) names) as [name|]; [|done].
    destruct (for_each (inputNodes e) (set_owner e) st) as [st1|ex st1] eqn:Hreg.
    2: { intros [= -> _]. apply for_each_raise in Hreg as (x & s & _ & Hx).
         by apply set_owner_raise in Hx. }
    intros (x & s & _ & Hx)%for_each_raise. revert Hx.
    unfold set_owner. case_bool_decide; [|done].
    destruct (negb _); [|done]. unfold assign_state. by case_bool_decide.
Qed.

(** X16: the recursion of the resolution is bounded by the size of the
    netlist.  [find_successors] never nests its calls deeper than the
    number of nodes, and [topological_sort] never deeper than the number
    of nodes plus one: with a recursion limit above the number of nodes,
    neither the construction of a successor set, nor the sort, nor the
    computation of the states, nor the resolution as a whole raises
    [RecursionError], whatever the iteration order of the sets. *)
Theorem resolution_terminates names set_iter limit (elements : list element)
    (nodes : list node) (element_by_node_index : registry) :
  ((length nodes <= limit)%nat ->
   forall index l,
     successors_of names limit nodes element_by_node_index index
     <> Raise RecursionError l)
  /\ (forall G st, (length G < limit)%nat ->
        sort_nodes limit G (length G) <> Raise RecursionError st)
  /\ ((length nodes < limit)%nat ->
      forall s', compute_node_states names set_iter limit nodes element_by_node_index
                 <> Raise RecursionError s')
  /\ ((length nodes < limit)%nat ->
      forall s', resolve names set_iter limit elements nodes <> Raise RecursionError s').
Proof.
  split; [intros Hlimit index l; by apply successors_of_depth|].
  split; [intros G st Hlimit; by apply sort_nodes_depth|].
  split; [intros Hlimit s'; by apply compute_node_states_depth|].
  intros Hlimit s'. unfold resolve.
  destruct (initialize_all names elements nodes) as [[s0 r]|e st] eqn:Hinit.
  - cbn [fst snd]. apply compute_node_states_depth.
    unfold initialize_all in Hinit.
    destruct (initialize_loop_registry_inv names elements nodes elements
                (nodes, replicate (length nodes) None) (s0, r)) as ((Hshape & _) & _);
      [done| |done|].
    { split; [done|]. split; [apply length_replicate|].
      intros k e [? _]%lookup_replicate. done. }
    cbn [fst] in Hshape. by rewrite (shape_length _ _ Hshape).
  - intros [= -> _]. unfold initialize_all in Hinit.
    apply for_each_raise in Hinit as (x & s & _ & Hx).
    by apply initialize_not_recursion in Hx.
Qed.

(** * The exceptions of the evaluators and of the computation *)

Lemma rbind_exception {A B : Type} (m : res A) (f : A -> res B) msg :
  rbind m f = Err (Exception msg) ->
  m = Err (Exception msg) \/ exists a, m = Ok a /\ f a = Err (Exception msg).
Proof.
  destruct m as [a|e]; simpl; intros H; [right; by exists a|left; congruence].
Qed.

Lemma port_one_not_exception nodes k msg : port_one nodes k <> Err (Exception msg).
Proof. unfold port_one. by destruct (lookup_key k nodes) as [[i|l]|]. Qed.

Lemma port_state_not_exception nodes (s : list node) k msg :
  (do ix <- port_one nodes k; get_state s ix) <> Err (Exception msg).
Proof.
  intros [H|(a & _ & H)]%rbind_exception.
  - by apply port_one_not_exception in H.
  - by apply get_state_not_exception in H.
Qed.

Lemma port_node_not_exception nodes (s : list node) k j msg :
  (do ix <- port_at nodes k j; do _ <- get_node s ix; Ok ix) <> Err (Exception msg).
Proof.
  unfold port_at, port_many, get_node.
  destruct (lookup_key k nodes) as [[i|l]|]; simpl; try done.
  destruct (l !! j) as [i|]; simpl; [|done]. by destruct (s !! i).
Qed.

Lemma port_many_not_exception nodes k msg : port_many nodes k <> Err (Exception msg).
Proof. unfold port_many. by destruct (lookup_key k nodes) as [[i|l]|]. Qed.

Lemma node_at_not_exception l (s : list node) j msg :
  node_at l s j <> Err (Exception msg).
Proof.
  unfold node_at, get_node. destruct (l !! j) as [i|]; [|done]. by destruct (s !! i).
Qed.

Lemma node_at_state_not_exception l (s : list node) j msg :
  (do ix <- node_at l s j; get_state s ix) <> Err (Exception msg).
Proof.
  intros [H|(a & _ & H)]%rbind_exception.
  - by apply node_at_not_exception in H.
  - by apply get_state_not_exception in H.
Qed.

Lemma scope_name_not_exception names e msg : scope_name names e <> Err (Exception msg).
Proof. unfold scope_name. by destruct (lookup_key (id e) names). Qed.

Lemma check_arity_exception nodes n text msg :
  check_arity nodes n text = Err (Exception msg) ->
  msg = text
  /\ exists inp, lookup_key "inp" nodes = Some (Many inp) /\ length inp <> n.
Proof.
  unfold check_arity, port_many.
  destruct (lookup_key "inp" nodes) as [[i|l]|]; simpl; try discriminate.
  destruct (Nat.eqb_spec (length l) n); [discriminate|]. intros [= <-].
  split; [done|]. by exists l.
Qed.

Lemma state_at_inp_length nodes (s : list node) j v inp :
  state_at nodes s "inp" j = Ok v -> lookup_key "inp" nodes = Some (Many inp) ->
  (j < length inp)%nat.
Proof.
  unfold state_at, port_at, port_many. intros H Hinp. rewrite Hinp in H. simpl in H.
  destruct (inp !! j) eqn:Hj; [|done]. by eapply lookup_lt_Some.
Qed.

(** The steps of an evaluator whose failure is not an [Exception]. *)
Ltac skip_reads H :=
  repeat match type of H with
         | rbind _ _ = Err (Exception _) =>
           let a := fresh "a" in
           let Ha := fresh "Hread" in
           apply rbind_exception in H as [H|(a & Ha & H)];
           [first [ by apply state_at_not_exception in H
                  | by apply node_of_not_exception in H
                  | by apply port_state_not_exception in H
                  | by apply port_node_not_exception in H
                  | by apply port_many_not_exception in H
                  | by apply node_at_state_not_exception in H
                  | by apply node_at_not_exception in H
                  | by apply scope_name_not_exception in H
                  | idtac ]
           |]
         | (if ?b then _ else _) = Err _ => destruct b eqn:?
         end;
  try discriminate H.

Lemma update_subcircuit_not_exception names e s msg :
  update_subcircuit names e s <> Err (Exception msg).
Proof.
  intros Hrun. unfold update_subcircuit in Hrun. skip_reads Hrun.
  all: repeat match goal with
              | H : context [String.eqb ?a ?b] |- _ => destruct (String.eqb a b)
              | H : context [if ?b then _ else _] |- _ => destruct b
              end; try discriminate.
Qed.

(** The dispatch of [update_element] on the type of a component. *)
Lemma gate_exception (t : string) nodes (s : list node) msg :
  (if String.eqb t "AndGate" then update_and_gate nodes s
   else if String.eqb t "Demultiplexer" then update_demultiplexer nodes s
   else if String.eqb t "Multiplexer" then update_multiplexer nodes s
   else if String.eqb t "NandGate" then update_nand_gate nodes s
   else if String.eqb t "NorGate" then update_nor_gate nodes s
   else if String.eqb t "NotGate" then update_not_gate nodes s
   else if String.eqb t "OrGate" then update_or_gate nodes s
   else if String.eqb t "SRflipFlop" then update_sr_flip_flop nodes s
   else if String.eqb t "TriState" then update_tristate nodes s
   else if String.eqb t "XorGate" then update_xor_gate nodes s
   else Ok s) = Err (Exception msg) ->
  msg ∈ unsupported_messages
  /\ exists m inp, max_inputs t = Some m
                   /\ lookup_key "inp" nodes = Some (Many inp) /\ (m < length inp)%nat.
Proof.
  repeat match goal with
         | |- (if String.eqb t ?k then _ else _) = _ -> _ =>
           destruct (String.eqb_spec t k) as [->|_]
         end; try discriminate.
  all: intros Hrun.
  all: unfold update_and_gate, update_demultiplexer, update_multiplexer,
         update_nand_gate, update_nor_gate, update_not_gate, update_or_gate,
         update_sr_flip_flop, update_tristate, update_xor_gate in Hrun.
  all: skip_reads Hrun.
  all: match goal with
       | H : check_arity _ _ _ = Err (Exception _) |- _ =>
         apply check_arity_exception in H as (-> & inp & Hinp & Hlen)
       end.
  all: split; [by repeat constructor|].
  all: eexists _, inp; split; [reflexivity|]; split; [done|].
  all: repeat match goal with
              | H : state_at _ _ "inp" _ = Ok _ |- _ =>
                apply (fun H' => state_at_inp_length _ _ _ _ inp H' Hinp) in H
              | H : port_many _ "inp" = Ok _ |- _ =>
                unfold port_many in H; rewrite Hinp in H; injection H as <-
              | H : Nat.eqb _ _ = false |- _ => apply Nat.eqb_neq in H
              end.
  all: lia.
Qed.

Lemma update_element_message names e s msg :
  update_element names e s = Err (Exception msg) -> msg ∈ unsupported_messages.
Proof.
  unfold update_element. destruct (objectType e) as [t|].
  - cbv zeta. by intros [Hmsg _]%gate_exception.
  - intros H. by apply update_subcircuit_not_exception in H.
Qed.

(** X17: the evaluator of a component raises [Exception] only from an arity
    check: the component is an AND, NAND, NOR, XOR gate or a multiplexer
    with more than two inputs, or an OR gate with more than three, and
    the message is the one of such a check.  Sub-circuits, NOT gates,
    tri-state buffers, demultiplexers and latches never raise it. *)
Theorem update_element_exception names (e : element) (s : list node) (msg : string) :
  update_element names e s = Err (Exception msg) ->
  msg ∈ unsupported_messages
  /\ exists t m inp,
       objectType e = Some t /\ max_inputs t = Some m
       /\ lookup_key "inp" (customData_nodes e) = Some (Many inp)
       /\ (m < length inp)%nat.
Proof.
  unfold update_element. destruct (objectType e) as [t|] eqn:Ht.
  - cbv zeta. intros (Hmsg & m & inp & Hm & Hinp & Hlen)%gate_exception.
    split; [exact Hmsg|]. exists t, m, inp. by repeat split.
  - intros H. by apply update_subcircuit_not_exception in H.
Qed.

Lemma update_element_exception_witness :
  "Unsupported and gate (>2 inputs)" ∈ unsupported_messages
  /\ exists t m inp,
       objectType and3_gate = Some t /\ max_inputs t = Some m
       /\ lookup_key "inp" (customData_nodes and3_gate) = Some (Many inp)
       /\ (m < length inp)%nat.
Proof.
  apply (update_element_exception [] and3_gate and3_seeded). reflexivity.
Defined.

(** ** The exceptions of the computation of the states *)

(** The walk raises [IndexError] and [RecursionError] only. *)
Lemma find_successors_raise limit nodes :
  forall index st e st',
    find_successors limit nodes index st = Raise e st' ->
    e = IndexError \/ e = RecursionError.
Proof.
  induction limit as [|limit IH]; intros index st e st' Hrun;
    [injection Hrun as <- _; by right|].
  cbn [find_successors] in Hrun.
  case_bool_decide; [|injection Hrun as <- _; by left].
  destruct (nodes !! index) as [n|]; [|injection Hrun as <- _; by left].
  apply for_each_raise in Hrun as (c & st1 & _ & Hrun).
  destruct (snd st1 !! c) as [[|]|]; [done| |injection Hrun as <- _; by left].
  destruct (nodes !! c) as [m|]; [|injection Hrun as <- _; by left].
  by eapply IH.
Qed.

Lemma successors_of_not_exception names limit nodes element_by_node_index index msg l :
  successors_of names limit nodes element_by_node_index index
  <> Raise (Exception msg) l.
Proof.
  unfold successors_of. intros Hrun.
  destruct (nodes !! index) as [n|]; [|done].
  destruct (Z.eqb (type n) INPUT_NODE).
  - destruct (element_by_node_index !! index) as [[e|]|]; [|done|done].
    destruct (objectType e).
    + apply for_each_raise in Hrun as (x & s0 & _ & Hrun).
      destruct (nodes !! x) as [m|]; [|done].
      by destruct (Z.eqb (type m) OUTPUT_NODE && negb (defined (state m))).
    + destruct (scope_name names e) as [name|ex] eqn:Hname.
      * apply for_each_raise in Hrun as (x & s0 & _ & Hrun).
        by destruct (contains "Normally" name).
      * injection Hrun as -> _. by apply scope_name_not_exception in Hname.
  - destruct (Z.eqb (type n) OUTPUT_NODE); [|done].
    destruct (find_successors _ _ _ _) as [st|ex st] eqn:Hwalk; [done| ].
    apply find_successors_raise in Hwalk as [-> | ->]; congruence.
Qed.

Lemma maybe_update_subcircuit_input_not_exception names e s msg :
  maybe_update_subcircuit_input names e s <> Err (Exception msg).
Proof.
  intros Hrun. unfold maybe_update_subcircuit_input in Hrun. skip_reads Hrun.
  all: repeat match goal with
              | H : context [if ?b then _ else _] |- _ => destruct b
              end; try discriminate.
Qed.

Lemma adopt_not_exception (s : list node) l msg : adopt s l <> Err (Exception msg).
Proof.
  induction l as [|c l IH]; [done|]. cbn [adopt]. intros Hrun.
  apply rbind_exception in Hrun as [Hrun|(st & _ & Hrun)].
  - by apply get_state_not_exception in Hrun.
  - by destruct (defined st).
Qed.

Lemma flood_raise successors v (s s' : list node) e :
  flood successors v s = Raise e s' -> e = IndexError.
Proof.
  unfold flood. intros (x & s0 & _ & Hrun)%for_each_raise.
  unfold assign_state in Hrun. case_bool_decide; [done|]. by injection Hrun as <- _.
Qed.

(** An [Exception] of the reverse pass is the one of an evaluator, and
    the store is the one on which this evaluator was run. *)
Lemma reverse_step_exception names (element_by_node_index : registry) G k s s' msg :
  reverse_step names element_by_node_index G k s = Raise (Exception msg) s' ->
  exists e, element_by_node_index !! k = Some (Some e)
            /\ update_element names e s' = Err (Exception msg).
Proof.
  unfold reverse_step. intros Hrun.
  destruct (s !! k) as [n|]; [|done].
  destruct (negb (Z.eqb (type n) OUTPUT_NODE)); [done|].
  destruct (element_by_node_index !! k) as [[e|]|]; [| |done].
  - destruct (defined (state n)).
    + destruct (get_state s k) as [[v|]|ex] eqn:Hget; [|done|].
      * destruct (G !! k) as [ss|]; [|done]. apply flood_raise in Hrun. done.
      * injection Hrun as -> _. by apply get_state_not_exception in Hget.
    + destruct (update_element names e s) as [s1|ex] eqn:Hup.
      * destruct (get_state s1 k) as [[v|]|ex] eqn:Hget; [|done|].
        -- destruct (G !! k) as [ss|]; [|done]. apply flood_raise in Hrun. done.
        -- injection Hrun as -> _. by apply get_state_not_exception in Hget.
      * injection Hrun as -> <-. by exists e.
  - destruct (get_state s k) as [[v|]|ex] eqn:Hget; [|done|].
    + destruct (G !! k) as [ss|]; [|done]. apply flood_raise in Hrun. done.
    + injection Hrun as -> _. by apply get_state_not_exception in Hget.
Qed.

Lemma forward_step_not_exception names (element_by_node_index : registry) k s s' msg :
  forward_step names element_by_node_index k s <> Raise (Exception msg) s'.
Proof.
  unfold forward_step. intros Hrun.
  destruct (s !! k) as [n|]; [|done].
  destruct (defined (state n)); [done|].
  destruct (adopt s (connections n)) as [st|ex] eqn:Hadopt;
    [|injection Hrun as -> _; by apply adopt_not_exception in Hadopt].
  destruct (Z.eqb (type n) OUTPUT_NODE); [|done].
  destruct (element_by_node_index !! k) as [[e|]|]; [|done|done].
  destruct (objectType e); [done|].
  unfold run in Hrun.
  destruct (maybe_update_subcircuit_input names e _) as [s1|ex] eqn:Hup; [done|].
  injection Hrun as -> _. by apply maybe_update_subcircuit_input_not_exception in Hup.
Qed.

(** X18: the exceptions with a message that the computation of the
    states can raise, whatever the iteration order of the sets and the
    recursion limit.  The cycle error is raised before any state is
    changed, and only when the successor lists built from the store
    contain a cycle.  Any other message is the one of the arity check of
    an evaluator, raised in the reverse pass for a registered component,
    and the store left is the one on which this evaluator failed. *)
Theorem compute_node_states_exception names set_iter limit (nodes : list node)
    (element_by_node_index : registry) (msg : string) (s' : list node) :
  compute_node_states names set_iter limit nodes element_by_node_index
    = Raise (Exception msg) s' ->
  (msg = "Cyclic graph!" /\ s' = nodes
   /\ exists G, build_successors names set_iter limit nodes element_by_node_index = Done G
                /\ cyclic G)
  \/ (msg ∈ unsupported_messages
      /\ exists k e, element_by_node_index !! k = Some (Some e)
                     /\ update_element names e s' = Err (Exception msg)).
Proof.
  unfold compute_node_states. intros Hrun.
  destruct (build_successors names set_iter limit nodes element_by_node_index)
    as [G|ex l] eqn:Hbuild.
  - pose proof (build_successors_done _ _ _ _ _ _ Hbuild) as [Hlen _].
    rewrite <- Hlen in Hrun.
    pose proof (sort_nodes_post limit G) as Hout.
    destruct (sort_nodes limit G (length G)) as [st|ex st] eqn:Hsort.
    + right.
      destruct (reverse_pass names element_by_node_index G (fst st) nodes)
        as [s1|ex s1] eqn:Hrev.
      * apply for_each_raise in Hrun as (k & s0 & _ & Hrun).
        by apply forward_step_not_exception in Hrun.
      * injection Hrun as -> ->.
        apply for_each_raise in Hrev as (k & s0 & _ & Hrev).
        apply reverse_step_exception in Hrev as (e & He & Hup).
        split; [by apply update_element_message in Hup|].
        by exists k, e.
    + left. injection Hrun as -> <-.
      destruct Hout as [[Hc Hcyc]|[[Hc _]|[Hc _]]]; [|done|done].
      injection Hc as ->. split; [done|]. split; [done|]. by exists G.
  - injection Hrun as -> _. unfold build_successors in Hbuild.
    apply collect_raise in Hbuild as (x & b & _ & Hbuild).
    destruct (successors_of names limit nodes element_by_node_index x) as [set|ex set]
      eqn:Hset; [done|].
    injection Hbuild as -> _. by apply successors_of_not_exception in Hset.
Qed.

Lemma compute_node_states_exception_witness :
  ("Unsupported and gate (>2 inputs)" = "Cyclic graph!" /\ and3_flooded = and3_seeded
   /\ exists G, build_successors [] (fun s => s) 1000 and3_seeded and3_registry = Done G
                /\ cyclic G)
  \/ ("Unsupported and gate (>2 inputs)" ∈ unsupported_messages
      /\ exists k e, and3_registry !! k = Some (Some e)
                     /\ update_element [] e and3_flooded
                        = Err (Exception "Unsupported and gate (>2 inputs)")).
Proof.
  apply (compute_node_states_exception [] (fun s => s) 1000 and3_seeded and3_registry).
  vm_compute. reflexivity.
Defined.

(** * Evaluating a component twice *)

Section Stable.

Variable W : list nat.
Variables s s1 : list node.
Hypothesis Hmod : modifies W s s1.

Lemma get_node_stable i : (do _ <- get_node s1 i; Ok i) = (do _ <- get_node s i; Ok i).
Proof.
  destruct Hmod as [Hshape _]. apply shape_length in Hshape. unfold get_node.
  destruct (s !! i) as [n|] eqn:Hn.
  - destruct (lookup_lt_is_Some_2 s1 i) as [n1 Hn1];
      [rewrite Hshape; by eapply lookup_lt_Some|]. by rewrite Hn1.
  - apply lookup_ge_None in Hn. by rewrite (proj2 (lookup_ge_None s1 i)) by lia.
Qed.

Lemma get_state_stable i : i ∉ W -> get_state s1 i = get_state s i.
Proof. intros Hi. unfold get_state, get_node. by rewrite (proj2 Hmod i Hi). Qed.

Lemma state_at_stable nodes k j :
  (forall i, i ∈ port_indices nodes k -> i ∉ W) ->
  state_at nodes s1 k j = state_at nodes s k j.
Proof.
  intros Hk. unfold state_at. destruct (port_at nodes k j) as [i|ex] eqn:Hi; [|done].
  simpl. apply get_state_stable, Hk. by eapply port_at_written.
Qed.

Lemma port_state_stable nodes k :
  (forall i, i ∈ port_indices nodes k -> i ∉ W) ->
  (do ix <- port_one nodes k; get_state s1 ix)
  = (do ix <- port_one nodes k; get_state s ix).
Proof.
  intros Hk. unfold port_one, port_indices in *.
  destruct (lookup_key k nodes) as [[i|l]|]; simpl; try done.
  apply get_state_stable, Hk. by apply list_elem_of_singleton.
Qed.

Lemma node_of_stable nodes k : node_of nodes s1 k = node_of nodes s k.
Proof.
  unfold node_of. destruct (port_one nodes k) as [i|ex]; [|done]. simpl.
  apply get_node_stable.
Qed.

Lemma port_node_stable nodes k j :
  (do ix <- port_at nodes k j; do _ <- get_node s1 ix; Ok ix)
  = (do ix <- port_at nodes k j; do _ <- get_node s ix; Ok ix).
Proof.
  destruct (port_at nodes k j) as [i|ex]; [|done]. simpl. apply get_node_stable.
Qed.

Lemma node_at_stable l j : node_at l s1 j = node_at l s j.
Proof. unfold node_at. destruct (l !! j) as [i|]; [|done]. apply get_node_stable. Qed.

Lemma node_at_state_stable l j :
  (forall i, l !! j = Some i -> i ∉ W) ->
  (do ix <- node_at l s1 j; get_state s1 ix) = (do ix <- node_at l s j; get_state s ix).
Proof.
  intros Hj. rewrite node_at_stable.
  destruct (node_at l s j) as [i|ex] eqn:Hi; [|done]. simpl.
  apply get_state_stable, Hj. by eapply node_at_lookup.
Qed.

End Stable.

Lemma lookup_set_state (s : list node) i j v :
  set_state i v s !! j
  = if decide (i = j) then (fun n => Node (type n) v (connections n)) <$> s !! j
    else s !! j.
Proof.
  unfold set_state. destruct (decide (i = j)) as [->|Hij].
  - apply list_lookup_alter_eq.
  - by apply list_lookup_alter_ne.
Qed.

(** Assignments already made are absorbed. *)
Ltac absorb :=
  apply list_eq; intros ?j; rewrite !lookup_set_state;
  repeat case_decide; try congruence;
  match goal with |- context [?s !! ?j] => destruct (s !! j) end; done.

Ltac same_reads :=
  repeat match goal with
         | |- context [rbind ?m _] => destruct m; cbn [rbind]; try discriminate
         end;
  repeat match goal with
         | |- context [if ?b then _ else _] => destruct b
         end.

Lemma update_gate_idempotent (f : ports -> list node -> res (list node)) nodes s s1 :
  f ∈ [update_and_gate; update_demultiplexer; update_multiplexer; update_nand_gate;
       update_nor_gate; update_not_gate; update_or_gate; update_sr_flip_flop;
       update_tristate; update_xor_gate] ->
  (forall k i, k ∈ ["inp"; "inp1"; "input"; "controlSignalInput"; "S"; "state"] ->
     i ∈ port_indices nodes k ->
     i ∉ port_indices nodes "output1" ++ port_indices nodes "qOutput") ->
  f nodes s = Ok s1 -> f nodes s1 = Ok s1.
Proof.
  intros Hf Hdisj Hrun.
  pose proof (update_gate_modifies f nodes s s1 Hf Hrun) as Hmod.
  assert (Hk : forall k, k ∈ ["inp"; "inp1"; "input"; "controlSignalInput"; "S"; "state"] ->
                 forall i, i ∈ port_indices nodes k ->
                   i ∉ port_indices nodes "output1" ++ port_indices nodes "qOutput")
    by (intros k Hk i Hi; by apply (Hdisj k i)).
  revert Hrun.
  repeat (apply elem_of_cons in Hf as [->|Hf]); [..|by apply elem_of_nil in Hf].
  all: unfold update_and_gate, update_demultiplexer, update_multiplexer,
         update_nand_gate, update_nor_gate, update_not_gate, update_or_gate,
         update_sr_flip_flop, update_tristate, update_xor_gate.
  all: rewrite ?(node_of_stable _ s s1 Hmod), ?(port_node_stable _ s s1 Hmod).
  all: repeat first
         [ rewrite (state_at_stable _ s s1 Hmod nodes "inp") by (apply Hk; by repeat constructor)
         | rewrite (port_state_stable _ s s1 Hmod nodes "inp1") by (apply Hk; by repeat constructor)
         | rewrite (port_state_stable _ s s1 Hmod nodes "input") by (apply Hk; by repeat constructor)
         | rewrite (port_state_stable _ s s1 Hmod nodes "controlSignalInput")
             by (apply Hk; by repeat constructor)
         | rewrite (port_state_stable _ s s1 Hmod nodes "S") by (apply Hk; by repeat constructor)
         | rewrite (port_state_stable _ s s1 Hmod nodes "state") by (apply Hk; by repeat constructor) ].
  all: clear Hmod.
  all: same_reads.
  all: intros [= <-]; try done; f_equal; absorb.
Qed.

Lemma update_subcircuit_idempotent names e s s1 :
  (forall i, i ∈ take 2 (inputNodes e) -> i ∉ take 1 (outputNodes e)) ->
  update_subcircuit names e s = Ok s1 -> update_subcircuit names e s1 = Ok s1.
Proof.
  intros Hdisj Hrun.
  pose proof (update_subcircuit_modifies names e s s1 Hrun) as Hmod.
  assert (Hin : forall j, (j < 2)%nat ->
                  forall i, inputNodes e !! j = Some i -> i ∉ take 1 (outputNodes e)).
  { intros j Hj i Hi. apply Hdisj. apply list_elem_of_lookup. exists j.
    by rewrite lookup_take_lt. }
  revert Hrun. unfold update_subcircuit.
  rewrite (node_at_state_stable _ s s1 Hmod (inputNodes e) 0) by (apply Hin; lia).
  rewrite (node_at_state_stable _ s s1 Hmod (inputNodes e) 1) by (apply Hin; lia).
  rewrite (node_at_stable _ s s1 Hmod).
  clear Hmod. same_reads.
  all: intros [= <-]; try done; f_equal; absorb.
Qed.

(** Evaluating a component a second time changes nothing. *)
Lemma update_element_again names (e : element) (s s1 : list node) :
  (forall i, i ∈ evaluator_inputs e -> i ∉ evaluator_outputs e) ->
  update_element names e s = Ok s1 ->
  update_element names e s1 = Ok s1.
Proof.
  unfold update_element, evaluator_inputs, evaluator_outputs.
  destruct (objectType e) as [t|]; [|apply update_subcircuit_idempotent].
  intros Hdisj. cbv zeta.
  assert (Hk : forall k i,
             k ∈ ["inp"; "inp1"; "input"; "controlSignalInput"; "S"; "state"] ->
             i ∈ port_indices (customData_nodes e) k ->
             i ∉ port_indices (customData_nodes e) "output1"
                 ++ port_indices (customData_nodes e) "qOutput").
  { intros k i Hk Hi. apply Hdisj.
    repeat (apply elem_of_cons in Hk as [->|Hk]); [..|by apply elem_of_nil in Hk].
    all: rewrite !elem_of_app; auto 10. }
  repeat match goal with
         | |- (if ?b then _ else _) = _ -> _ =>
           destruct b;
           [apply update_gate_idempotent; [by repeat constructor|exact Hk]|]
         end.
  by intros [= <-].
Qed.

(** X19: evaluating a component a second time changes nothing.  When
    none of the nodes that the evaluator reads is one of those it
    assigns, an evaluation that returns leaves a store on which the
    evaluator returns again, with that same store. *)
Theorem update_element_idempotent names (e : element) (s s1 : list node) :
  (forall i, i ∈ evaluator_inputs e -> i ∉ evaluator_outputs e) ->
  update_element names e s = Ok s1 ->
  update_element names e s1 = Ok s1.
Proof. apply update_element_again. Qed.

Lemma update_element_idempotent_witness :
  update_element [] (component "Demultiplexer" demux_ports "RIGHT")
    (set_state 3 (Some 0) (set_state 2 (Some 1) (demux_store (Some 1) (Some 0))))
  = Ok (set_state 3 (Some 0) (set_state 2 (Some 1) (demux_store (Some 1) (Some 0)))).
Proof.
  apply (update_element_idempotent [] (component "Demultiplexer" demux_ports "RIGHT")
           (demux_store (Some 1) (Some 0))).
  - intros i Hi Ho. vm_compute in Hi, Ho.
    repeat (apply elem_of_cons in Hi as [->|Hi]);
      repeat (apply elem_of_cons in Ho as [Ho|Ho]; try discriminate Ho);
      by apply elem_of_nil in Ho || by apply elem_of_nil in Hi.
  - reflexivity.
Defined.

(** * The course of a loop *)

Lemma for_each_app {A S : Type} (body : A -> S -> outcome S) l1 l2 s :
  for_each (l1 ++ l2) body s
  = match for_each l1 body s with
    | Done s1 => for_each l2 body s1
    | r => r
    end.
Proof.
  revert s. induction l1 as [|x l1 IH]; intros s; simpl; [done|].
  destruct (body x s) as [s1|e s1]; [apply IH|done].
Qed.

Lemma for_each_app_done {A S : Type} (body : A -> S -> outcome S) l1 l2 s s' :
  for_each (l1 ++ l2) body s = Done s' ->
  exists s1, for_each l1 body s = Done s1 /\ for_each l2 body s1 = Done s'.
Proof.
  rewrite for_each_app. destruct (for_each l1 body s) as [s1|e s1]; [|done].
  intros H. by exists s1.
Qed.

Lemma for_each_snoc {A S : Type} (body : A -> S -> outcome S) l x s s1 s' :
  for_each l body s = Done s1 -> body x s1 = Done s' ->
  for_each (l ++ [x]) body s = Done s'.
Proof. intros H1 H2. rewrite for_each_app, H1. simpl. by rewrite H2. Qed.

(** A property of the visited elements and of the state that holds at
    the start and that every iteration preserves holds after every
    prefix of the loop. *)
Lemma for_each_invariant {A S : Type} (body : A -> S -> outcome S)
    (Inv : list A -> S -> Prop) l s0 :
  Inv [] s0 ->
  (forall pre x post s s',
     l = pre ++ x :: post -> for_each pre body s0 = Done s -> Inv pre s ->
     body x s = Done s' -> Inv (pre ++ [x]) s') ->
  forall pre post s, l = pre ++ post -> for_each pre body s0 = Done s -> Inv pre s.
Proof.
  intros Hinit Hstep pre. induction pre as [|x pre IH] using rev_ind;
    intros post s Hl Hrun.
  - simpl in Hrun. by injection Hrun as <-.
  - apply for_each_app_done in Hrun as (s1 & Hpre & Hx). simpl in Hx.
    destruct (body x s1) as [s2|e s2] eqn:Hbody; [|done]. injection Hx as ->.
    rewrite <- app_assoc in Hl. simpl in Hl.
    eapply Hstep; [exact Hl|exact Hpre| |exact Hbody].
    by eapply IH.
Qed.

(** A property of the state that every later iteration preserves holds
    at the end of the loop. *)
Lemma for_each_preserved {A S : Type} (body : A -> S -> outcome S)
    (P : S -> Prop) s0 post :
  forall pre s s_end,
    for_each pre body s0 = Done s -> for_each post body s = Done s_end ->
    (forall mid x rest t t',
       post = mid ++ x :: rest -> for_each (pre ++ mid) body s0 = Done t ->
       body x t = Done t' -> P t -> P t') ->
    P s -> P s_end.
Proof.
  induction post as [|x post IH]; intros pre s s_end Hpre Hpost Hstep HP.
  - simpl in Hpost. by injection Hpost as <-.
  - simpl in Hpost. destruct (body x s) as [t|e t] eqn:Hx; [|done].
    apply (IH (pre ++ [x]) t s_end).
    + by eapply for_each_snoc.
    + exact Hpost.
    + intros mid y rest u u' Hl Hrun. apply (Hstep (x :: mid) y rest).
      * by rewrite Hl.
      * by rewrite <- app_assoc in Hrun.
    + apply (Hstep [] x post s t); [done|by rewrite app_nil_r|done|done].
Qed.

(** ** Positions in a list without repetition *)

Lemma precedes_in_prefix (pre post : list nat) k a b :
  NoDup (pre ++ k :: post) -> precedes (pre ++ k :: post) a b ->
  b ∈ pre ++ [k] -> a ∈ pre.
Proof.
  intros Hnd (i & j & Hi & Hj & Hij) Hb.
  assert (Hjlt : (j <= length pre)%nat).
  { apply elem_of_app in Hb as [Hb|Hb].
    - apply list_elem_of_lookup in Hb as [j' Hj'].
      pose proof (lookup_lt_Some _ _ _ Hj') as Hlt.
      assert (H : (pre ++ k :: post) !! j' = Some b) by by rewrite lookup_app_l.
      pose proof (NoDup_lookup _ _ _ _ Hnd Hj H). lia.
    - apply list_elem_of_singleton in Hb as ->.
      assert (H : (pre ++ k :: post) !! length pre = Some k)
        by by rewrite list_lookup_middle.
      pose proof (NoDup_lookup _ _ _ _ Hnd Hj H). lia. }
  rewrite lookup_app_l in Hi by lia. by eapply list_elem_of_lookup_2.
Qed.

Lemma middle_not_in_prefix (pre post : list nat) k :
  NoDup (pre ++ k :: post) -> k ∉ pre.
Proof.
  intros Hnd Hk. apply NoDup_app in Hnd as (_ & Hdisj & _).
  apply (Hdisj k Hk). by apply elem_of_cons; left.
Qed.

(** Two edges cannot lead from a node visited now to a node visited
    before. *)
Lemma no_way_back (pre post : list nat) k p k0 :
  NoDup (pre ++ k :: post) ->
  precedes (pre ++ k :: post) k p -> precedes (pre ++ k :: post) p k0 ->
  k0 ∈ pre ++ [k] -> False.
Proof.
  intros Hnd Hkp Hpk0 Hk0.
  pose proof (precedes_in_prefix pre post k p k0 Hnd Hpk0 Hk0) as Hp.
  assert (Hk : k ∈ pre).
  { eapply precedes_in_prefix; [exact Hnd|exact Hkp|]. apply elem_of_app. by left. }
  by apply (middle_not_in_prefix pre post k Hnd).
Qed.

(** * Stable components

    A component is stable in a store when its evaluator returns and
    changes nothing. *)

Lemma port_node_written nodes (s : list node) k j o :
  (do ix <- port_at nodes k j; do _ <- get_node s ix; Ok ix) = Ok o ->
  o ∈ port_indices nodes k.
Proof.
  destruct (port_at nodes k j) as [i|ex] eqn:Hi; simpl; [|done].
  destruct (get_node s i); simpl; [|done]. intros [= <-]. by eapply port_at_written.
Qed.

Ltac keep_reads :=
  repeat match goal with
         | |- context [rbind ?m _] =>
           let H := fresh "Hread" in
           destruct m eqn:H; cbn [rbind]; try discriminate
         end;
  repeat match goal with
         | |- context [if ?b then _ else _] => destruct b
         end.

(** A stable gate stays stable when the store changes at nodes that are
    not among its ports. *)
Lemma update_gate_stable (f : ports -> list node -> res (list node)) nodes W s t :
  f ∈ [update_and_gate; update_demultiplexer; update_multiplexer; update_nand_gate;
       update_nor_gate; update_not_gate; update_or_gate; update_sr_flip_flop;
       update_tristate; update_xor_gate] ->
  modifies W s t ->
  (forall k i, k ∈ ["inp"; "inp1"; "input"; "controlSignalInput"; "S"; "state";
                    "output1"; "qOutput"] ->
     i ∈ port_indices nodes k -> i ∉ W) ->
  f nodes s = Ok s -> f nodes t = Ok t.
Proof.
  intros Hf Hmod Hports.
  assert (Hk : forall k, k ∈ ["inp"; "inp1"; "input"; "controlSignalInput"; "S"; "state";
                              "output1"; "qOutput"] ->
                 forall i, i ∈ port_indices nodes k -> i ∉ W)
    by (intros k Hk i Hi; by apply (Hports k i)).
  assert (Hsame : forall k o, k ∈ ["output1"; "qOutput"] ->
                    o ∈ port_indices nodes k -> t !! o = s !! o).
  { intros k o Hk' Ho. apply (proj2 Hmod). apply (Hports k o); [|done].
    repeat (apply elem_of_cons in Hk' as [->|Hk']); [..|by apply elem_of_nil in Hk'];
      by repeat constructor. }
  repeat (apply elem_of_cons in Hf as [->|Hf]); [..|by apply elem_of_nil in Hf].
  all: unfold update_and_gate, update_demultiplexer, update_multiplexer,
         update_nand_gate, update_nor_gate, update_not_gate, update_or_gate,
         update_sr_flip_flop, update_tristate, update_xor_gate.
  all: rewrite ?(node_of_stable _ s t Hmod), ?(port_node_stable _ s t Hmod).
  all: repeat first
         [ rewrite (state_at_stable _ s t Hmod nodes "inp") by (apply Hk; by repeat constructor)
         | rewrite (port_state_stable _ s t Hmod nodes "inp1") by (apply Hk; by repeat constructor)
         | rewrite (port_state_stable _ s t Hmod nodes "input") by (apply Hk; by repeat constructor)
         | rewrite (port_state_stable _ s t Hmod nodes "controlSignalInput")
             by (apply Hk; by repeat constructor)
         | rewrite (port_state_stable _ s t Hmod nodes "S") by (apply Hk; by repeat constructor)
         | rewrite (port_state_stable _ s t Hmod nodes "state") by (apply Hk; by repeat constructor) ].
  all: keep_reads.
  all: repeat match goal with
              | H : node_of _ _ ?k = Ok ?o |- _ =>
                apply node_of_written in H; apply (Hsame k o) in H;
                [|by repeat constructor]
              | H : rbind (port_at _ ?k _) _ = Ok ?o |- _ =>
                apply port_node_written in H; apply (Hsame k o) in H;
                [|by repeat constructor]
              end.
  all: intros Heq; try done; injection Heq as Heq; f_equal; apply list_eq; intros j.
  all: pose proof (f_equal (fun l : list node => l !! j) Heq) as Hj; cbv beta in Hj.
  all: rewrite ?lookup_set_state in Hj |- *.
  all: repeat case_decide; subst; congruence.
Qed.

(** What a relay evaluation that returns has read. *)
Lemma update_subcircuit_reads names e (s s' : list node) :
  update_subcircuit names e s = Ok s' ->
  exists ii ic o name vi vc,
    inputNodes e !! 0%nat = Some ii /\ inputNodes e !! 1%nat = Some ic
    /\ outputNodes e !! 0%nat = Some o /\ lookup_key (id e) names = Some name
    /\ has_state s ii vi /\ has_state s ic vc /\ (o < length s)%nat.
Proof.
  unfold update_subcircuit, scope_name, node_at, get_state, get_node, has_state.
  intros Hrun.
  destruct (inputNodes e !! 0%nat) as [ii|]; [|done].
  destruct (s !! ii) as [ni|] eqn:Hni; [|done]. simpl in Hrun. rewrite Hni in Hrun.
  simpl in Hrun.
  destruct (inputNodes e !! 1%nat) as [ic|]; [|done].
  destruct (s !! ic) as [nc|] eqn:Hnc; [|done]. simpl in Hrun. rewrite Hnc in Hrun.
  simpl in Hrun.
  destruct (outputNodes e !! 0%nat) as [o|]; [|done].
  destruct (s !! o) as [no|] eqn:Hno; [|done]. simpl in Hrun.
  destruct (lookup_key (id e) names) as [name|]; [|done].
  exists ii, ic, o, name, (state ni), (state nc).
  rewrite Hni, Hnc. repeat split; try done. by eapply lookup_lt_Some.
Qed.

Lemma elem_of_take_2 (l : list nat) j i :
  (j < 2)%nat -> l !! j = Some i -> i ∈ take 2 l.
Proof. intros Hj Hi. apply list_elem_of_lookup. exists j. by rewrite lookup_take_lt. Qed.

Lemma set_state_fixed (s : list node) i v : set_state i v s = s -> (i < length s)%nat ->
  has_state s i v.
Proof. intros Heq Hlt. rewrite <- Heq. by apply has_state_set_eq. Qed.

Lemma modifies_length W s t : modifies W s t -> length t = length s.
Proof. intros [Hshape _]. by apply shape_length. Qed.

Lemma modifies_has_state_back W s t i v :
  modifies W s t -> i ∉ W -> has_state t i v -> has_state s i v.
Proof. intros [_ Hf] Hi Hv. unfold has_state in *. by rewrite <- Hf. Qed.

(** A stable relay stays stable when the store changes at nodes that
    are not among its ports. *)
Lemma update_subcircuit_stable names e W s t :
  modifies W s t ->
  (forall i, i ∈ take 2 (inputNodes e) ++ take 1 (outputNodes e) -> i ∉ W) ->
  update_subcircuit names e s = Ok s -> update_subcircuit names e t = Ok t.
Proof.
  intros Hmod Hports Hrun.
  destruct (update_subcircuit_reads _ _ _ _ Hrun)
    as (ii & ic & o & name & vi & vc & Hii & Hic & Ho & Hname & Hvi & Hvc & Holt).
  rewrite (update_subcircuit_table names e name ii ic o Hii Hic Ho Hname s vi vc
             Hvi Hvc Holt) in Hrun.
  assert (Hiw : ii ∉ W).
  { apply Hports, elem_of_app. left. apply (elem_of_take_2 _ 0%nat); [lia|done]. }
  assert (Hcw : ic ∉ W).
  { apply Hports, elem_of_app. left. apply (elem_of_take_2 _ 1%nat); [lia|done]. }
  assert (How : o ∉ W).
  { apply Hports, elem_of_app. right. by apply elem_of_take_1. }
  rewrite (update_subcircuit_table names e name ii ic o Hii Hic Ho Hname t vi vc).
  - f_equal. destruct (defined vi && conducts name vc); [|done].
    injection Hrun as Hrun. apply set_state_same.
    eapply modifies_has_state; [exact Hmod|done|]. by apply set_state_fixed.
  - by eapply modifies_has_state.
  - by eapply modifies_has_state.
  - by rewrite (modifies_length _ _ _ Hmod).
Qed.

(** A stable component stays stable when the store changes at nodes
    that are not among its ports. *)
Lemma update_element_stable names e W s t :
  modifies W s t ->
  (forall i, i ∈ evaluator_inputs e ++ evaluator_outputs e -> i ∉ W) ->
  update_element names e s = Ok s -> update_element names e t = Ok t.
Proof.
  unfold update_element, evaluator_inputs, evaluator_outputs.
  destruct (objectType e) as [ty|]; [|apply update_subcircuit_stable].
  intros Hmod Hports. cbv zeta.
  assert (Hk : forall k i,
             k ∈ ["inp"; "inp1"; "input"; "controlSignalInput"; "S"; "state";
                  "output1"; "qOutput"] ->
             i ∈ port_indices (customData_nodes e) k -> i ∉ W).
  { intros k i Hk Hi. apply Hports.
    repeat (apply elem_of_cons in Hk as [->|Hk]); [..|by apply elem_of_nil in Hk].
    all: rewrite !elem_of_app; auto 10. }
  repeat match goal with
         | |- (if ?b then _ else _) = _ -> _ =>
           destruct b;
           [apply (update_gate_stable _ _ W); [by repeat constructor|done|exact Hk]|]
         end.
  done.
Qed.

(** A component without an evaluator is left alone. *)
Lemma update_element_no_evaluator names e (s : list node) :
  ~ has_evaluator e -> update_element names e s = Ok s.
Proof.
  unfold has_evaluator, update_element. destruct (objectType e) as [ty|]; [|tauto].
  intros Hty. cbv zeta. unfold evaluated_types in Hty.
  repeat match goal with
         | |- (if String.eqb ty ?k then _ else _) = _ =>
           destruct (String.eqb_spec ty k) as [Heq|_];
           [exfalso; apply Hty; rewrite Heq; by repeat constructor|]
         end.
  done.
Qed.

Lemma has_evaluator_dec e : has_evaluator e \/ ~ has_evaluator e.
Proof.
  unfold has_evaluator. destruct (objectType e) as [ty|]; [|by left].
  destruct (decide (ty ∈ evaluated_types)); [by left|by right].
Qed.

(** ** The backward rule on a stable relay *)

Section StableRelay.

Variable names : list (string * string).
Variable e : element.

(** Adopting a state at a node that is not an input of a stable relay
    leaves the relay stable. *)
Lemma update_subcircuit_adopt (s : list node) x v :
  update_subcircuit names e s = Ok s ->
  has_state s x None -> x ∉ take 2 (inputNodes e) ->
  update_subcircuit names e (set_state x (Some v) s) = Ok (set_state x (Some v) s).
Proof.
  intros Hrun Hx Hin.
  destruct (update_subcircuit_reads _ _ _ _ Hrun)
    as (ii & ic & o & name & vi & vc & Hii & Hic & Ho & Hname & Hvi & Hvc & Holt).
  rewrite (update_subcircuit_table names e name ii ic o Hii Hic Ho Hname s vi vc
             Hvi Hvc Holt) in Hrun.
  assert (Hxi : x <> ii) by (intros ->; apply Hin; apply (elem_of_take_2 _ 0%nat); [lia|done]).
  assert (Hxc : x <> ic) by (intros ->; apply Hin; apply (elem_of_take_2 _ 1%nat); [lia|done]).
  rewrite (update_subcircuit_table names e name ii ic o Hii Hic Ho Hname _ vi vc).
  - f_equal. destruct (defined vi) eqn:Hdef; [|done].
    destruct (conducts name vc); [|done]. simpl in *.
    injection Hrun as Hrun. apply set_state_fixed in Hrun; [|done].
    apply set_state_same. apply has_state_set_ne; [|done].
    intros ->. unfold has_state in *. rewrite Hx in Hrun.
    injection Hrun as <-. done.
  - by apply has_state_set_ne.
  - by apply has_state_set_ne.
  - by rewrite length_set_state.
Qed.

(** The backward rule keeps every defined state when the relay is
    stable. *)
Lemma relay_backward_keeps (s s' : list node) x v :
  update_subcircuit names e s = Ok s ->
  maybe_update_subcircuit_input names e s = Ok s' ->
  has_state s x (Some v) -> has_state s' x (Some v).
Proof.
  intros Hrun Hback Hx.
  destruct (update_subcircuit_reads _ _ _ _ Hrun)
    as (ii & ic & o & name & vi & vc & Hii & Hic & Ho & Hname & Hvi & Hvc & Holt).
  rewrite (update_subcircuit_table names e name ii ic o Hii Hic Ho Hname s vi vc
             Hvi Hvc Holt) in Hrun.
  destruct (lookup_lt_is_Some_2 s o Holt) as [no Hno].
  assert (Hvo : has_state s o (state no)) by (unfold has_state; by rewrite Hno).
  rewrite (maybe_update_subcircuit_input_table names e name ii ic o Hii Hic Ho Hname
             s vc (state no)) in Hback;
    [|by eapply has_state_in_range|done|done].
  injection Hback as <-.
  destruct (defined (state no) && conducts name vc) eqn:Hcond; [|done].
  apply andb_true_iff in Hcond as [Hdef Hcond]. rewrite Hcond in Hrun.
  destruct (decide (x = ii)) as [->|Hne]; [|by apply has_state_set_ne].
  assert (vi = Some v) as -> by (unfold has_state in *; congruence).
  simpl in Hrun. injection Hrun as Hrun. apply set_state_fixed in Hrun; [|done].
  assert (state no = Some v) as -> by (unfold has_state in *; congruence).
  apply has_state_set_eq. by eapply has_state_in_range.
Qed.

(** The backward rule leaves the relay stable. *)
Lemma relay_backward_stable (s s' : list node) :
  update_subcircuit names e s = Ok s ->
  maybe_update_subcircuit_input names e s = Ok s' ->
  update_subcircuit names e s' = Ok s'.
Proof.
  intros Hrun Hback.
  destruct (update_subcircuit_reads _ _ _ _ Hrun)
    as (ii & ic & o & name & vi & vc & Hii & Hic & Ho & Hname & Hvi & Hvc & Holt).
  destruct (lookup_lt_is_Some_2 s o Holt) as [no Hno].
  assert (Hvo : has_state s o (state no)) by (unfold has_state; by rewrite Hno).
  pose proof (has_state_in_range _ _ _ Hvi) as Hilt.
  rewrite (maybe_update_subcircuit_input_table names e name ii ic o Hii Hic Ho Hname
             s vc (state no)) in Hback by done.
  injection Hback as <-.
  destruct (defined (state no) && conducts name vc) eqn:Hcond; [|done].
  assert (Hi' : has_state (set_state ii (state no) s) ii (state no))
    by by apply has_state_set_eq.
  assert (Ho' : has_state (set_state ii (state no) s) o (state no)).
  { destruct (decide (ii = o)) as [<-|Hne]; [done|by apply has_state_set_ne]. }
  assert (Hc' : exists vc', has_state (set_state ii (state no) s) ic vc').
  { destruct (decide (ii = ic)) as [<-|Hne]; [by eexists|].
    exists vc. by apply has_state_set_ne. }
  destruct Hc' as [vc' Hc'].
  rewrite (update_subcircuit_table names e name ii ic o Hii Hic Ho Hname _
             (state no) vc' Hi' Hc') by by rewrite length_set_state.
  f_equal. destruct (defined (state no) && conducts name vc'); [|done].
  by apply set_state_same.
Qed.

End StableRelay.

Lemma update_element_subcircuit names e (s : list node) :
  objectType e = None -> update_element names e s = update_subcircuit names e s.
Proof. intros Hobj. unfold update_element. by rewrite Hobj. Qed.

(** * The propagation passes on a well-formed netlist *)

Section Propagation.

Variable names : list (string * string).
Variable set_iter : list nat -> list nat.
Variable limit : nat.
Variable nodes : list node.
Variable element_by_node_index : registry.
Variable G : list (list nat).
Variable st : list nat * list nat.

Hypothesis Horder : iteration_order set_iter.
Hypothesis Hwf : well_formed names nodes element_by_node_index.
Hypothesis Hbuild :
  build_successors names set_iter limit nodes element_by_node_index = Done G.
Hypothesis Hsort : sort_nodes limit G (length nodes) = Done st.

Lemma graph_length : length G = length nodes.
Proof. by destruct (build_successors_done _ _ _ _ _ _ Hbuild). Qed.

Lemma sorted_inv :
  sort_inv G st /\ (forall x, (x < length G)%nat -> snd st !! x = Some 2%nat).
Proof.
  pose proof (sort_nodes_post limit G) as Hpost.
  rewrite graph_length, Hsort in Hpost. by rewrite graph_length.
Qed.

(** ** The order of the visits *)

Lemma order_nodup : NoDup (rev (fst st)).
Proof.
  destruct sorted_inv as [Hinv _]. rewrite rev_alt. fold (reverse (fst st)).
  rewrite reverse_Permutation. apply (inv_nodup G st Hinv).
Qed.

Lemma order_edge a b : edge G a b -> precedes (rev (fst st)) a b.
Proof. destruct sorted_inv as [Hinv Hall]. by apply sort_done_order. Qed.

Lemma order_covers k : (k < length nodes)%nat -> k ∈ rev (fst st).
Proof.
  intros Hk. destruct sorted_inv as [Hinv Hall]. apply elem_of_rev.
  rewrite (sort_done_permutation G st Hinv Hall). apply elem_of_seq.
  rewrite graph_length. lia.
Qed.

(** ** The edges of the graph *)

(** The successors of an output are the other nodes of its net that are
    not outputs. *)
Lemma edge_of_output k x :
  is_output nodes k ->
  edge G k x <-> rtc (wire nodes) k x /\ x <> k /\ ~ is_output nodes x.
Proof.
  intros Hk. destruct (build_successors_done _ _ _ _ _ _ Hbuild) as [Hlen Hall].
  split.
  - intros (ss & Hss & Hx). destruct (Hall k ss Hss) as (set & Hset & ->).
    apply (proj1 (elem_of_set_iter _ _ _ Horder)) in Hx.
    by apply (successors_of_output _ _ _ _ _ _ Hk Hset).
  - intros Hx. destruct Hk as (n & Hn & Ht).
    destruct (lookup_lt_is_Some_2 G k) as [ss Hss].
    { rewrite Hlen. by eapply lookup_lt_Some. }
    exists ss. split; [done|]. destruct (Hall k ss Hss) as (set & Hset & ->).
    apply (elem_of_set_iter _ _ _ Horder).
    apply (successors_of_output _ _ _ _ _ _ (ex_intro _ n (conj Hn Ht)) Hset). done.
Qed.

Lemma successor_not_output k x : is_output nodes k -> edge G k x -> ~ is_output nodes x.
Proof. intros Hk Hx. by apply (edge_of_output k x Hk) in Hx as (_ & _ & H). Qed.

(** Every input that an evaluator reads has for successors the outputs
    at which the evaluator may be run. *)
Lemma edge_of_input k e p :
  pending nodes element_by_node_index k e -> p ∈ evaluator_inputs e -> edge G p k.
Proof.
  intros Hpend Hp.
  destruct (wf_inputs _ _ _ Hwf k e p Hpend Hp) as [(n & Hn & Hty) Hreg].
  destruct (build_successors_done _ _ _ _ _ _ Hbuild) as [Hlen Hall].
  destruct (lookup_lt_is_Some_2 G p) as [ss Hss].
  { rewrite Hlen. by eapply lookup_lt_Some. }
  exists ss. split; [done|]. destruct (Hall p ss Hss) as (set & Hset & ->).
  apply (elem_of_set_iter _ _ _ Horder).
  pose proof (wf_listed _ _ _ Hwf k e Hpend) as Hlisted.
  unfold listed_outputs in Hlisted.
  unfold successors_of in Hset. rewrite Hn, Hty, Hreg in Hset. simpl in Hset.
  destruct (objectType e) as [ty|] eqn:Hobj.
  - apply unknown_outputs_done in Hset as [_ Hchar]. apply Hchar. right.
    destruct Hpend as (Hout & Hnone & _). done.
  - destruct (wf_relay _ _ _ Hwf k e Hpend Hobj) as (name & Hname & Hnorm).
    unfold scope_name in Hset. rewrite Hname in Hset.
    destruct (relay_outputs_done (contains "Normally" name) (outputNodes e) [])
      as (ss' & Hrun & Hchar).
    rewrite Hrun in Hset. injection Hset as <-. apply Hchar. by right.
Qed.

(** The nodes that an evaluator reads are not among those it assigns. *)
Lemma inputs_not_outputs k e i :
  pending nodes element_by_node_index k e -> i ∈ evaluator_inputs e -> i ∉ evaluator_outputs e.
Proof.
  intros Hpend Hi Ho.
  destruct (wf_inputs _ _ _ Hwf k e i Hpend Hi) as [(n & Hn & Hty) _].
  destruct (wf_outputs _ _ _ Hwf k e i Hpend Ho) as [(n' & Hn' & Hty') _].
  rewrite Hn in Hn'. injection Hn' as <-. rewrite Hty in Hty'. discriminate.
Qed.


(** ** The steps of the reverse pass *)

(** The evaluation part and the flooding part of a step. *)
Lemma reverse_step_cases k s s' :
  reverse_step names element_by_node_index G k s = Done s' ->
  (~ is_output s k /\ s' = s)
  \/ (is_output s k
      /\ exists s1,
          ((s1 = s /\ (element_by_node_index !! k = Some None
                       \/ exists v, has_state s k (Some v)))
           \/ (has_state s k None
               /\ exists e, element_by_node_index !! k = Some (Some e)
                            /\ update_element names e s = Ok s1))
          /\ ((has_state s1 k None /\ s' = s1)
              \/ exists v successors,
                  has_state s1 k (Some v)
                  /\ G !! k = Some successors
                  /\ flood successors (Some v) s1 = Done s')).
Proof.
  unfold reverse_step. destruct (s !! k) as [n|] eqn:Hn; [|done].
  destruct (Z.eqb_spec (type n) OUTPUT_NODE) as [Ht|Ht]; simpl.
  2: { intros [= <-]. left. split; [|done]. intros (n' & Hn' & Ht'). congruence. }
  destruct (element_by_node_index !! k) as [el|] eqn:Hel; [|done].
  intros Hrun. right. split; [by exists n|].
  set (evaluated := match el with
                    | Some e => if defined (state n) then Ok s else update_element names e s
                    | None => Ok s
                    end) in *.
  destruct evaluated as [s1|ex] eqn:Hev; [|done].
  exists s1. split.
  - subst evaluated. destruct el as [e|].
    + destruct (state n) as [v|] eqn:Hv; simpl in Hev.
      * left. split; [congruence|]. right. exists v.
        unfold has_state. by rewrite Hn; simpl; rewrite Hv.
      * right. split; [unfold has_state; by rewrite Hn; simpl; rewrite Hv|].
        by exists e.
    + left. split; [congruence|by left].
  - unfold get_state, get_node in Hrun.
    destruct (s1 !! k) as [n1|] eqn:Hn1; simpl in Hrun; [|done].
    destruct (state n1) as [v|] eqn:Hv1.
    + right. destruct (G !! k) as [ss|]; [|done].
      exists v, ss. split; [unfold has_state; by rewrite Hn1; simpl; rewrite Hv1|done].
    + left. injection Hrun as <-.
      split; [unfold has_state; by rewrite Hn1; simpl; rewrite Hv1|done].
Qed.

Lemma is_output_state (s : list node) k : is_output s k -> exists v, has_state s k v.
Proof. intros (n & Hn & _). exists (state n). unfold has_state. by rewrite Hn. Qed.

(** An output Unknown during the pass was not seeded. *)
Lemma unknown_in_nodes evaluated flooded s k :
  reverse_inv names nodes element_by_node_index G evaluated flooded s ->
  is_output nodes k -> has_state s k None -> has_state nodes k None.
Proof.
  intros Hinv Hk Hnone. destruct (is_output_state nodes k Hk) as [[v|] Hv]; [|done].
  pose proof (rinv_seeded _ _ _ _ _ _ _ Hinv k v Hk Hv) as Hs.
  by pose proof (has_state_inj _ _ _ _ Hnone Hs).
Qed.

Lemma reverse_inv_init : reverse_inv names nodes element_by_node_index G [] [] nodes.
Proof.
  split; try done.
  - intros k e Hk. by apply elem_of_nil in Hk.
  - intros o _. by left.
  - intros d x v Hd. by apply elem_of_nil in Hd.
  - intros x v _ Hx. by left.
Qed.

(** The evaluation part of a step that evaluates nothing. *)
Lemma reverse_inv_skip pre k s :
  reverse_inv names nodes element_by_node_index G pre pre s ->
  (forall e, pending nodes element_by_node_index k e -> update_element names e s = Ok s) ->
  reverse_inv names nodes element_by_node_index G (pre ++ [k]) pre s.
Proof.
  intros Hinv Hk. split.
  - apply (rinv_shape _ _ _ _ _ _ _ Hinv).
  - apply (rinv_seeded _ _ _ _ _ _ _ Hinv).
  - intros k' e [Hk'|Hk']%elem_of_app Hpend.
    + by apply (rinv_evaluated _ _ _ _ _ _ _ Hinv k' e).
    + apply list_elem_of_singleton in Hk' as ->. by apply Hk.
  - intros o Ho. destruct (rinv_untouched _ _ _ _ _ _ _ Hinv o Ho)
      as [Heq|(k' & e & Hk' & Hpend & Hreg)]; [by left|].
    right. exists k', e. split; [apply elem_of_app; by left|done].
  - apply (rinv_flooded _ _ _ _ _ _ _ Hinv).
  - apply (rinv_source _ _ _ _ _ _ _ Hinv).
Qed.

(** An evaluation changes nothing once the component has been
    evaluated, or when it assigns a node that is already resolved. *)
Lemma evaluation_settled pre s e o :
  reverse_inv names nodes element_by_node_index G pre pre s ->
  element_by_node_index !! o = Some (Some e) -> is_output nodes o ->
  has_state nodes o None -> has_evaluator e ->
  o ∈ pre \/ (exists v, has_state s o (Some v)) ->
  update_element names e s = Ok s.
Proof.
  intros Hinv Hreg Ho Hnone Hev [Hpre|[v Hv]].
  - by apply (rinv_evaluated _ _ _ _ _ _ _ Hinv o e).
  - destruct (rinv_untouched _ _ _ _ _ _ _ Hinv o Ho)
      as [Heq|(k' & e' & Hk' & Hpend & Hreg')].
    + unfold has_state in *. rewrite Heq, Hnone in Hv. discriminate.
    + rewrite Hreg in Hreg'. injection Hreg' as <-.
      by apply (rinv_evaluated _ _ _ _ _ _ _ Hinv k' e).
Qed.

(** The evaluation part of a step that runs an evaluator. *)
Lemma reverse_inv_eval pre k e s s1 :
  reverse_inv names nodes element_by_node_index G pre pre s ->
  pending nodes element_by_node_index k e ->
  update_element names e s = Ok s1 ->
  reverse_inv names nodes element_by_node_index G (pre ++ [k]) pre s1
  /\ (forall x, ~ is_output nodes x -> s1 !! x = s !! x)
  /\ (forall d, d ∈ pre -> is_output nodes d -> s1 !! d = s !! d)
  /\ (forall x v, has_state s x (Some v) -> has_state s1 x (Some v)).
Proof.
  intros Hinv Hpend Hrun.
  pose proof (update_element_modifies names e s s1 Hrun) as Hmod.
  assert (Hout : forall o, o ∈ evaluator_outputs e ->
            is_output nodes o /\ has_state nodes o None
            /\ element_by_node_index !! o = Some (Some e))
    by (intros o; apply (wf_outputs _ _ _ Hwf k e o Hpend)).
  assert (Hev : has_evaluator e) by by destruct Hpend as (_ & _ & _ & H).
  assert (Hsettled : forall o, o ∈ evaluator_outputs e ->
            o ∈ pre \/ (exists v, has_state s o (Some v)) -> s1 = s).
  { intros o Ho Hcase. destruct (Hout o Ho) as (Hoo & Hon & Hor).
    pose proof (evaluation_settled pre s e o Hinv Hor Hoo Hon Hev Hcase) as Hsame.
    congruence. }
  assert (Hnon : forall x, ~ is_output nodes x -> s1 !! x = s !! x).
  { intros x Hx. apply (proj2 Hmod). intros Ho. by destruct (Hout x Ho). }
  assert (Hfix : forall d, d ∈ pre -> is_output nodes d -> s1 !! d = s !! d).
  { intros d Hd Hdo. destruct (decide (d ∈ evaluator_outputs e)) as [Ho|Ho].
    - rewrite (Hsettled d Ho); [done|by left].
    - by apply (proj2 Hmod). }
  assert (Hkeep : forall x v, has_state s x (Some v) -> has_state s1 x (Some v)).
  { intros x v Hx. destruct (decide (x ∈ evaluator_outputs e)) as [Ho|Ho].
    - rewrite (Hsettled x Ho); [done|right; by exists v].
    - by eapply modifies_has_state. }
  split; [|done]. split.
  - rewrite (proj1 Hmod). apply (rinv_shape _ _ _ _ _ _ _ Hinv).
  - intros o v Ho Hv. apply Hkeep. by apply (rinv_seeded _ _ _ _ _ _ _ Hinv).
  - intros k' e' Hk' Hpend'.
    assert (Hsame : k' ∈ pre \/ e' = e).
    { apply elem_of_app in Hk' as [Hk'|Hk']; [by left|right].
      apply list_elem_of_singleton in Hk' as ->.
      destruct Hpend as (_ & _ & Hr & _), Hpend' as (_ & _ & Hr' & _). congruence. }
    destruct (decide (Forall (fun i => i ∉ evaluator_outputs e)
                        (evaluator_inputs e' ++ evaluator_outputs e')))
      as [Hdisj|Hshare].
    + destruct Hsame as [Hk'pre| ->].
      * eapply update_element_stable; [exact Hmod| |].
        -- intros i Hi. by apply (proj1 (Forall_forall _ _) Hdisj).
        -- by apply (rinv_evaluated _ _ _ _ _ _ _ Hinv k' e').
      * eapply update_element_again; [|exact Hrun].
        intros i. by apply (inputs_not_outputs k e).
    + apply not_Forall_Exists in Hshare; [|apply _].
      apply Exists_exists in Hshare as (i & Hi & Hio). simpl in Hio.
      apply dec_stable in Hio. destruct (Hout i Hio) as (Hi1 & Hi2 & Hi3).
      assert (e' = e) as ->.
      { apply elem_of_app in Hi as [Hi|Hi].
        - destruct (wf_inputs _ _ _ Hwf k' e' i Hpend' Hi) as [(n & Hn & Hty) _].
          destruct Hi1 as (n' & Hn' & Hty'). rewrite Hn in Hn'.
          injection Hn' as <-. rewrite Hty in Hty'. discriminate.
        - destruct (wf_outputs _ _ _ Hwf k' e' i Hpend' Hi) as (_ & _ & Hr).
          congruence. }
      eapply update_element_again; [|exact Hrun].
      intros j. by apply (inputs_not_outputs k e).
  - intros o Ho. destruct (decide (o ∈ evaluator_outputs e)) as [Hoe|Hoe].
    + right. exists k, e. split; [apply elem_of_app; right; by apply list_elem_of_singleton|].
      split; [done|]. by destruct (Hout o Hoe) as (_ & _ & H).
    + rewrite (proj2 Hmod o Hoe).
      destruct (rinv_untouched _ _ _ _ _ _ _ Hinv o Ho)
        as [Heq|(k' & e' & Hk' & Hpend' & Hreg)]; [by left|].
      right. exists k', e'. split; [apply elem_of_app; by left|done].
  - intros d x v Hd Hdo Hv Hedge.
    assert (Hvs : has_state s d (Some v)).
    { unfold has_state in *. by rewrite <- (Hfix d Hd Hdo). }
    destruct (rinv_flooded _ _ _ _ _ _ _ Hinv d x v Hd Hdo Hvs Hedge)
      as (d' & w & Hd' & Hdo' & Hedge' & Hw & Hx).
    exists d', w. repeat split; try done; by apply Hkeep.
  - intros x v Hx Hv.
    assert (Hvs : has_state s x (Some v)).
    { unfold has_state in *. by rewrite <- (Hnon x Hx). }
    destruct (rinv_source _ _ _ _ _ _ _ Hinv x v Hx Hvs)
      as [Hseed|(d & Hd & Hdo & Hedge & Hdv)]; [by left|].
    right. exists d. repeat split; try done. by apply Hkeep.
Qed.


(** A step at a node that is not an output. *)
Lemma reverse_inv_junction pre k s :
  reverse_inv names nodes element_by_node_index G pre pre s ->
  ~ is_output nodes k ->
  reverse_inv names nodes element_by_node_index G (pre ++ [k]) (pre ++ [k]) s.
Proof.
  intros Hinv Hk.
  assert (Hskip : reverse_inv names nodes element_by_node_index G (pre ++ [k]) pre s).
  { apply reverse_inv_skip; [done|]. intros e (Hout & _). done. }
  split.
  - apply (rinv_shape _ _ _ _ _ _ _ Hskip).
  - apply (rinv_seeded _ _ _ _ _ _ _ Hskip).
  - apply (rinv_evaluated _ _ _ _ _ _ _ Hskip).
  - apply (rinv_untouched _ _ _ _ _ _ _ Hskip).
  - intros d x v [Hd|Hd]%elem_of_app Hdo Hv Hedge.
    + destruct (rinv_flooded _ _ _ _ _ _ _ Hinv d x v Hd Hdo Hv Hedge)
        as (d' & w & Hd' & Hrest).
      exists d', w. split; [apply elem_of_app; by left|done].
    + apply list_elem_of_singleton in Hd as ->. done.
  - intros x v Hx Hv.
    destruct (rinv_source _ _ _ _ _ _ _ Hinv x v Hx Hv)
      as [Hseed|(d & Hd & Hrest)]; [by left|].
    right. exists d. split; [apply elem_of_app; by left|done].
Qed.

(** The flooding part of a step at an output. *)
Lemma reverse_inv_flood pre post k s1 s' :
  rev (fst st) = pre ++ k :: post ->
  reverse_inv names nodes element_by_node_index G (pre ++ [k]) pre s1 ->
  is_output nodes k ->
  (has_state s1 k None /\ s' = s1)
  \/ (exists v successors,
        has_state s1 k (Some v) /\ G !! k = Some successors
        /\ flood successors (Some v) s1 = Done s') ->
  reverse_inv names nodes element_by_node_index G (pre ++ [k]) (pre ++ [k]) s'
  /\ (forall o, is_output nodes o -> s' !! o = s1 !! o)
  /\ (forall x v,
        has_state s1 x (Some v) ->
        has_state s' x (Some v)
        \/ (~ is_output nodes x /\ edge G k x
            /\ exists v', has_state s' k (Some v') /\ has_state s' x (Some v'))).
Proof.
  intros Hl Hinv Hk [[Hnone ->]|(v & ss & Hv & Hss & Hflood)].
  - split; [|split; [done|by left]]. split.
    + apply (rinv_shape _ _ _ _ _ _ _ Hinv).
    + apply (rinv_seeded _ _ _ _ _ _ _ Hinv).
    + apply (rinv_evaluated _ _ _ _ _ _ _ Hinv).
    + apply (rinv_untouched _ _ _ _ _ _ _ Hinv).
    + intros d x v [Hd|Hd]%elem_of_app Hdo Hv Hedge.
      * destruct (rinv_flooded _ _ _ _ _ _ _ Hinv d x v Hd Hdo Hv Hedge)
          as (d' & w & Hd' & Hrest).
        exists d', w. split; [apply elem_of_app; by left|done].
      * apply list_elem_of_singleton in Hd as ->.
        by pose proof (has_state_inj _ _ _ _ Hnone Hv).
    + intros x v Hx Hv.
      destruct (rinv_source _ _ _ _ _ _ _ Hinv x v Hx Hv)
        as [Hseed|(d & Hd & Hrest)]; [by left|].
      right. exists d. split; [apply elem_of_app; by left|done].
  - apply flood_done in Hflood as [Hmod Hall].
    assert (Hnon : forall x, x ∈ ss -> ~ is_output nodes x).
    { intros x Hx. apply (successor_not_output k x Hk). by exists ss. }
    assert (Hsame : forall o, is_output nodes o -> s' !! o = s1 !! o).
    { intros o Ho. apply (proj2 Hmod). intros Hin. by apply (Hnon o Hin). }
    assert (Hkv : has_state s' k (Some v)).
    { unfold has_state. by rewrite (Hsame k Hk). }
    assert (Hnd : NoDup (pre ++ k :: post)) by (rewrite <- Hl; apply order_nodup).
    split; [|split; [done|]].
    + split.
      * rewrite (proj1 Hmod). apply (rinv_shape _ _ _ _ _ _ _ Hinv).
      * intros o w Ho Hw. unfold has_state. rewrite (Hsame o Ho).
        by apply (rinv_seeded _ _ _ _ _ _ _ Hinv).
      * intros k' e' Hk' Hpend'.
        eapply update_element_stable; [exact Hmod| |].
        -- intros i [Hi|Hi]%elem_of_app Hin.
           ++ apply (no_way_back pre post k i k' Hnd); [| |done].
              ** rewrite <- Hl. apply order_edge. by exists ss.
              ** rewrite <- Hl. apply order_edge. by apply (edge_of_input k' e').
           ++ apply (Hnon i Hin).
              by destruct (wf_outputs _ _ _ Hwf k' e' i Hpend' Hi) as (H & _).
        -- by apply (rinv_evaluated _ _ _ _ _ _ _ Hinv k' e').
      * intros o Ho. rewrite (Hsame o Ho).
        apply (rinv_untouched _ _ _ _ _ _ _ Hinv o Ho).
      * intros d x w Hd Hdo Hw Hedge.
        destruct (decide (x ∈ ss)) as [Hx|Hx].
        -- exists k, v. split; [apply elem_of_app; right; by apply list_elem_of_singleton|].
           split; [done|]. split; [by exists ss|]. split; [done|].
           apply Hall. by left.
        -- assert (Hdpre : d ∈ pre).
           { apply elem_of_app in Hd as [Hd|Hd]; [done|].
             apply list_elem_of_singleton in Hd as ->.
             destruct Hedge as (ss' & Hss' & Hx'). congruence. }
           assert (Hw1 : has_state s1 d (Some w)).
           { unfold has_state in *. by rewrite <- (Hsame d Hdo). }
           destruct (rinv_flooded _ _ _ _ _ _ _ Hinv d x w Hdpre Hdo Hw1 Hedge)
             as (d' & w' & Hd' & Hdo' & Hedge' & Hw' & Hxw).
           exists d', w'. split; [apply elem_of_app; by left|].
           split; [done|]. split; [done|]. split.
           ++ unfold has_state. by rewrite (Hsame d' Hdo').
           ++ by eapply modifies_has_state.
      * intros x w Hx Hw. destruct (decide (x ∈ ss)) as [Hin|Hin].
        -- assert (Hxv : has_state s' x (Some v)) by (apply Hall; by left).
           pose proof (has_state_inj _ _ _ _ Hw Hxv) as [= ->].
           right. exists k. split; [apply elem_of_app; right; by apply list_elem_of_singleton|].
           split; [done|]. split; [by exists ss|done].
        -- assert (Hw1 : has_state s1 x (Some w))
             by by eapply modifies_has_state_back.
           destruct (rinv_source _ _ _ _ _ _ _ Hinv x w Hx Hw1)
             as [Hseed|(d & Hd & Hdo & Hedge & Hdw)]; [by left|].
           right. exists d. split; [apply elem_of_app; by left|].
           split; [done|]. split; [done|]. unfold has_state. by rewrite (Hsame d Hdo).
    + intros x w Hw. destruct (decide (x ∈ ss)) as [Hin|Hin].
      * right. split; [by apply Hnon|]. split; [by exists ss|].
        exists v. split; [done|]. apply Hall. by left.
      * left. by eapply modifies_has_state.
Qed.

(** A step of the reverse pass preserves the invariant, keeps the
    outputs visited before as they are, and keeps every defined state
    except at the nodes that it floods. *)
Lemma reverse_step_inv pre k post s s' :
  rev (fst st) = pre ++ k :: post ->
  reverse_inv names nodes element_by_node_index G pre pre s ->
  reverse_step names element_by_node_index G k s = Done s' ->
  reverse_inv names nodes element_by_node_index G (pre ++ [k]) (pre ++ [k]) s'
  /\ (forall d, d ∈ pre -> is_output nodes d -> s' !! d = s !! d)
  /\ (forall x v,
        has_state s x (Some v) ->
        has_state s' x (Some v)
        \/ (~ is_output nodes x /\ is_output nodes k /\ edge G k x
            /\ exists v', has_state s' k (Some v') /\ has_state s' x (Some v'))).
Proof.
  intros Hl Hinv Hrun.
  pose proof (rinv_shape _ _ _ _ _ _ _ Hinv) as Hshape.
  apply reverse_step_cases in Hrun as [[Hk ->]|(Hk & s1 & Heval & Hflood)].
  { rewrite (shape_is_output _ _ k Hshape) in Hk.
    split; [by apply reverse_inv_junction|]. split; [done|by left]. }
  rewrite (shape_is_output _ _ k Hshape) in Hk.
  assert (Hmid : reverse_inv names nodes element_by_node_index G (pre ++ [k]) pre s1
                 /\ (forall d, d ∈ pre -> is_output nodes d -> s1 !! d = s !! d)
                 /\ (forall x v, has_state s x (Some v) -> has_state s1 x (Some v))).
  { destruct Heval as [[-> Hwhy]|(Hnone & e & Hreg & Hrun)].
    - split; [|done]. apply reverse_inv_skip; [done|].
      intros e (_ & Hn & Hreg & Hev). destruct Hwhy as [Hnot|Hdef]; [congruence|].
      apply (evaluation_settled pre s e k); try done. by right.
    - destruct (has_evaluator_dec e) as [Hev|Hev].
      + assert (Hpend : pending nodes element_by_node_index k e).
        { split; [done|]. split; [by eapply unknown_in_nodes|done]. }
        destruct (reverse_inv_eval pre k e s s1 Hinv Hpend Hrun) as (H1 & _ & H2 & H3).
        done.
      + rewrite (update_element_no_evaluator names e s Hev) in Hrun.
        injection Hrun as <-. split; [|done]. apply reverse_inv_skip; [done|].
        intros e' (_ & _ & Hreg' & Hev'). congruence. }
  destruct Hmid as (Hmid & Hfix & Hkeep).
  destruct (reverse_inv_flood pre post k s1 s' Hl Hmid Hk Hflood)
    as (Hend & Hsame & Hflooded).
  split; [done|]. split.
  - intros d Hd Hdo. by rewrite (Hsame d Hdo), (Hfix d Hd Hdo).
  - intros x v Hv. destruct (Hflooded x v (Hkeep x v Hv)) as [H|(H1 & H2 & H3)];
      [by left|by right].
Qed.

(** ** The course of the reverse pass *)

(** The invariant holds after every prefix of the pass. *)
Lemma reverse_reached pre post s :
  rev (fst st) = pre ++ post ->
  for_each pre (reverse_step names element_by_node_index G) nodes = Done s ->
  reverse_inv names nodes element_by_node_index G pre pre s.
Proof.
  apply (for_each_invariant (reverse_step names element_by_node_index G)
           (fun pre s => reverse_inv names nodes element_by_node_index G pre pre s)).
  - apply reverse_inv_init.
  - intros pre' x post' t t' Hl _ Hinv Hstep.
    by destruct (reverse_step_inv pre' x post' t t' Hl Hinv Hstep).
Qed.

(** An output keeps, until the end of the pass, the state it has once
    visited. *)
Lemma reverse_fixed pre post s s1 d :
  rev (fst st) = pre ++ post ->
  for_each pre (reverse_step names element_by_node_index G) nodes = Done s ->
  for_each post (reverse_step names element_by_node_index G) s = Done s1 ->
  d ∈ pre -> is_output nodes d -> s1 !! d = s !! d.
Proof.
  intros Hl Hpre Hpost Hd Hdo.
  apply (for_each_preserved (reverse_step names element_by_node_index G)
           (fun t => t !! d = s !! d) nodes post pre s s1 Hpre Hpost); [|done].
  intros mid x rest t t' Hmid Hrun Hstep Ht.
  assert (Hl' : rev (fst st) = (pre ++ mid) ++ x :: rest).
  { by rewrite Hl, Hmid, <- app_assoc. }
  pose proof (reverse_reached (pre ++ mid) (x :: rest) t Hl' Hrun) as Hinv.
  destruct (reverse_step_inv (pre ++ mid) x rest t t' Hl' Hinv Hstep) as (_ & Hfix & _).
  rewrite <- Ht. apply Hfix; [|done]. apply elem_of_app. by left.
Qed.


(** * The forward pass *)

Variable s1 : list node.
Hypothesis Hrev : reverse_pass names element_by_node_index G (fst st) nodes = Done s1.

Lemma reverse_end :
  reverse_inv names nodes element_by_node_index G (rev (fst st)) (rev (fst st)) s1.
Proof. apply (reverse_reached (rev (fst st)) []); [by rewrite app_nil_r|exact Hrev]. Qed.

Lemma forward_nodup : NoDup (fst st).
Proof. destruct sorted_inv as [Hinv _]. apply (inv_nodup G st Hinv). Qed.

Lemma forward_inv_init : forward_inv names nodes element_by_node_index [] s1.
Proof.
  pose proof reverse_end as Hinv. split.
  - apply (rinv_shape _ _ _ _ _ _ _ Hinv).
  - apply (rinv_seeded _ _ _ _ _ _ _ Hinv).
  - intros k e Hpend _ _. apply (rinv_evaluated _ _ _ _ _ _ _ Hinv k e); [|done].
    apply order_covers. destruct Hpend as ((n & Hn & _) & _).
    by eapply lookup_lt_Some.
Qed.

(** The inputs of a relay are visited after its outputs. *)
Lemma inputs_later pre k post e p :
  fst st = pre ++ k :: post ->
  pending nodes element_by_node_index k e -> p ∈ evaluator_inputs e ->
  p ∉ pre ++ [k].
Proof.
  intros Hl Hpend Hp Hin.
  pose proof (order_edge p k (edge_of_input k e p Hpend Hp)) as Hprec.
  pose proof order_nodup as Hnd. pose proof forward_nodup as Hnd'.
  rewrite Hl in Hprec, Hnd, Hnd'.
  rewrite rev_app_distr in Hprec, Hnd. simpl in Hprec, Hnd.
  rewrite <- app_assoc in Hprec, Hnd. simpl in Hprec, Hnd.
  assert (Hpost : p ∈ rev post).
  { eapply precedes_in_prefix; [exact Hnd|exact Hprec|].
    apply elem_of_app. right. by apply list_elem_of_singleton. }
  apply (proj1 (elem_of_rev _ _)) in Hpost.
  replace (pre ++ k :: post) with ((pre ++ [k]) ++ post) in Hnd'
    by by rewrite <- app_assoc.
  apply NoDup_app in Hnd' as (_ & Hdisj & _). by apply (Hdisj p).
Qed.

Lemma elem_of_take_1_2 (l : list nat) i : i ∈ take 1 l -> i ∈ take 2 l.
Proof.
  destruct l as [|a [|b l]]; simpl; try done.
  intros Hi. apply list_elem_of_singleton in Hi as ->. by left.
Qed.

(** A step of the forward pass preserves the invariant and keeps every
    defined state. *)
Lemma forward_step_inv pre k post s s' :
  fst st = pre ++ k :: post ->
  forward_inv names nodes element_by_node_index pre s ->
  forward_step names element_by_node_index k s = Done s' ->
  forward_inv names nodes element_by_node_index (pre ++ [k]) s'
  /\ (forall x v, has_state s x (Some v) -> has_state s' x (Some v)).
Proof.
  intros Hl Hinv Hrun.
  pose proof (finv_shape _ _ _ _ _ Hinv) as Hshape.
  assert (Hmono : forall e, (forall p, p ∈ evaluator_inputs e -> p ∉ pre ++ [k]) ->
                    forall p, p ∈ evaluator_inputs e -> p ∉ pre).
  { intros e Hall p Hp Hin. apply (Hall p Hp). apply elem_of_app. by left. }
  apply forward_step_done in Hrun as [[-> _]|(Hnone & sa & Hadopt & Hback)].
  { split; [|done]. split.
    - done.
    - apply (finv_seeded _ _ _ _ _ Hinv).
    - intros k' e' Hpend Hobj Hin.
      apply (finv_relay _ _ _ _ _ Hinv k' e' Hpend Hobj). by apply Hmono. }
  assert (Hmid : forward_inv names nodes element_by_node_index (pre ++ [k]) sa
                 /\ (forall x v, has_state s x (Some v) -> has_state sa x (Some v))).
  { destruct Hadopt as [->|[v ->]].
    - split; [|done]. split.
      + done.
      + apply (finv_seeded _ _ _ _ _ Hinv).
      + intros k' e' Hpend Hobj Hin.
        apply (finv_relay _ _ _ _ _ Hinv k' e' Hpend Hobj). by apply Hmono.
    - assert (Hkeep : forall x w, has_state s x (Some w) ->
                        has_state (set_state k (Some v) s) x (Some w)).
      { intros x w Hx. apply has_state_set_ne; [|done]. intros ->.
        by pose proof (has_state_inj _ _ _ _ Hnone Hx). }
      split; [|done]. split.
      + by rewrite shape_set_state.
      + intros o w Ho Hw. apply Hkeep. by apply (finv_seeded _ _ _ _ _ Hinv).
      + intros k' e' Hpend Hobj Hin.
        rewrite (update_element_subcircuit names e' _ Hobj).
        apply update_subcircuit_adopt; [|done|].
        * rewrite <- (update_element_subcircuit names e' _ Hobj).
          apply (finv_relay _ _ _ _ _ Hinv k' e' Hpend Hobj). by apply Hmono.
        * intros Hk. apply (Hin k).
          -- unfold evaluator_inputs. by rewrite Hobj.
          -- apply elem_of_app. right. by apply list_elem_of_singleton. }
  destruct Hmid as [Hmid Hkeep].
  destruct Hback as [->|(Hk & e & Hreg & Hobj & Hback)]; [done|].
  assert (Hpend : pending nodes element_by_node_index k e).
  { rewrite (shape_is_output _ _ k Hshape) in Hk. split; [done|]. split.
    - destruct (is_output_state nodes k Hk) as [[v|] Hv]; [|done].
      pose proof (finv_seeded _ _ _ _ _ Hinv k v Hk Hv) as Hs.
      by pose proof (has_state_inj _ _ _ _ Hnone Hs).
    - split; [done|]. unfold has_evaluator. by rewrite Hobj. }
  assert (Hstable : update_subcircuit names e sa = Ok sa).
  { rewrite <- (update_element_subcircuit names e _ Hobj).
    apply (finv_relay _ _ _ _ _ Hmid k e Hpend Hobj).
    intros p. by apply (inputs_later pre k post e p). }
  pose proof (maybe_update_subcircuit_input_modifies names e sa s' Hback) as Hmod.
  assert (Hfirst : forall i, i ∈ take 1 (inputNodes e) ->
            is_input nodes i /\ element_by_node_index !! i = Some (Some e)).
  { intros i Hi. apply (wf_inputs _ _ _ Hwf k e i Hpend).
    unfold evaluator_inputs. rewrite Hobj. by apply elem_of_take_1_2. }
  split.
  - split.
    + rewrite (proj1 Hmod). apply (finv_shape _ _ _ _ _ Hmid).
    + intros o w Ho Hw. eapply modifies_has_state; [exact Hmod| |].
      * intros Hi. destruct (Hfirst o Hi) as [(n & Hn & Hty) _].
        destruct Ho as (n' & Hn' & Hty'). rewrite Hn in Hn'.
        injection Hn' as <-. rewrite Hty in Hty'. discriminate.
      * by apply (finv_seeded _ _ _ _ _ Hmid).
    + intros k' e' Hpend' Hobj' Hin.
      pose proof (finv_relay _ _ _ _ _ Hmid k' e' Hpend' Hobj' Hin) as Hsa.
      destruct (decide (Forall (fun i => i ∉ take 1 (inputNodes e))
                          (evaluator_inputs e' ++ evaluator_outputs e')))
        as [Hdisj|Hshare].
      * eapply update_element_stable; [exact Hmod| |exact Hsa].
        intros i Hi. by apply (proj1 (Forall_forall _ _) Hdisj).
      * apply not_Forall_Exists in Hshare; [|apply _].
        apply Exists_exists in Hshare as (i & Hi & Hio). simpl in Hio.
        apply dec_stable in Hio. destruct (Hfirst i Hio) as [(n & Hn & Hty) Hr].
        assert (e' = e) as ->.
        { apply elem_of_app in Hi as [Hi|Hi].
          - destruct (wf_inputs _ _ _ Hwf k' e' i Hpend' Hi) as [_ Hr']. congruence.
          - destruct (wf_outputs _ _ _ Hwf k' e' i Hpend' Hi)
              as ((n' & Hn' & Hty') & _).
            rewrite Hn in Hn'. injection Hn' as <-. rewrite Hty in Hty'.
            discriminate. }
        rewrite (update_element_subcircuit names e _ Hobj).
        by apply (relay_backward_stable names e sa s').
  - intros x v Hx. apply (relay_backward_keeps names e sa s' x v Hstable Hback).
    by apply Hkeep.
Qed.

(** The invariant holds after every prefix of the forward pass. *)
Lemma forward_reached pre post s :
  fst st = pre ++ post ->
  for_each pre (forward_step names element_by_node_index) s1 = Done s ->
  forward_inv names nodes element_by_node_index pre s.
Proof.
  apply (for_each_invariant (forward_step names element_by_node_index)
           (fun pre s => forward_inv names nodes element_by_node_index pre s)).
  - apply forward_inv_init.
  - intros pre' x post' t t' Hl _ Hinv Hstep.
    by destruct (forward_step_inv pre' x post' t t' Hl Hinv Hstep).
Qed.


(** ** Defined states are kept *)

(** A step of the reverse pass keeps every defined state when only
    outputs are seeded and no net is driven to two different states. *)
Lemma reverse_step_keeps pre k post s s' x v :
  seeded_outputs nodes -> no_contention nodes s1 ->
  rev (fst st) = pre ++ k :: post ->
  for_each pre (reverse_step names element_by_node_index G) nodes = Done s ->
  reverse_step names element_by_node_index G k s = Done s' ->
  has_state s x (Some v) -> has_state s' x (Some v).
Proof.
  intros Hseeded Hfree Hl Hpre Hstep Hx.
  pose proof (reverse_reached pre (k :: post) s Hl Hpre) as Hinv.
  destruct (reverse_step_inv pre k post s s' Hl Hinv Hstep) as (Hinv' & Hfix & Hkeep).
  destruct (Hkeep x v Hx) as [H|(Hxo & Hko & Hedge & v' & Hkv & Hxv)]; [done|].
  destruct (rinv_source _ _ _ _ _ _ _ Hinv x v Hxo Hx)
    as [Hseed|(d & Hd & Hdo & Hedge_d & Hdv)].
  { destruct Hxo. by apply (Hseeded x v). }
  assert (Hl' : rev (fst st) = (pre ++ [k]) ++ post) by by rewrite <- app_assoc.
  pose proof Hrev as Hrest. unfold reverse_pass in Hrest. rewrite Hl' in Hrest.
  apply for_each_app_done in Hrest as (s2 & Hs2 & Hrest).
  rewrite (for_each_snoc _ pre k nodes s s' Hpre Hstep) in Hs2. injection Hs2 as <-.
  assert (Hd1 : has_state s1 d (Some v)).
  { unfold has_state.
    rewrite (reverse_fixed (pre ++ [k]) post s' s1 d Hl' (for_each_snoc _ pre k nodes s s' Hpre Hstep) Hrest);
      [|apply elem_of_app; by left|done].
    by rewrite (Hfix d Hd Hdo). }
  assert (Hk1 : has_state s1 k (Some v')).
  { unfold has_state.
    rewrite (reverse_fixed (pre ++ [k]) post s' s1 k Hl' (for_each_snoc _ pre k nodes s s' Hpre Hstep) Hrest);
      [done|apply elem_of_app; right; by apply list_elem_of_singleton|done]. }
  apply (edge_of_output d x Hdo) in Hedge_d as (Hreach_d & _).
  apply (edge_of_output k x Hko) in Hedge as (Hreach_k & _).
  by rewrite (Hfree d k x v v' Hdo Hko Hxo Hreach_d Hreach_k Hd1 Hk1).
Qed.

(** The reverse pass keeps every seeded state. *)
Lemma reverse_pass_keeps x v :
  seeded_outputs nodes -> no_contention nodes s1 ->
  has_state nodes x (Some v) -> has_state s1 x (Some v).
Proof.
  intros Hseeded Hfree Hx.
  apply (for_each_preserved (reverse_step names element_by_node_index G)
           (fun t => has_state t x (Some v)) nodes (rev (fst st)) [] nodes s1);
    [done|exact Hrev| |done].
  intros mid y rest t t' Hl Hrun Hstep Ht.
  by apply (reverse_step_keeps mid y rest t t' x v).
Qed.

(** A step of the forward pass keeps every defined state. *)
Lemma forward_step_keeps pre k post s s' x v :
  fst st = pre ++ k :: post ->
  for_each pre (forward_step names element_by_node_index) s1 = Done s ->
  forward_step names element_by_node_index k s = Done s' ->
  has_state s x (Some v) -> has_state s' x (Some v).
Proof.
  intros Hl Hpre Hstep.
  pose proof (forward_reached pre (k :: post) s Hl Hpre) as Hinv.
  destruct (forward_step_inv pre k post s s' Hl Hinv Hstep) as [_ Hkeep].
  apply Hkeep.
Qed.

(** The forward pass keeps every state defined at the end of the
    reverse pass. *)
Lemma forward_pass_keeps final x v :
  forward_pass names element_by_node_index (fst st) s1 = Done final ->
  has_state s1 x (Some v) -> has_state final x (Some v).
Proof.
  intros Hfwd Hx.
  apply (for_each_preserved (forward_step names element_by_node_index)
           (fun t => has_state t x (Some v)) s1 (fst st) [] s1 final);
    [done|exact Hfwd| |done].
  intros mid y rest t t' Hl Hrun Hstep Ht.
  by apply (forward_step_keeps mid y rest t t' x v).
Qed.


End Propagation.

(** * Flooding and the single assignment of the states *)


(** The cases of a pending evaluation in a concrete store. *)
Ltac pending_at Hout Hnone Hreg :=
  let n := fresh "n" in
  let Hn := fresh "Hn" in
  let Ht := fresh "Ht" in
  destruct Hout as (n & Hn & Ht);
  vm_compute in Hn; try discriminate Hn; injection Hn as <-;
  vm_compute in Ht; try discriminate Ht; clear Ht;
  vm_compute in Hnone; try discriminate Hnone; clear Hnone;
  vm_compute in Hreg; try discriminate Hreg; injection Hreg as <-.

Ltac holds_at := repeat split; try (eexists; split; reflexivity); try reflexivity.




(** C8.  On a well-formed store and registry in which only component
    outputs are seeded, and when no two outputs drive a common node to
    different states at the end of the reverse pass, a state once
    defined is never changed: every step of the reverse pass and every
    step of the forward pass keeps every defined state, whether it was
    seeded, assigned by an evaluator, flooded, adopted from a
    neighbour or recovered by the backward rule of a relay.  So the
    seeded states are those at the end of the reverse pass, and the
    states defined at the end of the reverse pass are the final ones. *)
Theorem defined_states_kept names set_iter limit (nodes : list node)
    (element_by_node_index : registry) (G : list (list nat))
    (st : list nat * list nat) (s1 final : list node) :
  iteration_order set_iter ->
  well_formed names nodes element_by_node_index ->
  seeded_outputs nodes ->
  build_successors names set_iter limit nodes element_by_node_index = Done G ->
  sort_nodes limit G (length nodes) = Done st ->
  reverse_pass names element_by_node_index G (fst st) nodes = Done s1 ->
  forward_pass names element_by_node_index (fst st) s1 = Done final ->
  no_contention nodes s1 ->
  compute_node_states names set_iter limit nodes element_by_node_index = Done final
  /\ (forall pre k post s s',
        rev (fst st) = pre ++ k :: post ->
        for_each pre (reverse_step names element_by_node_index G) nodes = Done s ->
        reverse_step names element_by_node_index G k s = Done s' ->
        forall x v, has_state s x (Some v) -> has_state s' x (Some v))
  /\ (forall pre k post s s',
        fst st = pre ++ k :: post ->
        for_each pre (forward_step names element_by_node_index) s1 = Done s ->
        forward_step names element_by_node_index k s = Done s' ->
        forall x v, has_state s x (Some v) -> has_state s' x (Some v))
  /\ (forall x v, has_state nodes x (Some v) -> has_state s1 x (Some v))
  /\ (forall x v, has_state s1 x (Some v) -> has_state final x (Some v)).
Proof.
  intros Horder Hwf Hseeded Hbuild Hsort Hrev Hfwd Hfree.
  split; [unfold compute_node_states; by rewrite Hbuild, Hsort, Hrev|].
  split; [|split; [|split]].
  - intros pre k post s s' Hl Hpre Hstep x v.
    by apply (reverse_step_keeps names set_iter limit nodes element_by_node_index G st
                Horder Hwf Hbuild Hsort s1 Hrev pre k post s s' x v).
  - intros pre k post s s' Hl Hpre Hstep x v.
    by apply (forward_step_keeps names set_iter limit nodes element_by_node_index G st
                Horder Hwf Hbuild Hsort s1 Hrev pre k post s s' x v).
  - intros x v.
    by apply (reverse_pass_keeps names set_iter limit nodes element_by_node_index G st
                Horder Hwf Hbuild Hsort s1 Hrev x v).
  - intros x v.
    by apply (forward_pass_keeps names set_iter limit nodes element_by_node_index G st
                Horder Hwf Hbuild Hsort s1 Hrev final x v).
Qed.

Lemma relay_well_formed : well_formed relay_names relay_seeded relay_registry.
Proof.
  split.
  - intros k e o (Hout & Hnone & Hreg & Hev) Ho.
    destruct k as [|[|[|[|[|[|[|[|k]]]]]]]]; pending_at Hout Hnone Hreg.
    all: vm_compute in Ho; members Ho; holds_at.
  - intros k e p (Hout & Hnone & Hreg & Hev) Hp.
    destruct k as [|[|[|[|[|[|[|[|k]]]]]]]]; pending_at Hout Hnone Hreg.
    all: vm_compute in Hp; members Hp; holds_at.
  - intros k e (Hout & Hnone & Hreg & Hev).
    destruct k as [|[|[|[|[|[|[|[|k]]]]]]]]; pending_at Hout Hnone Hreg.
    all: by repeat constructor.
  - intros k e (Hout & Hnone & Hreg & Hev) Hobj.
    destruct k as [|[|[|[|[|[|[|[|k]]]]]]]]; pending_at Hout Hnone Hreg.
    all: try discriminate Hobj.
    exists "NormallyOpen". by split.
Qed.

Lemma defined_states_kept_witness :
  exists final,
    compute_node_states relay_names (fun s => s) 1000 relay_seeded relay_registry
      = Done final
    /\ has_state final 0 (Some 1) /\ has_state final 7 (Some 1).
Proof.
  eexists.
  edestruct (defined_states_kept relay_names (fun s => s) 1000 relay_seeded
               relay_registry) as (Hrun & _ & _ & Hrev & Hfwd).
  - apply iteration_order_id.
  - apply relay_well_formed.
  - intros x v Hx.
    do 8 (destruct x as [|x];
          [vm_compute in Hx; try discriminate Hx; eexists; split; reflexivity|]).
    discriminate Hx.
  - vm_compute. reflexivity.
  - vm_compute. reflexivity.
  - vm_compute. reflexivity.
  - vm_compute. reflexivity.
  - intros D1 D2 X v1 v2 _ _ _ _ _ H1 H2.
    assert (Hall : forall D v, has_state
              [ Node OUTPUT_NODE (Some 1) [1%nat]; Node OUTPUT_NODE None [0%nat];
                Node INPUT_NODE None [3%nat]; Node OUTPUT_NODE None [2%nat; 4%nat];
                Node 2 None [3%nat]; Node INPUT_NODE None [];
                Node INPUT_NODE (Some 1) [7%nat]; Node OUTPUT_NODE (Some 1) [6%nat] ]
              D (Some v) -> v = 1).
    { intros D v H.
      do 8 (destruct D as [|D]; [vm_compute in H; congruence|]). discriminate H. }
    by rewrite (Hall D1 v1 H1), (Hall D2 v2 H2).
  - split; [exact Hrun|]. split; apply Hfwd, Hrev; reflexivity.
Defined.

(** * Two outputs driving one net *)

(** X20: the hypothesis on contention cannot be dropped from the single
    assignment of the states.  A power source and a ground wired to the
    same junction make a well-formed store in which only outputs are
    seeded; the reverse pass visits the ground first and floods the
    junction with Low, then visits the power source and overwrites the
    junction with High, whatever the iteration order of the sets and
    the recursion limit above the number of nodes. *)
Theorem contention_overwrites :
  initialize_all [] short_elements short_nodes = Done (short_seeded, short_registry)
  /\ well_formed [] short_seeded short_registry
  /\ seeded_outputs short_seeded
  /\ (forall set_iter limit,
        iteration_order set_iter -> (3 < limit)%nat ->
        build_successors [] set_iter limit short_seeded short_registry
          = Done [[2%nat]; [2%nat]; []]
        /\ (exists node_status,
              sort_nodes limit [[2%nat]; [2%nat]; []] 3
                = Done ([2; 0; 1]%nat, node_status))
        /\ compute_node_states [] set_iter limit short_seeded short_registry
           = Done short_final)
  /\ (exists s,
        reverse_step [] short_registry [[2%nat]; [2%nat]; []] 1 short_seeded = Done s
        /\ has_state s 2 (tri_state Low)
        /\ reverse_step [] short_registry [[2%nat]; [2%nat]; []] 0 s = Done short_final)
  /\ has_state short_final 2 (tri_state High)
  /\ ~ no_contention short_seeded short_final.
Proof.
  split; [vm_compute; reflexivity|]. split; [|split].
  - split.
    + intros k e o (Hout & Hnone & Hreg & Hev).
      destruct k as [|[|[|k]]]; pending_at Hout Hnone Hreg.
    + intros k e p (Hout & Hnone & Hreg & Hev).
      destruct k as [|[|[|k]]]; pending_at Hout Hnone Hreg.
    + intros k e (Hout & Hnone & Hreg & Hev).
      destruct k as [|[|[|k]]]; pending_at Hout Hnone Hreg.
    + intros k e (Hout & Hnone & Hreg & Hev).
      destruct k as [|[|[|k]]]; pending_at Hout Hnone Hreg.
  - intros x v Hx.
    destruct x as [|[|[|x]]]; vm_compute in Hx; try discriminate Hx;
      eexists; split; reflexivity.
  - split; [|split; [|split]].
    + intros set_iter limit Horder Hlimit. limit_from 4%nat limit Hlimit.
      split; [|split].
      * erewrite build_successors_sets; [|vm_compute; reflexivity]. cbn [map].
        by fix_orders Horder.
      * eexists. vm_compute. reflexivity.
      * run_sets. fix_orders Horder. vm_compute. reflexivity.
    + eexists. split; [vm_compute; reflexivity|]. split; [reflexivity|].
      vm_compute. reflexivity.
    + reflexivity.
    + intros Hfree.
      assert (H : 1 = 0); [|discriminate H].
      apply (Hfree 0%nat 1%nat 2%nat 1 0).
      * eexists. split; reflexivity.
      * eexists. split; reflexivity.
      * intros (n & [= <-] & Ht). discriminate.
      * apply rtc_once. eexists; split; [reflexivity|by repeat constructor].
      * apply rtc_once. eexists; split; [reflexivity|by repeat constructor].
      * reflexivity.
      * reflexivity.
Qed.
